(** * Bid sorting engine and benchmark harness

    A shallow embedding of [EnhancedVectorSorting.cpp] (class [BidSorter],
    [benchmarkSort], [displayBenchmarks], [runBenchmarkComparison]) and of
    the sorting functions of the original [VectorSorting.cpp], together
    with the properties the specification states about them.

    Conventions of the embedding:
    - [size_t] is a 64-bit unsigned integer: a value of [N] below [2^64],
      every arithmetic operation reduced modulo [2^64];
    - [int] is a 32-bit two's complement integer (LP64 / LLP64), and the
      conversion of a [size_t] to [int] keeps the low 32 bits;
    - a [vector<Bid>] is a [list Bid] of at most [max_size] elements; a
      function that modifies the vector it is given returns the new
      vector; [bids[i]] outside of the vector is undefined behaviour in
      C++ and is [None] here;
    - a loop is a function that recurses on a fuel argument and returns
      [None] when the fuel is used up; each function that is called from
      outside supplies the fuel from the size of its vector, and the
      properties below show that it is enough;
    - [partition] also returns the list of the positions it has touched;
    - [std::string] comparison is lexicographic on unsigned bytes;
    - the benchmark harness runs in a world of vectors at addresses and
      of a clock, so that passing a vector by value and passing it by
      reference differ. *)

From Stdlib Require Import ZArith NArith Lia String Ascii.
From Stdlib Require Import SpecFloat.
From stdpp Require Import base option numbers list sorting gmap.

Local Open Scope N_scope.

(** [lia] also decides goals with division and remainder by constants. *)
Ltac Zify.zify_post_hook ::= Z.to_euclidean_division_equations.

(** ** Data model *)

(** [struct Bid]; [amount] is an IEEE 754 double. *)
Record Bid := mkBid {
  bidId : string;
  title : string;
  fund : string;
  amount : spec_float
}.

(** The default constructor [Bid() : amount(0.0)]. *)
Definition Bid_default : Bid := mkBid "" "" "" (S754_zero false).

Abbreviation vector := (list Bid).

(** The three string comparisons the sorting code applies to titles. *)
Definition title_lt (x y : Bid) : bool := String.ltb (title x) (title y).
Definition title_gt (x y : Bid) : bool := String.ltb (title y) (title x).
Definition title_le (x y : Bid) : bool := String.leb (title x) (title y).

(** ** [size_t] and [int] arithmetic *)

Definition SIZE_MOD : N := Eval cbv in 2 ^ 64.
Definition wrap (x : N) : N := x mod SIZE_MOD.
Definition wadd (a b : N) : N := wrap (a + b).
Definition wsub (a b : N) : N := wrap (a + SIZE_MOD - wrap b).
Definition wmul (a b : N) : N := wrap (a * b).

Definition INT_MOD : Z := Eval cbv in (2 ^ 32)%Z.
Definition INT_HALF : Z := Eval cbv in (2 ^ 31)%Z.
(** Conversion of a [size_t] to [int]: the low 32 bits, read as signed. *)
Definition to_int (x : N) : Z :=
  let r := (Z.of_N x mod INT_MOD)%Z in
  if (r <? INT_HALF)%Z then r else (r - INT_MOD)%Z.
(** Conversion of an [int] to [size_t]. *)
Definition of_int (i : Z) : N := Z.to_N (i mod Z.of_N SIZE_MOD).

(** ** [vector<Bid>] operations *)

Definition vsize (bids : vector) : N := N.of_nat (length bids).
Definition at_ (bids : vector) (i : N) : option Bid := bids !! N.to_nat i.
(** [bids[i] = x] *)
Definition assign (bids : vector) (i : N) (x : Bid) : option vector :=
  if i <? vsize bids then Some (<[N.to_nat i := x]> bids) else None.
(** [swap(bids[i], bids[j])] *)
Definition swap (bids : vector) (i j : N) : option vector :=
  x ← at_ bids i; y ← at_ bids j;
  Some (<[N.to_nat j := x]> (<[N.to_nat i := y]> bids)).
(** [vector<Bid>(bids.begin() + lo, bids.begin() + hi)] *)
Definition slice (bids : vector) (lo hi : N) : option vector :=
  if (lo <=? hi) && (hi <=? vsize bids)
  then Some (take (N.to_nat (hi - lo)) (drop (N.to_nat lo) bids))
  else None.

(** The indices a call touches: the value of a scanning cursor each time
    its loop condition is evaluated, every element read, every exchange. *)
Inductive access :=
  | Cursor (i : N)
  | Read (i : N)
  | Swap (i j : N).

Definition within (lo hi : N) (a : access) : Prop :=
  match a with
  | Cursor i | Read i => lo <= i <= hi
  | Swap i j => (lo <= i <= hi) /\ (lo <= j <= hi)
  end.

(** ** The enhanced engine: [class BidSorter] *)

Module BidSorter.

(** [while (lowIndex <= end && bids[lowIndex].title < pivot) lowIndex++;] *)
Fixpoint scan_low (fuel : nat) (bids : vector) (pivot : string)
    (end_ lowIndex : N) : option (N * list access) :=
  match fuel with
  | O => None
  | S fuel' =>
    if lowIndex <=? end_ then
      b ← at_ bids lowIndex;
      if String.ltb (title b) pivot then
        '(r, tr) ← scan_low fuel' bids pivot end_ (wadd lowIndex 1);
        Some (r, Cursor lowIndex :: Read lowIndex :: tr)
      else Some (lowIndex, [Cursor lowIndex; Read lowIndex])
    else Some (lowIndex, [Cursor lowIndex])
  end.

(** [while (highIndex >= begin && pivot < bids[highIndex].title) highIndex--;] *)
Fixpoint scan_high (fuel : nat) (bids : vector) (pivot : string)
    (begin highIndex : N) : option (N * list access) :=
  match fuel with
  | O => None
  | S fuel' =>
    if begin <=? highIndex then
      b ← at_ bids highIndex;
      if String.ltb pivot (title b) then
        '(r, tr) ← scan_high fuel' bids pivot begin (wsub highIndex 1);
        Some (r, Cursor highIndex :: Read highIndex :: tr)
      else Some (highIndex, [Cursor highIndex; Read highIndex])
    else Some (highIndex, [Cursor highIndex])
  end.

(** The [while (true)] loop of [partition]. *)
Fixpoint partition_loop (fuel : nat) (bids : vector) (pivot : string)
    (begin end_ lowIndex highIndex : N) : option (N * vector * list access) :=
  match fuel with
  | O => None
  | S fuel' =>
    '(lowIndex, tr1) ← scan_low (S (length bids)) bids pivot end_ lowIndex;
    '(highIndex, tr2) ← scan_high (S (length bids)) bids pivot begin highIndex;
    if highIndex <=? lowIndex then Some (highIndex, bids, tr1 ++ tr2)
    else
      bids ← swap bids lowIndex highIndex;
      '(r, bids, tr3) ← partition_loop fuel' bids pivot begin end_
                          (wadd lowIndex 1) (wsub highIndex 1);
      Some (r, bids, tr1 ++ tr2 ++ Swap lowIndex highIndex :: tr3)
  end.

Definition partition (bids : vector) (begin end_ : N)
    : option (N * vector * list access) :=
  if end_ <=? begin then Some (begin, bids, [])
  else
    let lowIndex := begin in
    let highIndex := end_ in
    let middlePoint := wadd lowIndex (wsub highIndex lowIndex / 2) in
    b ← at_ bids middlePoint;
    let pivot := title b in
    '(r, bids, tr) ← partition_loop (S (length bids)) bids pivot begin end_
                       lowIndex highIndex;
    Some (r, bids, Read middlePoint :: tr).

(** [merge]: the loop that runs while both buffers have elements left. *)
Fixpoint merge_both (fuel : nat) (bids leftArray rightArray : vector)
    (i j k : N) : option (vector * N * N * N) :=
  if (i <? vsize leftArray) && (j <? vsize rightArray) then
    match fuel with
    | O => None
    | S fuel' =>
      x ← at_ leftArray i; y ← at_ rightArray j;
      if title_le x y then
        bids ← assign bids k x;
        merge_both fuel' bids leftArray rightArray (wadd i 1) j (wadd k 1)
      else
        bids ← assign bids k y;
        merge_both fuel' bids leftArray rightArray i (wadd j 1) (wadd k 1)
    end
  else Some (bids, i, j, k).

(** [merge]: the two loops that copy what is left of one buffer. *)
Fixpoint merge_rest (fuel : nat) (bids buffer : vector) (i k : N)
    : option (vector * N) :=
  if i <? vsize buffer then
    match fuel with
    | O => None
    | S fuel' =>
      x ← at_ buffer i;
      bids ← assign bids k x;
      merge_rest fuel' bids buffer (wadd i 1) (wadd k 1)
    end
  else Some (bids, k).

(** The two buffers are built from iterator ranges; iterator arithmetic
    is not reduced modulo [2^64], a range outside of the vector is
    undefined. *)
Definition merge (bids : vector) (left mid right : N) : option vector :=
  leftArray ← slice bids left (mid + 1);
  rightArray ← slice bids (mid + 1) (right + 1);
  let fuel := S (length bids) in
  '(bids, i, j, k) ← merge_both fuel bids leftArray rightArray 0 0 left;
  '(bids, k) ← merge_rest fuel bids leftArray i k;
  '(bids, _) ← merge_rest fuel bids rightArray j k;
  Some bids.

(** The inner [for] loop of [selectionSort]. *)
Fixpoint find_min (fuel : nat) (bids : vector) (size j minIndex : N)
    : option N :=
  if j <? size then
    match fuel with
    | O => None
    | S fuel' =>
      bj ← at_ bids j; bm ← at_ bids minIndex;
      find_min fuel' bids size (wadd j 1)
        (if title_lt bj bm then j else minIndex)
    end
  else Some minIndex.

(** The outer [for] loop of [selectionSort]. *)
Fixpoint selection_loop (fuel : nat) (bids : vector) (size i : N)
    : option vector :=
  if i <? wsub size 1 then
    match fuel with
    | O => None
    | S fuel' =>
      minIndex ← find_min (length bids) bids size (wadd i 1) i;
      bids ← (if minIndex =? i then Some bids else swap bids i minIndex);
      selection_loop fuel' bids size (wadd i 1)
    end
  else Some bids.

Definition selectionSort (bids : vector) : option vector :=
  if vsize bids =? 0 then Some bids
  else selection_loop (length bids) bids (vsize bids) 0.

Fixpoint quickSort_rec (fuel : nat) (bids : vector) (begin end_ : N)
    : option vector :=
  if (vsize bids =? 0) || (end_ <=? begin) then Some bids
  else
    match fuel with
    | O => None
    | S fuel' =>
      '(pivotIndex, bids, _) ← partition bids begin end_;
      bids ← (if begin <? pivotIndex
              then quickSort_rec fuel' bids begin pivotIndex
              else Some bids);
      if pivotIndex <? end_
      then quickSort_rec fuel' bids (wadd pivotIndex 1) end_
      else Some bids
    end.

Definition quickSort (bids : vector) (begin end_ : N) : option vector :=
  quickSort_rec (length bids) bids begin end_.

Fixpoint mergeSort_rec (fuel : nat) (bids : vector) (left right : N)
    : option vector :=
  if (vsize bids =? 0) || (right <=? left) then Some bids
  else
    match fuel with
    | O => None
    | S fuel' =>
      let mid := wadd left (wsub right left / 2) in
      bids ← mergeSort_rec fuel' bids left mid;
      bids ← mergeSort_rec fuel' bids (wadd mid 1) right;
      merge bids left mid right
    end.

Definition mergeSort (bids : vector) (left right : N) : option vector :=
  mergeSort_rec (length bids) bids left right.

(** The self-referential lambda [heapifyRecursive] of [heapSort]. *)
Fixpoint heapifyRecursive (fuel : nat) (bids : vector) (n i : N)
    : option vector :=
  match fuel with
  | O => None
  | S fuel' =>
    let largest := i in
    let left := wadd (wmul 2 i) 1 in
    let right := wadd (wmul 2 i) 2 in
    largest ← (if left <? n then
                 bl ← at_ bids left; bg ← at_ bids largest;
                 Some (if title_gt bl bg then left else largest)
               else Some largest);
    largest ← (if right <? n then
                 br ← at_ bids right; bg ← at_ bids largest;
                 Some (if title_gt br bg then right else largest)
               else Some largest);
    if largest =? i then Some bids
    else
      bids ← swap bids i largest;
      heapifyRecursive fuel' bids n largest
  end.

Definition heapify (bids : vector) (n i : N) : option vector :=
  heapifyRecursive (S (length bids)) bids n i.

(** [for (int i = n / 2 - 1; i >= 0; i--) heapify(n, i);] with [i] the
    current value of the [int] counter. *)
Fixpoint build_heap (fuel : nat) (bids : vector) (n : N) (i : Z)
    : option vector :=
  if (0 <=? i)%Z then
    match fuel with
    | O => None
    | S fuel' =>
      bids ← heapify bids n (of_int i);
      build_heap fuel' bids n (i - 1)%Z
    end
  else Some bids.

(** [for (size_t i = n - 1; i > 0; i--) { swap(bids[0], bids[i]); heapify(i, 0); }] *)
Fixpoint extract_loop (fuel : nat) (bids : vector) (i : N) : option vector :=
  if 0 <? i then
    match fuel with
    | O => None
    | S fuel' =>
      bids ← swap bids 0 i;
      bids ← heapify bids i 0;
      extract_loop fuel' bids (wsub i 1)
    end
  else Some bids.

Definition heapSort (bids : vector) : option vector :=
  if vsize bids =? 0 then Some bids
  else
    let n := vsize bids in
    bids ← build_heap (S (length bids)) bids n (to_int (wsub (n / 2) 1));
    extract_loop (length bids) bids (wsub n 1).

End BidSorter.

(** ** The original engine: [VectorSorting.cpp] *)

Module Original.

(** [while (bids[lowIndex].title < pivot) lowIndex++;] *)
Fixpoint scan_low (fuel : nat) (bids : vector) (pivot : string)
    (lowIndex : N) : option (N * list access) :=
  match fuel with
  | O => None
  | S fuel' =>
    b ← at_ bids lowIndex;
    if String.ltb (title b) pivot then
      '(r, tr) ← scan_low fuel' bids pivot (wadd lowIndex 1);
      Some (r, Cursor lowIndex :: Read lowIndex :: tr)
    else Some (lowIndex, [Cursor lowIndex; Read lowIndex])
  end.

(** [while (pivot < bids[highIndex].title) highIndex--;] *)
Fixpoint scan_high (fuel : nat) (bids : vector) (pivot : string)
    (highIndex : N) : option (N * list access) :=
  match fuel with
  | O => None
  | S fuel' =>
    b ← at_ bids highIndex;
    if String.ltb pivot (title b) then
      '(r, tr) ← scan_high fuel' bids pivot (wsub highIndex 1);
      Some (r, Cursor highIndex :: Read highIndex :: tr)
    else Some (highIndex, [Cursor highIndex; Read highIndex])
  end.

Fixpoint partition_loop (fuel : nat) (bids : vector) (pivot : string)
    (lowIndex highIndex : N) : option (N * vector * list access) :=
  match fuel with
  | O => None
  | S fuel' =>
    '(lowIndex, tr1) ← scan_low (S (length bids)) bids pivot lowIndex;
    '(highIndex, tr2) ← scan_high (S (length bids)) bids pivot highIndex;
    if highIndex <=? lowIndex then Some (highIndex, bids, tr1 ++ tr2)
    else
      bids ← swap bids lowIndex highIndex;
      '(r, bids, tr3) ← partition_loop fuel' bids pivot
                          (wadd lowIndex 1) (wsub highIndex 1);
      Some (r, bids, tr1 ++ tr2 ++ Swap lowIndex highIndex :: tr3)
  end.

Definition partition (bids : vector) (begin end_ : N)
    : option (N * vector * list access) :=
  let lowIndex := begin in
  let highIndex := end_ in
  let middlePoint := wadd lowIndex (wsub highIndex lowIndex / 2) in
  b ← at_ bids middlePoint;
  let pivot := title b in
  '(r, bids, tr) ← partition_loop (S (length bids)) bids pivot
                     lowIndex highIndex;
  Some (r, bids, Read middlePoint :: tr).

Fixpoint quickSort_rec (fuel : nat) (bids : vector) (begin end_ : N)
    : option vector :=
  if end_ <=? begin then Some bids
  else
    match fuel with
    | O => None
    | S fuel' =>
      '(mid, bids, _) ← partition bids begin end_;
      bids ← quickSort_rec fuel' bids begin mid;
      quickSort_rec fuel' bids (wadd mid 1) end_
    end.

Definition quickSort (bids : vector) (begin end_ : N) : option vector :=
  quickSort_rec (length bids) bids begin end_.

Fixpoint find_min (fuel : nat) (bids : vector) (size j min : N) : option N :=
  if j <? size then
    match fuel with
    | O => None
    | S fuel' =>
      bj ← at_ bids j; bm ← at_ bids min;
      find_min fuel' bids size (wadd j 1) (if title_lt bj bm then j else min)
    end
  else Some min.

Fixpoint selection_loop (fuel : nat) (bids : vector) (size pos : N)
    : option vector :=
  if pos <? wsub size 1 then
    match fuel with
    | O => None
    | S fuel' =>
      min ← find_min (length bids) bids size (wadd pos 1) pos;
      bids ← swap bids pos min;
      selection_loop fuel' bids size (wadd pos 1)
    end
  else Some bids.

(** No emptiness test: on the empty vector [size - 1] wraps around. *)
Definition selectionSort (bids : vector) : option vector :=
  selection_loop (S (length bids)) bids (vsize bids) 0.

End Original.

(** ** Benchmark harness and report *)

(** [struct BenchmarkResult] *)
Record BenchmarkResult := mkBenchmarkResult {
  algorithmName : string;
  dataSize : N;
  executionTimeMs : spec_float
}.

(** IEEE 754 binary64: the conversion of an integer to [double] and the
    division of two [double]s. *)
Definition double_of_Z (z : Z) : spec_float := binary_normalize 53 1024 z 0 false.
Definition double_div (x y : spec_float) : spec_float := SFdiv 53 1024 x y.

(** What a call can reach: the vectors that exist, each at its address,
    and the clock. [ticks k] is what the [k]-th call of
    [high_resolution_clock::now()] returns, in nanoseconds; [reads] counts
    the calls made so far. *)
Record World := mkWorld {
  heap : gmap positive vector;
  ticks : nat -> Z;
  reads : nat
}.

(** The two instantiations of the template parameter [SortFunc]: a
    pointer to a function of a [vector<Bid>&], and a pointer to a function
    of a [vector<Bid>&] and two [size_t]. *)
Inductive SortFunc :=
  | WholeVector (f : vector -> option vector)
  | Ranged (f : vector -> N -> N -> option vector).

(** [benchmarkSort(sortFunction, bids, algorithmName)], called with the
    vector at address [arg] as second argument. The parameter [bids] is
    passed by value: it is a new vector, at a fresh address [p], that holds
    a copy of the argument and is destroyed when the call returns. The sort
    function receives a reference to it. *)
Definition benchmarkSort (sortFunction : SortFunc) (arg : positive)
    (algorithmName : string) (w : World)
    : option (BenchmarkResult * World) :=
  argument ← heap w !! arg;
  let p := fresh (dom (heap w)) in
  let h := <[p := argument]> (heap w) in
  bids ← h !! p;
  if vsize bids =? 0 then
    Some (mkBenchmarkResult algorithmName 0 (S754_zero false),
          mkWorld (delete p h) (ticks w) (reads w))
  else
    let start := ticks w (reads w) in
    sorted ← match sortFunction with
             | Ranged f => f bids 0 (wsub (vsize bids) 1)
             | WholeVector f => f bids
             end;
    let h := <[p := sorted]> h in
    let end_ := ticks w (S (reads w)) in
    let duration := Z.quot (end_ - start) 1000 in
    bids ← h !! p;
    Some (mkBenchmarkResult algorithmName (vsize bids)
            (double_div (double_of_Z duration) (double_of_Z 1000)),
          mkWorld (delete p h) (ticks w) (S (S (reads w)))).

(** One line of the table of [displayBenchmarks], cell by cell. *)
Record Row := mkRow {
  col_algorithm : string;
  col_size : N;
  col_time : spec_float;
  col_complexity : string
}.

(** What [displayBenchmarks] and [runBenchmarkComparison] print. *)
Inductive Output :=
  | Message (text : string)
  | Table (rows : list Row).

(** The [if] / [else if] chain in the loop of [displayBenchmarks]; the
    local [string complexity] starts empty. *)
Definition complexity_of (algorithmName : string) : string :=
  if String.eqb algorithmName "Selection Sort" then "O(n²)"
  else if String.eqb algorithmName "Quick Sort" then "O(n log n)"
  else if String.eqb algorithmName "Merge Sort" then "O(n log n)"
  else if String.eqb algorithmName "Heap Sort" then "O(n log n)"
  else "".

Definition displayBenchmarks (results : list BenchmarkResult) : Output :=
  match results with
  | [] => Message "No benchmark results to display."
  | _ =>
    Table (map (fun result =>
                  mkRow (algorithmName result) (dataSize result)
                        (executionTimeMs result)
                        (complexity_of (algorithmName result)))
               results)
  end.

(** [runBenchmarkComparison(bids)], called with the vector at address
    [arg]; the parameter is a reference to it. *)
Definition runBenchmarkComparison (arg : positive) (w : World)
    : option (Output * World) :=
  bids ← heap w !! arg;
  if vsize bids =? 0 then
    Some (Message "No data available for benchmarking. Please load bids first.", w)
  else
    '(r1, w) ← benchmarkSort (WholeVector BidSorter.selectionSort) arg "Selection Sort" w;
    '(r2, w) ← benchmarkSort (Ranged BidSorter.quickSort) arg "Quick Sort" w;
    '(r3, w) ← benchmarkSort (Ranged BidSorter.mergeSort) arg "Merge Sort" w;
    '(r4, w) ← benchmarkSort (WholeVector BidSorter.heapSort) arg "Heap Sort" w;
    Some (displayBenchmarks [r1; r2; r3; r4], w).

(** The closed set of algorithms, each with the function pointer and the
    display name under which [runBenchmarkComparison] and [main] pass it
    to [benchmarkSort], and with the complexity class that the
    specification and the menu of [displayMenu] give it. *)
Inductive Algorithm := SelectionAlg | QuickAlg | MergeAlg | HeapAlg.

Definition sortFunction_of (a : Algorithm) : SortFunc :=
  match a with
  | SelectionAlg => WholeVector BidSorter.selectionSort
  | QuickAlg => Ranged BidSorter.quickSort
  | MergeAlg => Ranged BidSorter.mergeSort
  | HeapAlg => WholeVector BidSorter.heapSort
  end.

Definition displayName (a : Algorithm) : string :=
  match a with
  | SelectionAlg => "Selection Sort"
  | QuickAlg => "Quick Sort"
  | MergeAlg => "Merge Sort"
  | HeapAlg => "Heap Sort"
  end.

Definition complexity_class (a : Algorithm) : string :=
  match a with
  | SelectionAlg => "O(n²)"
  | QuickAlg | MergeAlg | HeapAlg => "O(n log n)"
  end.

(** A call of the harness: one timed run of an algorithm under its display
    name, or the comparison of all four. *)
Inductive Call :=
  | Run (a : Algorithm)
  | Sweep.

(** A sequence of benchmark calls on the vector at address [arg]. *)
Fixpoint run_calls (calls : list Call) (arg : positive) (w : World)
    : option World :=
  match calls with
  | [] => Some w
  | Run a :: calls =>
    '(_, w) ← benchmarkSort (sortFunction_of a) arg (displayName a) w;
    run_calls calls arg w
  | Sweep :: calls =>
    '(_, w) ← runBenchmarkComparison arg w;
    run_calls calls arg w
  end.

(** ** Ingestion and the menu *)

(** The exceptions of the program: [std::invalid_argument] and
    [std::out_of_range], which [stod] throws, and [csv::Error], which the
    CSV parser throws. *)
Inductive exception := invalid_argument | out_of_range | csv_Error.

(** What a call that can throw comes back with. *)
Inductive outcome (A : Type) :=
  | Returns (a : A)
  | Throws (e : exception).
Arguments Returns {A} a.
Arguments Throws {A} e.

#[global] Instance outcome_ret : MRet outcome := fun A a => Returns a.
#[global] Instance outcome_bind : MBind outcome := fun A B f m =>
  match m with
  | Returns a => f a
  | Throws e => Throws e
  end.

(** [str.erase(remove(str.begin(), str.end(), ch), str.end())] *)
Fixpoint erase_remove (str : string) (ch : ascii) : string :=
  match str with
  | EmptyString => EmptyString
  | String c rest =>
    if Ascii.eqb c ch then erase_remove rest ch
    else String c (erase_remove rest ch)
  end.

(** [csv::Parser], declared in [CSVparser.hpp]: what the program uses of
    a parsed file, the number of its rows and its cells [file[i][j]];
    reading a cell returns its text or throws. *)
Record Parser := mkParser {
  rowCount : N;
  cell : Z -> Z -> outcome string
}.

Definition INT_MAX : Z := Eval cbv in (INT_HALF - 1)%Z.

(** The body of the loop of [loadBids], up to [push_back]: the four
    cells of row [i], in the order in which they are read, the last one
    converted by [strToDouble(..., '$')]. *)
Definition read_row (strToDouble : string -> ascii -> outcome spec_float)
    (file : Parser) (i : Z) : outcome Bid :=
  id ← cell file i 1;
  t ← cell file i 0;
  f ← cell file i 8;
  str ← cell file i 4;
  a ← strToDouble str "$"%char;
  mret (mkBid id t f a).

(** [for (int i = 0; i < file.rowCount(); i++) { ...; bids.push_back(bid); }]
    inside of its [try] block: the vector as it is when the loop is left,
    and the exception that has ended it, if any. The counter is an [int];
    [i++] at [INT_MAX] is undefined. *)
Fixpoint load_rows (strToDouble : string -> ascii -> outcome spec_float)
    (fuel : nat) (file : Parser) (i : Z) (bids : vector)
    : option (vector * option exception) :=
  if (i <? Z.of_N (rowCount file))%Z then
    match fuel with
    | O => None
    | S fuel' =>
      match read_row strToDouble file i with
      | Throws e => Some (bids, Some e)
      | Returns bid =>
        let bids := bids ++ [bid] in
        if (i =? INT_MAX)%Z then None
        else load_rows strToDouble fuel' file (i + 1)%Z bids
      end
    end
  else Some (bids, None).

(** [cin >> choice] in [getValidatedInput]: what one extraction of an
    [int] from the console yields, its value or a failure. The console is
    the list of the extractions to come; when the list is used up the
    console is at its end and every further extraction fails. *)
Abbreviation console := (list (option Z)).

(** [getValidatedInput(prompt, min, max)]: the accepted number and what
    is left of the console. Each round of [while (true)] takes one unit
    of fuel. *)
Fixpoint getValidatedInput (fuel : nat) (min max : Z) (cin : console)
    : option (Z * console) :=
  match fuel with
  | O => None
  | S fuel' =>
    match cin with
    | Some choice :: rest =>
      if ((min <=? choice) && (choice <=? max))%Z then Some (choice, rest)
      else getValidatedInput fuel' min max rest
    | None :: rest => getValidatedInput fuel' min max rest
    | [] => getValidatedInput fuel' min max []
    end
  end.

Section Ingestion.

(** The library functions [std::stod] and the constructor of
    [csv::Parser]; the file system does not change while the program
    runs. *)
Context (stod : string -> outcome spec_float).
Context (csv_Parser : string -> outcome Parser).

(** [strToDouble]: only [invalid_argument] is caught. *)
Definition strToDouble (str : string) (ch : ascii) : outcome spec_float :=
  let str := erase_remove str ch in
  match stod str with
  | Throws invalid_argument => Returns (S754_zero false)
  | r => r
  end.

(** [loadBids(csvPath)]: the vector it returns and the exception it has
    reported on [cerr], if any. Both handlers fall through to
    [return bids]. *)
Definition loadBids (csvPath : string) : option (vector * option exception) :=
  match csv_Parser csvPath with
  | Throws e => Some ([], Some e)
  | Returns file => load_rows strToDouble (N.to_nat (rowCount file)) file 0 []
  end.

(** [getBid()], given the four lines that its calls of [getline] store. *)
Definition getBid (lines : string * string * string * string) : outcome Bid :=
  let '(id, t, f, strAmount) := lines in
  a ← strToDouble strAmount "$"%char;
  mret (mkBid id t f a).

(** A call [sort(bids)] or [sort(bids, 0, bids.size() - 1)] of [main] on
    its own vector, which lives at address [bids]. *)
Definition sort_in_place (sort : vector -> option vector) (bids : positive)
    (w : World) : option World :=
  v ← heap w !! bids;
  sorted ← sort v;
  Some (mkWorld (<[bids := sorted]> (heap w)) (ticks w) (reads w)).

(** One round of the [switch] of [main], for the vector of [main] at
    address [bids]: what it does to the vectors and to the clock. What
    it prints is left out. [lines] is what the user types when asked for
    a bid. *)
Definition main_case (csvPath : string) (choice : Z)
    (lines : string * string * string * string) (bids : positive) (w : World)
    : option (outcome World) :=
  v ← heap w !! bids;
  match choice with
  | 1%Z =>
    '(loaded, _) ← loadBids csvPath;
    Some (Returns (mkWorld (<[bids := loaded]> (heap w)) (ticks w) (2 + reads w)))
  | 3%Z =>
    match getBid lines with
    | Throws e => Some (Throws e)
    | Returns newBid =>
      Some (Returns (mkWorld (<[bids := v ++ [newBid]]> (heap w)) (ticks w) (reads w)))
    end
  | 4%Z =>
    if vsize v =? 0 then Some (Returns w)
    else
      '(_, w) ← benchmarkSort (WholeVector BidSorter.selectionSort) bids
                  "Selection Sort" w;
      '(loaded, _) ← loadBids csvPath;
      let w := mkWorld (<[bids := loaded]> (heap w)) (ticks w) (reads w) in
      w ← sort_in_place BidSorter.selectionSort bids w;
      Some (Returns w)
  | 5%Z =>
    if vsize v =? 0 then Some (Returns w)
    else
      '(_, w) ← benchmarkSort (Ranged BidSorter.quickSort) bids "Quick Sort" w;
      v ← heap w !! bids;
      if 0 <? vsize v then
        w ← sort_in_place (fun b => BidSorter.quickSort b 0 (wsub (vsize b) 1)) bids w;
        Some (Returns w)
      else Some (Returns w)
  | 6%Z =>
    if vsize v =? 0 then Some (Returns w)
    else
      '(_, w) ← benchmarkSort (Ranged BidSorter.mergeSort) bids "Merge Sort" w;
      v ← heap w !! bids;
      if 0 <? vsize v then
        w ← sort_in_place (fun b => BidSorter.mergeSort b 0 (wsub (vsize b) 1)) bids w;
        Some (Returns w)
      else Some (Returns w)
  | 7%Z =>
    if vsize v =? 0 then Some (Returns w)
    else
      '(_, w) ← benchmarkSort (WholeVector BidSorter.heapSort) bids "Heap Sort" w;
      w ← sort_in_place BidSorter.heapSort bids w;
      Some (Returns w)
  | 8%Z =>
    '(_, w) ← runBenchmarkComparison bids w;
    Some (Returns w)
  | 9%Z =>
    Some (Returns (mkWorld (<[bids := []]> (heap w)) (ticks w) (reads w)))
  | _ => Some (Returns w)
  end.

End Ingestion.

(** ** Ingestion in the original program *)

Module OriginalIngestion.

Section Ingestion.

(** The library function [atof], applied to the text of a string, and
    the constructor of [csv::Parser]. *)
Context (atof : string -> spec_float).
Context (csv_Parser : string -> outcome Parser).

(** [strToDouble]: [atof] does not throw. *)
Definition strToDouble (str : string) (ch : ascii) : spec_float :=
  let str := erase_remove str ch in
  atof str.

(** [loadBids(csvPath)]: the parser is built outside of the [try] block,
    and the one handler catches [csv::Error]. *)
Definition loadBids (csvPath : string) : option (outcome vector) :=
  match csv_Parser csvPath with
  | Throws e => Some (Throws e)
  | Returns file =>
    '(bids, e) ← load_rows (fun str ch => Returns (strToDouble str ch))
                  (N.to_nat (rowCount file)) file 0 [];
    match e with
    | None | Some csv_Error => Some (Returns bids)
    | Some e => Some (Throws e)
    end
  end.

End Ingestion.

End OriginalIngestion.

(** * Vocabulary of the specification *)

(** The index that position [k] holds after exchanging [i] and [j]. *)
Definition transp (i j k : N) : N :=
  if k =? i then j else if k =? j then i else k.

(** [x <= y] on titles, as the code's [<] sees it. *)
Definition tle (x y : Bid) : Prop := String.ltb (title y) (title x) = false.

(** Ascending by title, as the specification words it: for all indices
    [i < j], [output[i].title <= output[j].title]. *)
Definition ascending (bids : vector) : Prop :=
  forall (i j : nat) x y, (i < j)%nat ->
    bids !! i = Some x -> bids !! j = Some y ->
    String.leb (title x) (title y) = true.

(** Every position below [i] holds an element that is at most every
    element after it. *)
Definition ordered_below (bids : vector) (i : N) : Prop :=
  forall p q x y, p < i -> p < q ->
    at_ bids p = Some x -> at_ bids q = Some y -> tle x y.

(** [exch lo hi bids out]: [out] is reached from [bids] by a sequence of
    exchanges of two positions of [[lo, hi]]. *)
Inductive exch (lo hi : N) : vector -> vector -> Prop :=
  | exch_refl bids : exch lo hi bids bids
  | exch_step bids mid out i j :
      lo <= i <= hi -> lo <= j <= hi ->
      swap bids i j = Some mid -> exch lo hi mid out -> exch lo hi bids out.

(** Ascending by title between two positions, both included. *)
Definition sorted_range (bids : vector) (lo hi : N) : Prop :=
  forall p q x y, lo <= p -> p < q -> q <= hi ->
    at_ bids p = Some x -> at_ bids q = Some y -> tle x y.

(** The records of one title, in the order in which the vector holds them. *)
Definition with_title (t : string) (bids : vector) : vector :=
  filter (fun x => title x = t) bids.

(** [s] is the stable sorting of [seg]. *)
Definition stable_sorted (seg s : vector) : Prop :=
  s ≡ₚ seg /\ StronglySorted tle s /\
  (forall t, with_title t s = with_title t seg) /\
  (StronglySorted tle seg -> s = seg).

(** From position [lo] on, no child among the first [n] elements exceeds
    its parent. *)
Definition heap_ok (bids : vector) (n lo : N) : Prop :=
  forall p c xp xc, lo <= p -> c < n -> c = 2 * p + 1 \/ c = 2 * p + 2 ->
    at_ bids p = Some xp -> at_ bids c = Some xc -> tle xc xp.

(** The same, except at position [i], whose children are however at most
    the parent of [i]. *)
Definition heap_except (bids : vector) (n lo i : N) : Prop :=
  (forall p c xp xc, lo <= p -> p <> i -> c < n -> c = 2 * p + 1 \/ c = 2 * p + 2 ->
     at_ bids p = Some xp -> at_ bids c = Some xc -> tle xc xp) /\
  (forall p c xp xc, lo <= p -> i = 2 * p + 1 \/ i = 2 * p + 2 ->
     c < n -> c = 2 * i + 1 \/ c = 2 * i + 2 ->
     at_ bids p = Some xp -> at_ bids c = Some xc -> tle xc xp).

(** The largest size at which the [int] counter of the first loop of
    [heapSort] still holds [n / 2 - 1]. *)
Definition HEAP_MAX : N := Eval cbv in 2 ^ 32 + 1.

(** At most the pivot, at least the pivot. *)
Definition le_pivot (pivot : string) (x : Bid) : Prop :=
  String.ltb pivot (title x) = false.
Definition ge_pivot (pivot : string) (x : Bid) : Prop :=
  String.ltb (title x) pivot = false.

(** An upper bound of [std::vector<Bid>::max_size()]: [PTRDIFF_MAX]. *)
Definition max_size : N := Eval cbv in 2 ^ 63 - 1.

(** [s <= t] on strings. *)
Definition str_le (s t : string) : Prop := String.ltb t s = false.

(** ** Sample data *)

(** A default-constructed [Bid] with its identifier and title set. *)
Definition bid_of (id t : string) : Bid := mkBid id t "" (S754_zero false).

(** The concrete scenario of the specification. *)
Definition sample : vector :=
  [bid_of "1" "Zebra"; bid_of "2" "Apple"; bid_of "3" "Mango"].

(** Two records that share a title. *)
Definition twins : vector := [bid_of "1" "A"; bid_of "2" "A"].

(** [2^32 + 2] records, all titled "A" but the fourth. *)
Definition huge_input : vector :=
  [bid_of "1" "A"; bid_of "1" "A"; bid_of "1" "A"; bid_of "2" "B"]
    ++ replicate (N.to_nat 4294967294) (bid_of "1" "A").

Definition huge_output : vector :=
  [bid_of "1" "A"; bid_of "1" "A"; bid_of "2" "B"; bid_of "1" "A"]
    ++ replicate (N.to_nat 4294967294) (bid_of "1" "A").

(** A world that holds [v] at address 1 and whose clock advances by
    2.5 ms from one reading to the next. *)
Definition sample_world (v : vector) : World :=
  mkWorld {[ 1%positive := v ]} (fun k => (Z.of_nat k * 2500000)%Z) 0.
(** The time that a benchmark run reports when its two readings of the
    clock are the [k]-th and the next: their difference, cut to whole
    microseconds, over [1000.0]. *)
Definition elapsed_ms (w : World) (k : nat) : spec_float :=
  double_div (double_of_Z (Z.quot (ticks w (S k) - ticks w k) 1000))
             (double_of_Z 1000).

(** Whether [getValidatedInput] accepts what an extraction yields. *)
Definition accepted (min max : Z) (a : option Z) : bool :=
  match a with
  | Some choice => ((min <=? choice) && (choice <=? max))%Z
  | None => false
  end.

(** A converter, a file and a file system for the examples: the
    converter knows three texts; the file has the three records of
    [sample], each with the amount ["$12.50"]; the file system has this
    one file. *)
Definition sample_stod (s : string) : outcome spec_float :=
  if String.eqb s "12.50" then Returns (S754_finite false 7036874417766400 (-49))
  else if String.eqb s "1e999" then Throws out_of_range
  else Throws invalid_argument.

Definition sample_atof (s : string) : spec_float :=
  if String.eqb s "12.50" then S754_finite false 7036874417766400 (-49)
  else S754_zero false.

Definition sample_file : Parser :=
  mkParser 3 (fun i j =>
    match sample !! Z.to_nat i with
    | Some b =>
      match j with
      | 0%Z => Returns (title b)
      | 1%Z => Returns (bidId b)
      | 4%Z => Returns "$12.50"%string
      | 8%Z => Returns (fund b)
      | _ => Returns ""%string
      end
    | None => Throws csv_Error
    end).

Definition sample_csv_Parser (csvPath : string) : outcome Parser :=
  if String.eqb csvPath "eBid_Monthly_Sales.csv" then Returns sample_file
  else Throws csv_Error.


(** * Properties *)

(** ** Ordering of [std::string] *)

Module StrOrd.

Lemma ascii_compare_refl (a : ascii) : Ascii.compare a a = Eq.
Proof. unfold Ascii.compare. apply N.compare_refl. Qed.

Lemma ascii_compare_lt_trans (a b c : ascii) :
  Ascii.compare a b = Lt -> Ascii.compare b c = Lt -> Ascii.compare a c = Lt.
Proof.
  unfold Ascii.compare. rewrite !N.compare_lt_iff. lia.
Qed.

Lemma compare_refl (s : string) : String.compare s s = Eq.
Proof.
  induction s as [|a s IH]; simpl; [reflexivity|].
  rewrite ascii_compare_refl. exact IH.
Qed.

Lemma compare_lt_trans (s1 : string) :
  forall s2 s3, String.compare s1 s2 = Lt -> String.compare s2 s3 = Lt ->
                String.compare s1 s3 = Lt.
Proof.
  induction s1 as [|a s1 IH]; intros [|b s2] [|c s3]; simpl; try congruence.
  destruct (Ascii.compare a b) eqn:Hab; try discriminate;
    destruct (Ascii.compare b c) eqn:Hbc; try discriminate; intros H1 H2.
  - apply Ascii.compare_eq_iff in Hab, Hbc. subst.
    rewrite ascii_compare_refl. eauto.
  - apply Ascii.compare_eq_iff in Hab. subst. rewrite Hbc. reflexivity.
  - apply Ascii.compare_eq_iff in Hbc. subst. rewrite Hab. reflexivity.
  - rewrite (ascii_compare_lt_trans _ _ _ Hab Hbc). reflexivity.
Qed.

Lemma ltb_irrefl (s : string) : String.ltb s s = false.
Proof. unfold String.ltb. rewrite compare_refl. reflexivity. Qed.

Lemma ltb_trans (a b c : string) :
  String.ltb a b = true -> String.ltb b c = true -> String.ltb a c = true.
Proof.
  unfold String.ltb.
  destruct (String.compare a b) eqn:H1; try discriminate.
  destruct (String.compare b c) eqn:H2; try discriminate.
  rewrite (compare_lt_trans _ _ _ H1 H2). reflexivity.
Qed.

Lemma ltb_asym (a b : string) : String.ltb a b = true -> String.ltb b a = false.
Proof.
  unfold String.ltb. rewrite (String.compare_antisym a b).
  destruct (String.compare b a); simpl; congruence.
Qed.

Lemma ltb_connex (a b : string) :
  String.ltb a b = false -> String.ltb b a = false -> a = b.
Proof.
  unfold String.ltb. rewrite (String.compare_antisym a b).
  destruct (String.compare b a) eqn:H; simpl; try discriminate.
  intros _ _. symmetry. apply String.compare_eq_iff. exact H.
Qed.

Lemma leb_ltb (a b : string) : String.leb a b = negb (String.ltb b a).
Proof.
  unfold String.leb, String.ltb. rewrite (String.compare_antisym a b).
  destruct (String.compare b a); reflexivity.
Qed.

(** [a <= b] as the negation of [b < a]; the shape every proof below uses. *)
Lemma nlt_trans (a b c : string) :
  String.ltb b a = false -> String.ltb c b = false -> String.ltb c a = false.
Proof.
  intros Hab Hbc. destruct (String.ltb c a) eqn:Hca; [|reflexivity].
  destruct (String.ltb a b) eqn:H1.
  - rewrite (ltb_trans c a b Hca H1) in Hbc. discriminate.
  - rewrite (ltb_connex a b H1 Hab) in Hca. congruence.
Qed.

Lemma nlt_lt_trans (a b c : string) :
  String.ltb b a = false -> String.ltb b c = true -> String.ltb a c = true.
Proof.
  intros Hab Hbc. destruct (String.ltb a b) eqn:H1.
  - eapply ltb_trans; eauto.
  - rewrite (ltb_connex a b H1 Hab). exact Hbc.
Qed.

Lemma lt_nlt_trans (a b c : string) :
  String.ltb a b = true -> String.ltb c b = false -> String.ltb a c = true.
Proof.
  intros Hab Hbc. destruct (String.ltb b c) eqn:H1.
  - eapply ltb_trans; eauto.
  - rewrite <- (ltb_connex b c H1 Hbc). exact Hab.
Qed.

End StrOrd.

(** ** Arithmetic without wrap-around *)

Lemma wrap_small (x : N) : x < SIZE_MOD -> wrap x = x.
Proof. intros H. unfold wrap. apply N.mod_small. exact H. Qed.

Lemma wadd_small (a b : N) : a + b < SIZE_MOD -> wadd a b = a + b.
Proof. apply wrap_small. Qed.

Lemma wsub_small (a b : N) : b <= a -> a < SIZE_MOD -> wsub a b = a - b.
Proof.
  intros H1 H2. unfold wsub. rewrite (wrap_small b) by lia.
  unfold wrap. replace (a + SIZE_MOD - b) with (a - b + 1 * SIZE_MOD) by lia.
  rewrite N.Div0.mod_add. apply N.mod_small. lia.
Qed.

Lemma wmul_small (a b : N) : a * b < SIZE_MOD -> wmul a b = a * b.
Proof. apply wrap_small. Qed.

Lemma middle_small (lo hi : N) :
  lo <= hi -> hi < SIZE_MOD ->
  wadd lo (wsub hi lo / 2) = lo + (hi - lo) / 2.
Proof.
  intros H1 H2. rewrite wsub_small by lia. apply wadd_small. lia.
Qed.

Lemma middle_bounds (lo hi : N) :
  lo < hi -> lo <= lo + (hi - lo) / 2 < hi.
Proof.
  intros H. lia.
Qed.

(** ** Elements, exchange and order on a vector *)

Lemma at_lt (bids : vector) i x : at_ bids i = Some x -> i < vsize bids.
Proof.
  unfold at_, vsize. intros H. apply lookup_lt_Some in H. lia.
Qed.

Lemma at_is_Some (bids : vector) i : i < vsize bids -> exists x, at_ bids i = Some x.
Proof.
  unfold at_, vsize. intros H.
  destruct (lookup_lt_is_Some_2 bids (N.to_nat i)) as [x Hx]; [lia|eauto].
Qed.

Lemma at_nat (bids : vector) (i : nat) : bids !! i = at_ bids (N.of_nat i).
Proof. unfold at_. rewrite Nat2N.id. reflexivity. Qed.

Lemma vector_ext (l1 l2 : vector) :
  (forall i, at_ l1 i = at_ l2 i) -> l1 = l2.
Proof.
  intros H. apply list_eq. intros i. rewrite !at_nat. apply H.
Qed.

Lemma insert_head_perm (l : vector) j a y :
  l !! j = Some y -> y :: <[j:=a]> l ≡ₚ a :: l.
Proof.
  revert j. induction l as [|b l IH]; intros [|j] H; simpl in *; try discriminate.
  - injection H as ->. apply Permutation_swap.
  - rewrite (Permutation_swap b y). rewrite (IH _ H). apply Permutation_swap.
Qed.

Lemma insert_insert_perm (l : vector) i j x y :
  l !! i = Some x -> l !! j = Some y -> <[j:=x]> (<[i:=y]> l) ≡ₚ l.
Proof.
  revert i j. induction l as [|a l IH]; intros [|i] [|j] Hi Hj;
    simpl in *; try discriminate.
  - injection Hi as ->. reflexivity.
  - injection Hi as ->. apply insert_head_perm. exact Hj.
  - injection Hj as ->. rewrite (insert_head_perm l i y x Hi). reflexivity.
  - f_equiv. eauto.
Qed.

Lemma swap_is_Some (bids : vector) i j :
  i < vsize bids -> j < vsize bids -> exists out, swap bids i j = Some out.
Proof.
  intros Hi Hj. destruct (at_is_Some _ _ Hi) as [x Hx].
  destruct (at_is_Some _ _ Hj) as [y Hy].
  unfold swap. rewrite Hx. simpl. rewrite Hy. simpl. eauto.
Qed.

Lemma swap_spec (bids out : vector) i j :
  swap bids i j = Some out ->
  i < vsize bids /\ j < vsize bids /\ length out = length bids /\
  out ≡ₚ bids /\ (forall k, at_ out k = at_ bids (transp i j k)).
Proof.
  unfold swap. intros H.
  destruct (at_ bids i) as [x|] eqn:Hx; simpl in H; [|discriminate].
  destruct (at_ bids j) as [y|] eqn:Hy; simpl in H; [|discriminate].
  injection H as <-.
  pose proof (at_lt _ _ _ Hx) as Hi. pose proof (at_lt _ _ _ Hy) as Hj.
  split; [exact Hi|]. split; [exact Hj|].
  split; [rewrite !length_insert; reflexivity|].
  split; [apply insert_insert_perm; assumption|].
  intros k. unfold transp, at_ in *. unfold vsize in *.
  destruct (N.eqb_spec k i) as [->|Hki].
  - destruct (N.eq_dec i j) as [->|Hij].
    + rewrite list_lookup_insert_eq by (rewrite length_insert; lia). congruence.
    + rewrite list_lookup_insert_ne by lia.
      rewrite list_lookup_insert_eq by lia. congruence.
  - destruct (N.eqb_spec k j) as [->|Hkj].
    + rewrite list_lookup_insert_eq by (rewrite length_insert; lia). congruence.
    + rewrite !list_lookup_insert_ne by lia. reflexivity.
Qed.

Lemma swap_same (bids : vector) i : i < vsize bids -> swap bids i i = Some bids.
Proof.
  intros Hi. destruct (at_is_Some _ _ Hi) as [x Hx].
  unfold swap. rewrite Hx. simpl. f_equal. unfold at_ in Hx.
  rewrite !list_insert_id; [reflexivity|exact Hx|].
  rewrite list_insert_id; exact Hx.
Qed.

Lemma swap_vsize (bids out : vector) i j :
  swap bids i j = Some out -> vsize out = vsize bids.
Proof.
  intros H. apply swap_spec in H as (_ & _ & Hl & _). unfold vsize. congruence.
Qed.

Lemma tle_refl x : tle x x.
Proof. apply StrOrd.ltb_irrefl. Qed.

Lemma tle_trans x y z : tle x y -> tle y z -> tle x z.
Proof. unfold tle. intros H1 H2. eapply StrOrd.nlt_trans; eauto. Qed.

Lemma tle_total x y : tle x y \/ tle y x.
Proof.
  unfold tle. destruct (String.ltb (title y) (title x)) eqn:H; [|auto].
  right. apply StrOrd.ltb_asym. exact H.
Qed.

Lemma tle_title_le x y : tle x y <-> title_le x y = true.
Proof.
  unfold tle, title_le. rewrite StrOrd.leb_ltb.
  destruct (String.ltb (title y) (title x)); simpl; split; congruence.
Qed.

Lemma tle_antisym x y : tle x y -> tle y x -> title x = title y.
Proof. unfold tle. intros H1 H2. apply StrOrd.ltb_connex; assumption. Qed.

Lemma ordered_below_ascending (bids : vector) :
  ordered_below bids (vsize bids) <-> ascending bids.
Proof.
  split.
  - intros H i j x y Hij Hx Hy. apply tle_title_le.
    rewrite at_nat in Hx, Hy. apply (H (N.of_nat i) (N.of_nat j)); try lia; try assumption.
    apply at_lt in Hx. exact Hx.
  - intros H p q x y Hp Hpq Hx Hy. apply tle_title_le.
    apply (H (N.to_nat p) (N.to_nat q)); try lia; assumption.
Qed.

Lemma ordered_below_weaken (bids : vector) i j :
  j <= i -> ordered_below bids i -> ordered_below bids j.
Proof. intros Hji H p q x y Hp. apply H. lia. Qed.

(** ** Selection sort *)

Section SelectionSort.

Import BidSorter.

Lemma find_min_spec (bids : vector) (size : N) :
  size = vsize bids -> size < SIZE_MOD ->
  forall fuel j m,
    m < j -> j <= size -> (N.to_nat (size - j) <= fuel)%nat ->
    exists r xr,
      find_min fuel bids size j m = Some r /\ at_ bids r = Some xr /\
      (r = m \/ j <= r) /\
      (forall q y, (q = m \/ j <= q) -> at_ bids q = Some y -> tle xr y) /\
      ((forall q y xm, j <= q -> at_ bids q = Some y -> at_ bids m = Some xm ->
                       tle xm y) -> r = m).
Proof.
  intros Hsize Hmod. induction fuel as [|fuel IH]; intros j m Hm Hj Hfuel.
  - assert (j = size) as -> by lia.
    destruct (at_is_Some bids m) as [xm Hxm]; [lia|].
    exists m, xm. simpl. rewrite N.ltb_irrefl.
    repeat split; auto.
    intros q y [->|Hq] Hy; [|apply at_lt in Hy; lia].
    replace y with xm by congruence. apply tle_refl.
  - destruct (at_is_Some bids m) as [xm Hxm]; [lia|].
    simpl. destruct (N.ltb_spec j size) as [Hlt|Hge].
    + destruct (at_is_Some bids j) as [xj Hxj]; [lia|].
      rewrite Hxj, Hxm. simpl. rewrite wadd_small by lia.
      set (m' := if title_lt xj xm then j else m).
      assert (Hm' : m' < j + 1) by (unfold m'; destruct (title_lt xj xm); lia).
      destruct (IH (j + 1) m' Hm' ltac:(lia) ltac:(lia))
        as (r & xr & Hr & Hxr & Hrange & Hmin & Hkeep).
      exists r, xr. split; [exact Hr|]. split; [exact Hxr|].
      assert (Hm'le : forall x', at_ bids m' = Some x' -> tle x' xm /\ tle x' xj).
      { intros x' Hx'. unfold m' in Hx'. unfold title_lt in *.
        destruct (String.ltb (title xj) (title xm)) eqn:Hlt'.
        - replace x' with xj by congruence. split; [|apply tle_refl].
          unfold tle. apply StrOrd.ltb_asym. exact Hlt'.
        - replace x' with xm by congruence. split; [apply tle_refl|exact Hlt']. }
      split; [|split].
      * destruct Hrange as [->|Hr']; [|right; lia].
        unfold m'. destruct (title_lt xj xm); [right; lia|left; reflexivity].
      * intros q y Hq Hy.
        destruct (at_is_Some bids m') as [x' Hx']; [lia|].
        destruct (Hm'le x' Hx') as [H1 H2].
        assert (Hr' : tle xr x') by (apply (Hmin m'); auto).
        destruct Hq as [->|Hq].
        -- replace y with xm by congruence. eapply tle_trans; eauto.
        -- destruct (N.eq_dec q j) as [->|Hne].
           ++ replace y with xj by congruence. eapply tle_trans; eauto.
           ++ apply (Hmin q); [right; lia|exact Hy].
      * intros Hall.
        assert (Hxjm : title_lt xj xm = false).
        { apply (Hall j xj xm); auto; lia. }
        unfold m' in *. rewrite Hxjm in *. apply Hkeep.
        intros q y xm0 Hq Hy Hxm0. apply (Hall q y xm0); [lia|auto|congruence].
    + assert (j = size) as -> by lia.
      exists m, xm. repeat split; auto.
      intros q y [->|Hq] Hy; [|apply at_lt in Hy; lia].
      replace y with xm by congruence. apply tle_refl.
Qed.

Lemma selection_loop_spec (size : N) :
  size < SIZE_MOD -> 0 < size ->
  forall fuel bids i,
    size = vsize bids -> i < size -> (N.to_nat (size - 1 - i) <= fuel)%nat ->
    ordered_below bids i ->
    exists out,
      selection_loop fuel bids size i = Some out /\ out ≡ₚ bids /\
      ordered_below out size /\
      (ordered_below bids size -> out = bids).
Proof.
  intros Hmod Hpos. induction fuel as [|fuel IH]; intros bids i Hsize Hi Hfuel Hord.
  - assert (i = size - 1) as -> by lia.
    exists bids. simpl. rewrite wsub_small by lia. rewrite N.ltb_irrefl.
    repeat split; auto.
    intros p q x y Hp Hpq Hx Hy. apply (Hord p q); auto.
    apply at_lt in Hy. lia.
  - simpl. rewrite wsub_small by lia.
    destruct (N.ltb_spec i (size - 1)) as [Hlt|Hge].
    + rewrite wadd_small by lia.
      destruct (find_min_spec bids size Hsize Hmod (length bids) (i + 1) i)
        as (m & xm & Hm & Hxm & Hrange & Hmin & Hkeep); [lia|lia|unfold vsize in Hsize; lia|].
      rewrite Hm. simpl.
      assert (Hmi : i <= m) by lia.
      assert (Hmsz : m < size) by (apply at_lt in Hxm; lia).
      assert (exists bids', (if m =? i then Some bids else swap bids i m) = Some bids' /\
                vsize bids' = size /\ bids' ≡ₚ bids /\
                (forall k, at_ bids' k = at_ bids (transp i m k)))
        as (bids' & Hsw & Hsz' & Hperm & Hat).
      { destruct (N.eqb_spec m i) as [->|Hne].
        - exists bids. repeat split; auto. intros k. unfold transp.
          destruct (N.eqb_spec k i) as [->|]; reflexivity.
        - destruct (swap_is_Some bids i m) as [bids' Hsw]; [lia|lia|].
          exists bids'. split; [exact Hsw|].
          pose proof (swap_vsize _ _ _ _ Hsw).
          apply swap_spec in Hsw as (_ & _ & _ & Hp & Hk).
          repeat split; auto. congruence. }
      rewrite Hsw. simpl.
      destruct (IH bids' (i + 1)) as (out & Hout & Hperm' & Hsorted & Hsame);
        [congruence|lia|lia| |].
      { intros p q x y Hp Hpq Hx Hy. rewrite Hat in Hx, Hy.
        assert (Hq : transp i m q < size) by (apply at_lt in Hy; lia).
        destruct (N.eq_dec p i) as [->|Hpi].
        - unfold transp in Hx. rewrite N.eqb_refl in Hx.
          replace x with xm by congruence.
          apply (Hmin (transp i m q)); [|exact Hy].
          unfold transp. destruct (N.eqb_spec q i); [lia|].
          destruct (N.eqb_spec q m); [left; reflexivity|right; lia].
        - assert (transp i m p = p) as Hpp.
          { unfold transp. destruct (N.eqb_spec p i); [lia|].
            destruct (N.eqb_spec p m); [lia|reflexivity]. }
          rewrite Hpp in Hx. apply (Hord p (transp i m q)); auto; [lia|].
          unfold transp. destruct (N.eqb_spec q i); [lia|].
          destruct (N.eqb_spec q m); lia. }
      exists out. split; [exact Hout|]. split; [etrans; eauto|].
      split; [exact Hsorted|].
      intros Hall.
      assert (m = i) as ->.
      { apply Hkeep. intros q y xi Hq Hy Hxi. apply (Hall i q); auto; lia. }
      rewrite N.eqb_refl in Hsw. injection Hsw as <-. apply Hsame. exact Hall.
    + assert (i = size - 1) as -> by lia.
      exists bids. repeat split; auto.
      intros p q x y Hp Hpq Hx Hy. apply (Hord p q); auto.
      apply at_lt in Hy. lia.
Qed.

Lemma selectionSort_spec (bids : vector) :
  vsize bids < SIZE_MOD ->
  exists out,
    selectionSort bids = Some out /\ out ≡ₚ bids /\ ascending out /\
    (ascending bids -> out = bids).
Proof.
  intros Hmod. unfold selectionSort.
  destruct (N.eqb_spec (vsize bids) 0) as [Hz|Hnz].
  - exists bids. repeat split; auto.
    destruct bids; [|discriminate]. intros i j x y _ Hx. discriminate.
  - destruct (selection_loop_spec (vsize bids) Hmod ltac:(lia) (length bids) bids 0)
      as (out & Hout & Hperm & Hsorted & Hsame); [reflexivity|lia|unfold vsize; lia| |].
    { intros p q x y Hp. lia. }
    exists out. split; [exact Hout|]. split; [exact Hperm|].
    assert (vsize out = vsize bids) as Hsz.
    { unfold vsize. rewrite (Permutation_length Hperm). reflexivity. }
    split.
    + apply ordered_below_ascending. rewrite Hsz. exact Hsorted.
    + intros Hasc. apply Hsame. apply ordered_below_ascending. exact Hasc.
Qed.

End SelectionSort.

(** ** Rearrangement by exchanges inside a range *)

Lemma exch_trans lo hi a b c : exch lo hi a b -> exch lo hi b c -> exch lo hi a c.
Proof.
  induction 1 as [|? ? ? i j Hi Hj Hsw _ IH]; [auto|].
  intros Hc. eapply exch_step; [exact Hi|exact Hj|exact Hsw|apply IH; exact Hc].
Qed.

Lemma exch_weaken lo hi lo' hi' a b :
  lo' <= lo -> hi <= hi' -> exch lo hi a b -> exch lo' hi' a b.
Proof.
  intros Hlo Hhi. induction 1 as [|? ? ? i j Hi Hj Hsw _ IH]; [constructor|].
  eapply exch_step; [| |exact Hsw|exact IH]; lia.
Qed.

Lemma exch_one lo hi bids out i j :
  lo <= i <= hi -> lo <= j <= hi -> swap bids i j = Some out -> exch lo hi bids out.
Proof.
  intros Hi Hj Hsw. eapply exch_step; [exact Hi|exact Hj|exact Hsw|constructor].
Qed.

Lemma exch_perm lo hi a b : exch lo hi a b -> b ≡ₚ a.
Proof.
  induction 1 as [|? ? ? i j Hi Hj Hsw _ IH]; [reflexivity|].
  apply swap_spec in Hsw as (_ & _ & _ & Hp & _). etrans; eauto.
Qed.

Lemma exch_vsize lo hi a b : exch lo hi a b -> vsize b = vsize a.
Proof.
  intros H. apply exch_perm in H. unfold vsize.
  rewrite (Permutation_length H). reflexivity.
Qed.

Lemma exch_outside lo hi a b k :
  exch lo hi a b -> k < lo \/ hi < k -> at_ b k = at_ a k.
Proof.
  induction 1 as [|? ? ? i j Hi Hj Hsw _ IH]; [reflexivity|].
  intros Hk. rewrite IH by exact Hk.
  apply swap_spec in Hsw as (_ & _ & _ & _ & Hat). rewrite Hat.
  unfold transp. destruct (N.eqb_spec k i); [lia|].
  destruct (N.eqb_spec k j); [lia|reflexivity].
Qed.

Lemma exch_inside (P : Bid -> Prop) lo hi lo' hi' a b :
  lo' <= lo -> hi <= hi' -> exch lo hi a b ->
  (forall k x, lo' <= k <= hi' -> at_ a k = Some x -> P x) ->
  (forall k x, lo' <= k <= hi' -> at_ b k = Some x -> P x).
Proof.
  intros Hlo Hhi. induction 1 as [|? ? ? i j Hi Hj Hsw _ IH]; [auto|].
  intros Ha. apply IH. intros k x Hk Hx.
  apply swap_spec in Hsw as (_ & _ & _ & _ & Hat). rewrite Hat in Hx.
  apply (Ha (transp i j k)); [|exact Hx].
  unfold transp. destruct (N.eqb_spec k i); [lia|].
  destruct (N.eqb_spec k j); lia.
Qed.

Lemma within_weaken lo hi lo' hi' a :
  lo' <= lo -> hi <= hi' -> within lo hi a -> within lo' hi' a.
Proof. destruct a; simpl; lia. Qed.

Lemma Forall_within_weaken lo hi lo' hi' tr :
  lo' <= lo -> hi <= hi' -> Forall (within lo hi) tr -> Forall (within lo' hi') tr.
Proof.
  intros Hlo Hhi H. eapply Forall_impl; [exact H|].
  intros a. apply within_weaken; assumption.
Qed.

Lemma sorted_range_ascending (bids : vector) :
  0 < vsize bids -> sorted_range bids 0 (vsize bids - 1) -> ascending bids.
Proof.
  intros Hpos H. apply ordered_below_ascending.
  intros p q x y Hp Hpq Hx Hy. apply (H p q); auto; try lia.
  apply at_lt in Hy. lia.
Qed.

(** ** Partitioning *)

Section Partition.

Variable pivot : string.

(** The low scan stops at the latest on an element that is not below
    the pivot; until then the sentinel test of the enhanced engine holds,
    so both engines scan alike. *)
Lemma scan_low_spec (bids : vector) (end_ : N) :
  vsize bids < SIZE_MOD ->
  forall fuel low s xs,
    low <= s -> s <= end_ -> at_ bids s = Some xs -> ge_pivot pivot xs ->
    (N.to_nat (s - low) < fuel)%nat ->
    exists r xr tr,
      BidSorter.scan_low fuel bids pivot end_ low = Some (r, tr) /\
      Original.scan_low fuel bids pivot low = Some (r, tr) /\
      low <= r <= s /\ at_ bids r = Some xr /\ ge_pivot pivot xr /\
      (forall k x, low <= k < r -> at_ bids k = Some x -> le_pivot pivot x) /\
      Forall (within low s) tr.
Proof.
  intros Hmod. induction fuel as [|fuel IH]; intros low s xs Hls Hse Hxs Hge Hfuel;
    [lia|].
  pose proof (at_lt _ _ _ Hxs) as Hs.
  destruct (at_is_Some bids low) as [x Hx]; [lia|].
  simpl. destruct (N.leb_spec low end_); [|lia]. rewrite Hx. simpl.
  destruct (String.ltb (title x) pivot) eqn:Hlt.
  - assert (low <> s) by (intros ->; unfold ge_pivot in Hge; congruence).
    rewrite wadd_small by lia.
    destruct (IH (low + 1) s xs) as (r & xr & tr & H1 & H2 & Hr & Hxr & Hger & Hbelow & Htr);
      auto; try lia.
    exists r, xr, (Cursor low :: Read low :: tr).
    rewrite H1, H2. simpl. repeat split; auto; try lia.
    + intros k y Hk Hy. destruct (N.eq_dec k low) as [->|Hne].
      * replace y with x by congruence. apply StrOrd.ltb_asym. exact Hlt.
      * apply (Hbelow k); auto. lia.
    + repeat constructor; try lia.
      eapply Forall_within_weaken; [| |exact Htr]; lia.
  - exists low, x, [Cursor low; Read low]. repeat split; auto; try lia.
    repeat constructor; lia.
Qed.

Lemma scan_high_spec (bids : vector) (begin : N) :
  vsize bids < SIZE_MOD ->
  forall fuel high s xs,
    begin <= s -> s <= high -> high < vsize bids ->
    at_ bids s = Some xs -> le_pivot pivot xs ->
    (N.to_nat (high - s) < fuel)%nat ->
    exists r xr tr,
      BidSorter.scan_high fuel bids pivot begin high = Some (r, tr) /\
      Original.scan_high fuel bids pivot high = Some (r, tr) /\
      s <= r <= high /\ at_ bids r = Some xr /\ le_pivot pivot xr /\
      (forall k x, r < k <= high -> at_ bids k = Some x -> ge_pivot pivot x) /\
      Forall (within s high) tr.
Proof.
  intros Hmod. induction fuel as [|fuel IH]; intros high s xs Hbs Hsh Hh Hxs Hle Hfuel;
    [lia|].
  destruct (at_is_Some bids high) as [x Hx]; [lia|].
  simpl. destruct (N.leb_spec begin high); [|lia]. rewrite Hx. simpl.
  destruct (String.ltb pivot (title x)) eqn:Hlt.
  - assert (high <> s) by (intros ->; unfold le_pivot in Hle; congruence).
    rewrite wsub_small by lia.
    destruct (IH (high - 1) s xs) as (r & xr & tr & H1 & H2 & Hr & Hxr & Hler & Habove & Htr);
      auto; try lia.
    exists r, xr, (Cursor high :: Read high :: tr).
    rewrite H1, H2. simpl. repeat split; auto; try lia.
    + intros k y Hk Hy. destruct (N.eq_dec k high) as [->|Hne].
      * replace y with x by congruence. apply StrOrd.ltb_asym. exact Hlt.
      * apply (Habove k); auto. lia.
    + repeat constructor; try lia.
      eapply Forall_within_weaken; [| |exact Htr]; lia.
  - exists high, x, [Cursor high; Read high]. repeat split; auto; try lia.
    repeat constructor; lia.
Qed.

(** The [while (true)] loop, entered with everything left of the low
    cursor at most the pivot, everything right of the high cursor at least
    the pivot, and one element ahead of each cursor that stops its scan. *)
Lemma partition_loop_spec (begin end_ : N) :
  begin < end_ ->
  forall fuel bids low high sl sh xl xh,
    end_ < vsize bids -> vsize bids < SIZE_MOD ->
    begin <= low -> high <= end_ -> low <= high + 1 ->
    low <= sl <= end_ -> at_ bids sl = Some xl -> ge_pivot pivot xl ->
    begin <= sh <= high -> at_ bids sh = Some xh -> le_pivot pivot xh ->
    high < end_ \/ sl < end_ ->
    (forall k x, begin <= k < low -> at_ bids k = Some x -> le_pivot pivot x) ->
    (forall k x, high < k <= end_ -> at_ bids k = Some x -> ge_pivot pivot x) ->
    (N.to_nat (high + 1 - low) < fuel)%nat ->
    exists r out tr,
      BidSorter.partition_loop fuel bids pivot begin end_ low high = Some (r, out, tr) /\
      Original.partition_loop fuel bids pivot low high = Some (r, out, tr) /\
      begin <= r < end_ /\ exch begin end_ bids out /\
      (forall k x, begin <= k <= r -> at_ out k = Some x -> le_pivot pivot x) /\
      (forall k x, r < k <= end_ -> at_ out k = Some x -> ge_pivot pivot x) /\
      Forall (within begin end_) tr.
Proof.
  intros Hbe. induction fuel as [|fuel IH];
    intros bids low high sl sh xl xh Hend Hmod Hlow Hhigh Hlh Hsl Hxl Hgel
           Hsh Hxh Hleh Hlt Hleft Hright Hfuel; [lia|].
  destruct (scan_low_spec bids end_ Hmod (S (length bids)) low sl xl)
    as (l & xl' & tr1 & Hl1 & Hl2 & Hl & Hxl' & Hgel' & Hbelow & Htr1);
    auto; try lia.
  { apply at_lt in Hxl. unfold vsize in *. lia. }
  destruct (scan_high_spec bids begin Hmod (S (length bids)) high sh xh)
    as (h & xh' & tr2 & Hh1 & Hh2 & Hh & Hxh' & Hleh' & Habove & Htr2);
    auto; try lia.
  { unfold vsize in *. lia. }
  cbn [BidSorter.partition_loop Original.partition_loop].
  rewrite Hl1, Hl2, Hh1, Hh2. cbn [mbind option_bind].
  assert (Htr12 : Forall (within begin end_) (tr1 ++ tr2)).
  { apply Forall_app. split;
      [apply (Forall_within_weaken low sl)|apply (Forall_within_weaken sh high)];
      auto; lia. }
  destruct (N.leb_spec h l) as [Hhl|Hhl].
  - exists h, bids, (tr1 ++ tr2). repeat split; auto; try lia.
    + constructor.
    + intros k x Hk Hx. destruct (N.lt_ge_cases k low) as [Hk1|Hk1].
      * apply (Hleft k); auto. lia.
      * destruct (N.eq_dec k h) as [->|Hne]; [congruence|].
        apply (Hbelow k); auto. lia.
    + intros k x Hk Hx. destruct (N.le_gt_cases k high) as [Hk1|Hk1].
      * apply (Habove k); auto. lia.
      * apply (Hright k); auto. lia.
  - destruct (swap_is_Some bids l h) as [bids' Hsw]; [lia|lia|].
    rewrite Hsw. cbn [mbind option_bind].
    pose proof (swap_vsize _ _ _ _ Hsw) as Hsz.
    pose proof (swap_spec _ _ _ _ Hsw) as (_ & _ & _ & _ & Hat).
    rewrite wadd_small by lia. rewrite wsub_small by lia.
    destruct (IH bids' (l + 1) (h - 1) h l xl' xh')
      as (r & out & tr3 & H1 & H2 & Hr & Hex & Hle & Hge & Htr3); try lia.
    + rewrite Hat. unfold transp. destruct (N.eqb_spec h l); [lia|].
      rewrite N.eqb_refl. exact Hxl'.
    + exact Hgel'.
    + rewrite Hat. unfold transp. rewrite N.eqb_refl. exact Hxh'.
    + exact Hleh'.
    + intros k x Hk Hx. rewrite Hat in Hx. unfold transp in Hx.
      destruct (N.eqb_spec k l) as [->|Hkl].
      * replace x with xh' by congruence. exact Hleh'.
      * destruct (N.eqb_spec k h); [lia|].
        destruct (N.lt_ge_cases k low) as [Hk1|Hk1].
        -- apply (Hleft k); auto. lia.
        -- apply (Hbelow k); auto. lia.
    + intros k x Hk Hx. rewrite Hat in Hx. unfold transp in Hx.
      destruct (N.eqb_spec k l); [lia|].
      destruct (N.eqb_spec k h) as [->|Hkh].
      * replace x with xl' by congruence. exact Hgel'.
      * destruct (N.le_gt_cases k high) as [Hk1|Hk1].
        -- apply (Habove k); auto. lia.
        -- apply (Hright k); auto. lia.
    + rewrite H1, H2. cbn [mbind option_bind].
      exists r, out, (tr1 ++ tr2 ++ Swap l h :: tr3).
      repeat split; auto; try lia.
      * eapply exch_step; [| |exact Hsw|exact Hex]; lia.
      * rewrite app_assoc. apply Forall_app. split; [exact Htr12|].
        constructor; [simpl; lia|exact Htr3].
Qed.

End Partition.

(** [partition] on a range of at least two elements: both engines return
    the same split point [r] and vector; [r] is inside the range and below
    its end, the elements up to [r] are at most the pivot and the others at
    least the pivot, and the cursors never leave the range. *)
Lemma partition_spec (bids : vector) (begin end_ : N) :
  begin < end_ -> end_ < vsize bids -> vsize bids < SIZE_MOD ->
  exists r out tr pivot,
    BidSorter.partition bids begin end_ = Some (r, out, tr) /\
    Original.partition bids begin end_ = Some (r, out, tr) /\
    begin <= r < end_ /\ exch begin end_ bids out /\
    (forall k x, begin <= k <= r -> at_ out k = Some x -> le_pivot pivot x) /\
    (forall k x, r < k <= end_ -> at_ out k = Some x -> ge_pivot pivot x) /\
    Forall (within begin end_) tr.
Proof.
  intros Hbe Hend Hmod.
  unfold BidSorter.partition, Original.partition.
  destruct (N.leb_spec end_ begin); [lia|].
  rewrite middle_small by lia.
  pose proof (middle_bounds begin end_ Hbe) as Hmid.
  set (m := begin + (end_ - begin) / 2) in *.
  destruct (at_is_Some bids m) as [xm Hxm]; [lia|].
  rewrite Hxm. cbn [mbind option_bind].
  destruct (partition_loop_spec (title xm) begin end_ Hbe (S (length bids)) bids
              begin end_ m m xm xm)
    as (r & out & tr & H1 & H2 & Hr & Hex & Hle & Hge & Htr); auto; try lia.
  - apply StrOrd.ltb_irrefl.
  - apply StrOrd.ltb_irrefl.
  - unfold vsize in *. lia.
  - rewrite H1, H2. cbn [mbind option_bind].
    exists r, out, (Read m :: tr), (title xm). repeat split; auto; try lia.
    constructor; [simpl; lia|exact Htr].
Qed.

(** ** Quick sort *)

Lemma quickSort_rec_spec :
  forall fuel bids begin end_,
    begin <= end_ -> end_ < vsize bids -> vsize bids < SIZE_MOD ->
    (N.to_nat (end_ - begin) <= fuel)%nat ->
    exists out,
      BidSorter.quickSort_rec fuel bids begin end_ = Some out /\
      Original.quickSort_rec fuel bids begin end_ = Some out /\
      exch begin end_ bids out /\ sorted_range out begin end_.
Proof.
  induction fuel as [|fuel IH]; intros bids begin end_ Hbe Hend Hmod Hfuel.
  - assert (end_ = begin) as -> by lia. exists bids. simpl.
    destruct (N.leb_spec begin begin); [|lia]. rewrite orb_true_r.
    repeat split; auto; [constructor|]. intros p q x y. lia.
  - cbn [BidSorter.quickSort_rec Original.quickSort_rec].
    destruct (N.eqb_spec (vsize bids) 0) as [|_]; [lia|]. cbn [orb].
    destruct (N.leb_spec end_ begin) as [Heb|Hlt].
    + exists bids. repeat split; auto; [constructor|]. intros p q x y. lia.
    + destruct (partition_spec bids begin end_ Hlt Hend Hmod)
        as (r & b1 & tr & pivot & H1 & H2 & Hr & Hex1 & Hle & Hge & _).
      rewrite H1, H2. cbn [mbind option_bind].
      pose proof (exch_vsize _ _ _ _ Hex1) as Hsz1.
      destruct (IH b1 begin r) as (b2 & Hq1 & Hq1' & Hex2 & Hs2); try lia.
      assert (Hleft : (if begin <? r then BidSorter.quickSort_rec fuel b1 begin r
                       else Some b1) = Some b2).
      { destruct (N.ltb_spec begin r) as [|Hge']; [exact Hq1|].
        assert (r = begin) as -> by lia.
        destruct fuel; simpl in Hq1';
          destruct (N.leb_spec begin begin); try lia; congruence. }
      rewrite Hleft, Hq1'. cbn [mbind option_bind].
      pose proof (exch_vsize _ _ _ _ Hex2) as Hsz2.
      rewrite wadd_small by lia.
      destruct (IH b2 (r + 1) end_) as (b3 & Hq2 & Hq2' & Hex3 & Hs3); try lia.
      destruct (N.ltb_spec r end_); [|lia].
      exists b3. split; [exact Hq2|]. split; [exact Hq2'|]. split.
      * eapply exch_trans; [exact Hex1|]. eapply exch_trans.
        -- eapply exch_weaken; [| |exact Hex2]; lia.
        -- eapply exch_weaken; [| |exact Hex3]; lia.
      * assert (Hle3 : forall k x, begin <= k <= r -> at_ b3 k = Some x -> le_pivot pivot x).
        { intros k x Hk Hx. rewrite (exch_outside _ _ _ _ k Hex3) in Hx by lia.
          revert k x Hk Hx. eapply exch_inside; [| |exact Hex2|exact Hle]; lia. }
        assert (Hge3 : forall k x, r + 1 <= k <= end_ -> at_ b3 k = Some x -> ge_pivot pivot x).
        { eapply exch_inside; [| |exact Hex3|]; try lia.
          intros k x Hk Hx. rewrite (exch_outside _ _ _ _ k Hex2) in Hx by lia.
          apply (Hge k); auto. lia. }
        intros p q x y Hp Hpq Hq Hx Hy.
        destruct (N.le_gt_cases q r) as [Hqr|Hqr].
        -- rewrite (exch_outside _ _ _ _ p Hex3) in Hx by lia.
           rewrite (exch_outside _ _ _ _ q Hex3) in Hy by lia.
           apply (Hs2 p q); auto.
        -- destruct (N.le_gt_cases p r) as [Hpr|Hpr].
           ++ unfold tle. eapply StrOrd.nlt_trans.
              ** apply (Hle3 p); auto.
              ** apply (Hge3 q); auto. lia.
           ++ apply (Hs3 p q); auto. lia.
Qed.

(** ** Merging *)

Global Instance tle_dec x y : Decision (tle x y).
Proof. unfold tle. apply _. Defined.

Global Instance tle_Total : Total tle.
Proof. intros x y. apply tle_total. Qed.

Global Instance tle_Transitive : Transitive tle.
Proof. intros x y z. apply tle_trans. Qed.

Lemma with_title_app t l1 l2 :
  with_title t (l1 ++ l2) = with_title t l1 ++ with_title t l2.
Proof. apply filter_app. Qed.

Lemma with_title_none t (l : vector) :
  Forall (fun z => title z <> t) l -> with_title t l = [].
Proof.
  induction 1 as [|z l Hz _ IH]; [reflexivity|].
  unfold with_title in *. rewrite filter_cons_False by exact Hz. exact IH.
Qed.

Lemma list_merge_sorted_app (l1 l2 : vector) :
  StronglySorted tle (l1 ++ l2) -> list_merge tle l1 l2 = l1 ++ l2.
Proof.
  induction l1 as [|x l1 IH]; intros Hs; [apply list_merge_nil_l|].
  destruct l2 as [|y l2]; [rewrite list_merge_nil_r, app_nil_r; reflexivity|].
  rewrite list_merge_cons. simpl in Hs. apply StronglySorted_inv in Hs as [Hs Hx].
  rewrite decide_True.
  - rewrite IH by exact Hs. reflexivity.
  - rewrite Forall_forall in Hx. apply Hx. apply elem_of_app. right. left.
Qed.

(** A tie is resolved to the left run, so the records of one title keep
    their order. *)
Lemma list_merge_with_title t (l1 l2 : vector) :
  StronglySorted tle l1 ->
  with_title t (list_merge tle l1 l2) = with_title t l1 ++ with_title t l2.
Proof.
  intros Hs. revert l2. induction Hs as [|x l1 Hs IH Hx]; intros l2;
    [rewrite list_merge_nil_l; reflexivity|].
  induction l2 as [|y l2 IH2]; [rewrite list_merge_nil_r, app_nil_r; reflexivity|].
  rewrite list_merge_cons. destruct (decide (tle x y)) as [Hxy|Hxy].
  - unfold with_title in *. rewrite !filter_cons.
    destruct (decide (title x = t)); rewrite IH; reflexivity.
  - unfold with_title in *. rewrite (filter_cons _ y), (filter_cons _ y l2), IH2.
    destruct (decide (title y = t)) as [Hy|Hy]; [|reflexivity].
    assert (Hnone : filter (fun z => title z = t) (x :: l1) = []).
    { apply (with_title_none t (x :: l1)). constructor.
      - intros Hxt. apply Hxy. unfold tle. rewrite Hxt, <- Hy. apply StrOrd.ltb_irrefl.
      - eapply Forall_impl; [exact Hx|]. intros z Hxz Hzt. apply Hxy.
        unfold tle in *. rewrite <- Hy in Hzt. rewrite <- Hzt. exact Hxz. }
    rewrite Hnone. reflexivity.
Qed.

Section MergeLoops.

Import BidSorter.

Lemma assign_middle (front post : vector) z x k :
  k = N.of_nat (length front) ->
  assign (front ++ z :: post) k x = Some (front ++ x :: post).
Proof.
  intros ->. unfold assign, vsize. rewrite length_app. simpl.
  destruct (N.ltb_spec (N.of_nat (length front))
              (N.of_nat (length front + S (length post)))); [|lia].
  f_equal. rewrite Nat2N.id.
  replace (length front) with (length front + 0)%nat at 1 by lia.
  rewrite insert_app_r. reflexivity.
Qed.

Lemma at_middle (done rest : vector) x i :
  i = N.of_nat (length done) -> at_ (done ++ x :: rest) i = Some x.
Proof.
  intros ->. unfold at_. rewrite Nat2N.id. apply list_lookup_middle. reflexivity.
Qed.

Lemma merge_rest_done fuel (bids buffer : vector) i k :
  vsize buffer <= i -> merge_rest fuel bids buffer i k = Some (bids, k).
Proof.
  intros H. destruct fuel; simpl; destruct (N.ltb_spec i (vsize buffer));
    try lia; reflexivity.
Qed.

Lemma merge_both_done fuel (bids L R : vector) i j k :
  vsize L <= i \/ vsize R <= j ->
  merge_both fuel bids L R i j k = Some (bids, i, j, k).
Proof.
  intros H. destruct fuel; simpl;
    destruct (N.ltb_spec i (vsize L)), (N.ltb_spec j (vsize R));
    try lia; reflexivity.
Qed.

Lemma merge_rest_spec :
  forall rest fuel done front scratch post i k,
    i = N.of_nat (length done) -> k = N.of_nat (length front) ->
    length scratch = length rest ->
    vsize (done ++ rest) < SIZE_MOD ->
    vsize (front ++ scratch ++ post) < SIZE_MOD ->
    (length rest <= fuel)%nat ->
    merge_rest fuel (front ++ scratch ++ post) (done ++ rest) i k =
      Some (front ++ rest ++ post, k + N.of_nat (length rest)).
Proof.
  induction rest as [|x rest IH];
    intros fuel done front scratch post i k Hi Hk Hlen Hb Hv Hfuel.
  - destruct scratch; [|discriminate]. rewrite merge_rest_done.
    + simpl. f_equal. f_equal. lia.
    + unfold vsize. rewrite length_app. simpl. lia.
  - destruct scratch as [|z scratch]; [discriminate|].
    destruct fuel as [|fuel]; [simpl in Hfuel; lia|].
    unfold vsize in Hb, Hv. rewrite !length_app in Hb, Hv. simpl in *.
    rewrite length_app in Hv.
    destruct (N.ltb_spec i (vsize (done ++ x :: rest))) as [_|Hge];
      [|unfold vsize in Hge; rewrite length_app in Hge; simpl in Hge; lia].
    rewrite (at_middle done rest x i Hi). simpl.
    rewrite (assign_middle front (scratch ++ post) z x k Hk). simpl.
    rewrite !wadd_small by lia.
    replace (front ++ x :: scratch ++ post) with ((front ++ [x]) ++ scratch ++ post)
      by (rewrite <- app_assoc; reflexivity).
    replace (done ++ x :: rest) with ((done ++ [x]) ++ rest)
      by (rewrite <- app_assoc; reflexivity).
    rewrite (IH fuel (done ++ [x]) (front ++ [x]) scratch post (i + 1) (k + 1)).
    + rewrite <- app_assoc. simpl. f_equal. f_equal. lia.
    + rewrite length_app. simpl. lia.
    + rewrite length_app. simpl. lia.
    + lia.
    + unfold vsize. rewrite !length_app. simpl. lia.
    + unfold vsize. rewrite !length_app. simpl. lia.
    + lia.
Qed.

(** The three loops of [merge] leave the merge of the two buffers. *)
Lemma merge_loops_spec :
  forall fuel Lrest Rrest Ldone Rdone front scratch post i j k fuel',
    i = N.of_nat (length Ldone) -> j = N.of_nat (length Rdone) ->
    k = N.of_nat (length front) ->
    length scratch = (length Lrest + length Rrest)%nat ->
    vsize (Ldone ++ Lrest) < SIZE_MOD -> vsize (Rdone ++ Rrest) < SIZE_MOD ->
    vsize (front ++ scratch ++ post) < SIZE_MOD ->
    (length Lrest + length Rrest <= fuel)%nat ->
    (length Lrest + length Rrest <= fuel')%nat ->
    exists b i' j' k' b' k'' kf,
      merge_both fuel (front ++ scratch ++ post) (Ldone ++ Lrest) (Rdone ++ Rrest) i j k
        = Some (b, i', j', k') /\
      merge_rest fuel' b (Ldone ++ Lrest) i' k' = Some (b', k'') /\
      merge_rest fuel' b' (Rdone ++ Rrest) j' k''
        = Some (front ++ list_merge tle Lrest Rrest ++ post, kf).
Proof.
  induction fuel as [|fuel IH];
    intros Lrest Rrest Ldone Rdone front scratch post i j k fuel'
           Hi Hj Hk Hlen HL HR Hv Hfuel Hfuel'.
  - destruct Lrest, Rrest; simpl in Hfuel; try lia.
    destruct scratch; [|discriminate].
    exists (front ++ [] ++ post), i, j, k, (front ++ [] ++ post), k, k.
    rewrite merge_both_done, !merge_rest_done; auto;
      unfold vsize; rewrite ?length_app; simpl; lia.
  - destruct Lrest as [|x Lrest].
    { exists (front ++ scratch ++ post), i, j, k, (front ++ scratch ++ post), k.
      eexists. rewrite merge_both_done, merge_rest_done;
        try (unfold vsize; rewrite ?length_app; simpl; lia).
      rewrite list_merge_nil_l. split; [reflexivity|]. split; [reflexivity|].
      apply merge_rest_spec; auto; simpl in *; lia. }
    destruct Rrest as [|y Rrest].
    { exists (front ++ scratch ++ post), i, j, k. eexists. eexists. eexists.
      rewrite merge_both_done by (unfold vsize; rewrite ?length_app; simpl; lia).
      rewrite list_merge_nil_r. split; [reflexivity|]. split.
      - apply merge_rest_spec; auto; simpl in *; lia.
      - apply merge_rest_done. unfold vsize. rewrite ?length_app. simpl. lia. }
    destruct scratch as [|z scratch]; [discriminate|].
    pose proof HL as HL'. pose proof HR as HR'. pose proof Hv as Hv'.
    unfold vsize in HL', HR', Hv'. rewrite !length_app in HL', HR', Hv'.
    simpl in HL', HR', Hv', Hlen, Hfuel, Hfuel'. rewrite length_app in Hv'.
    cbn [merge_both].
    destruct (N.ltb_spec i (vsize (Ldone ++ x :: Lrest))) as [_|Hge];
      [|unfold vsize in Hge; rewrite length_app in Hge; simpl in Hge; lia].
    destruct (N.ltb_spec j (vsize (Rdone ++ y :: Rrest))) as [_|Hge];
      [|unfold vsize in Hge; rewrite length_app in Hge; simpl in Hge; lia].
    cbn [andb].
    rewrite (at_middle Ldone Lrest x i Hi), (at_middle Rdone Rrest y j Hj).
    cbn [mbind option_bind]. rewrite list_merge_cons.
    rewrite !wadd_small by lia.
    destruct (title_le x y) eqn:Hxy.
    + rewrite decide_True by (apply tle_title_le; exact Hxy).
      change ((z :: scratch) ++ post) with (z :: scratch ++ post).
      rewrite (assign_middle front (scratch ++ post) z x k Hk). cbn [mbind option_bind].
      replace (front ++ x :: scratch ++ post) with ((front ++ [x]) ++ scratch ++ post)
        by (rewrite <- app_assoc; reflexivity).
      replace (Ldone ++ x :: Lrest) with ((Ldone ++ [x]) ++ Lrest)
        by (rewrite <- app_assoc; reflexivity).
      destruct (IH Lrest (y :: Rrest) (Ldone ++ [x]) Rdone (front ++ [x]) scratch post
                  (i + 1) j (k + 1) fuel')
        as (b & i' & j' & k' & b' & k'' & kf & H1 & H2 & H3);
        try (rewrite ?length_app; simpl; lia);
        try (unfold vsize; rewrite ?length_app; simpl; lia); auto.
      exists b, i', j', k', b', k'', kf. split; [exact H1|]. split; [exact H2|].
      rewrite H3. rewrite <- app_assoc. reflexivity.
    + rewrite decide_False by (rewrite tle_title_le; congruence).
      change ((z :: scratch) ++ post) with (z :: scratch ++ post).
      rewrite (assign_middle front (scratch ++ post) z y k Hk). cbn [mbind option_bind].
      replace (front ++ y :: scratch ++ post) with ((front ++ [y]) ++ scratch ++ post)
        by (rewrite <- app_assoc; reflexivity).
      replace (Rdone ++ y :: Rrest) with ((Rdone ++ [y]) ++ Rrest)
        by (rewrite <- app_assoc; reflexivity).
      destruct (IH (x :: Lrest) Rrest Ldone (Rdone ++ [y]) (front ++ [y]) scratch post
                  i (j + 1) (k + 1) fuel')
        as (b & i' & j' & k' & b' & k'' & kf & H1 & H2 & H3);
        try (rewrite ?length_app; simpl; lia);
        try (unfold vsize; rewrite ?length_app; simpl; lia); auto.
      exists b, i', j', k', b', k'', kf. split; [exact H1|]. split; [exact H2|].
      rewrite H3. rewrite <- app_assoc. reflexivity.
Qed.

Lemma merge_spec (pre s1 s2 post : vector) (left mid right : N) :
  left = N.of_nat (length pre) ->
  mid + 1 = left + N.of_nat (length s1) ->
  right + 1 = mid + 1 + N.of_nat (length s2) ->
  vsize (pre ++ s1 ++ s2 ++ post) < SIZE_MOD ->
  merge (pre ++ s1 ++ s2 ++ post) left mid right =
    Some (pre ++ list_merge tle s1 s2 ++ post).
Proof.
  intros Hl Hm Hr Hv. unfold merge, slice.
  pose proof Hv as Hv'. unfold vsize in Hv'. rewrite !length_app in Hv'.
  set (bids := pre ++ s1 ++ s2 ++ post).
  assert (Hsz : vsize bids = left + N.of_nat (length s1) + N.of_nat (length s2)
                             + N.of_nat (length post)).
  { unfold bids, vsize. rewrite !length_app. lia. }
  destruct (N.leb_spec left (mid + 1)); [|lia].
  destruct (N.leb_spec (mid + 1) (vsize bids)); [|lia]. cbn [andb mbind option_bind].
  destruct (N.leb_spec (mid + 1) (right + 1)); [|lia].
  destruct (N.leb_spec (right + 1) (vsize bids)); [|lia]. cbn [andb mbind option_bind].
  assert (Hs1 : take (N.to_nat (mid + 1 - left)) (drop (N.to_nat left) bids) = s1).
  { unfold bids. rewrite drop_app_length' by lia. apply take_app_length'. lia. }
  assert (Hs2 : take (N.to_nat (right + 1 - (mid + 1))) (drop (N.to_nat (mid + 1)) bids) = s2).
  { unfold bids. rewrite (app_assoc pre s1).
    rewrite drop_app_length' by (rewrite length_app; lia).
    apply take_app_length'. lia. }
  rewrite Hs1, Hs2.
  destruct (merge_loops_spec (S (length bids)) s1 s2 [] [] pre (s1 ++ s2) post
              0 0 left (S (length bids)))
    as (b & i' & j' & k' & b' & k'' & kf & E1 & E2 & E3); auto.
  - apply length_app.
  - simpl. unfold vsize. lia.
  - simpl. unfold vsize. lia.
  - rewrite <- app_assoc. exact Hv.
  - unfold bids. rewrite !length_app. lia.
  - unfold bids. rewrite !length_app. lia.
  - change ([] ++ s1) with s1 in *. change ([] ++ s2) with s2 in *.
    rewrite <- app_assoc in E1. fold bids in E1.
    rewrite E1. cbn [mbind option_bind]. rewrite E2. cbn [mbind option_bind].
    rewrite E3. reflexivity.
Qed.

End MergeLoops.

(** ** Merge sort *)

Lemma StronglySorted_ascending (l : vector) : StronglySorted tle l <-> ascending l.
Proof.
  split.
  - induction 1 as [|x l Hs IH Hx]; intros i j a b Hij Ha Hb; [discriminate|].
    destruct j as [|j]; [lia|]. simpl in Hb. destruct i as [|i]; simpl in Ha.
    + injection Ha as <-. apply (tle_title_le x b).
      rewrite Forall_forall in Hx. apply Hx. eapply list_elem_of_lookup_2; eauto.
    + apply (IH i j); auto. lia.
  - induction l as [|x l IH]; intros H; constructor.
    + apply IH. intros i j a b Hij Ha Hb. apply (H (S i) (S j)); auto. lia.
    + apply Forall_forall. intros y Hy. apply list_elem_of_lookup_1 in Hy as [j Hj].
      apply tle_title_le. apply (H 0%nat (S j)); auto. lia.
Qed.

Lemma stable_sorted_merge (seg1 seg2 s1 s2 : vector) :
  stable_sorted seg1 s1 -> stable_sorted seg2 s2 ->
  stable_sorted (seg1 ++ seg2) (list_merge tle s1 s2).
Proof.
  intros (Hp1 & Hs1 & Ht1 & Hi1) (Hp2 & Hs2 & Ht2 & Hi2). repeat split.
  - rewrite merge_Permutation, Hp1, Hp2. reflexivity.
  - apply Sorted_StronglySorted; [apply _|].
    apply Sorted_list_merge; [apply _| |]; apply StronglySorted_Sorted; assumption.
  - intros t. rewrite list_merge_with_title by exact Hs1.
    rewrite with_title_app, Ht1, Ht2. reflexivity.
  - intros Hs. rewrite Hi1, Hi2.
    + apply list_merge_sorted_app. exact Hs.
    + eapply StronglySorted_app_1_r; eauto.
    + eapply StronglySorted_app_1_l; eauto.
Qed.

Lemma stable_sorted_small (seg : vector) :
  (length seg <= 1)%nat -> stable_sorted seg seg.
Proof.
  intros H. repeat split; auto.
  destruct seg as [|x [|y seg]]; simpl in H; try lia; repeat constructor.
Qed.

Lemma mergeSort_rec_done fuel (bids : vector) left right :
  right <= left -> BidSorter.mergeSort_rec fuel bids left right = Some bids.
Proof.
  intros H. destruct fuel; simpl; destruct (N.leb_spec right left); try lia;
    rewrite orb_true_r; reflexivity.
Qed.

Lemma mergeSort_rec_spec :
  forall fuel pre seg post left right,
    left = N.of_nat (length pre) ->
    right + 1 = left + N.of_nat (length seg) ->
    vsize (pre ++ seg ++ post) < SIZE_MOD ->
    (length seg <= S fuel)%nat ->
    exists s,
      BidSorter.mergeSort_rec fuel (pre ++ seg ++ post) left right
        = Some (pre ++ s ++ post) /\
      stable_sorted seg s.
Proof.
  induction fuel as [|fuel IH]; intros pre seg post left right Hl Hr Hv Hfuel.
  - exists seg. rewrite mergeSort_rec_done by lia.
    split; [reflexivity|apply stable_sorted_small; lia].
  - destruct (N.le_gt_cases right left) as [Hle|Hlt].
    + exists seg. rewrite mergeSort_rec_done by lia.
      split; [reflexivity|apply stable_sorted_small; lia].
    + pose proof Hv as Hv'. unfold vsize in Hv'. rewrite !length_app in Hv'.
      cbn [BidSorter.mergeSort_rec].
      destruct (N.eqb_spec (vsize (pre ++ seg ++ post)) 0) as [Hz|_];
        [unfold vsize in Hz; rewrite !length_app in Hz; lia|].
      destruct (N.leb_spec right left); [lia|]. cbn [orb].
      rewrite middle_small by lia.
      set (mid := left + (right - left) / 2).
      assert (Hmid : left <= mid < right) by (unfold mid; lia).
      set (n1 := N.to_nat (mid + 1 - left)).
      pose proof (take_drop n1 seg) as Hsplit.
      assert (Hlen1 : length (take n1 seg) = n1) by (rewrite length_take; lia).
      assert (Hlen2 : length (drop n1 seg) = (length seg - n1)%nat) by apply length_drop.
      remember (take n1 seg) as seg1 eqn:E1. remember (drop n1 seg) as seg2 eqn:E2.
      clear E1 E2. subst seg. rewrite length_app in Hr, Hfuel, Hv', Hlen2.
      destruct (IH pre seg1 (seg2 ++ post) left mid) as (s1 & Hm1 & Hst1); try lia.
      { unfold vsize. rewrite !length_app. lia. }
      assert (Hl1 : length s1 = length seg1).
      { destruct Hst1 as (Hp & _). apply Permutation_length. exact Hp. }
      rewrite <- (app_assoc seg1 seg2 post). rewrite Hm1. cbn [mbind option_bind].
      rewrite wadd_small by lia.
      destruct (IH (pre ++ s1) seg2 post (mid + 1) right) as (s2 & Hm2 & Hst2);
        try (rewrite ?length_app; lia).
      { unfold vsize. rewrite !length_app. lia. }
      assert (Hl2 : length s2 = length seg2).
      { destruct Hst2 as (Hp & _). apply Permutation_length. exact Hp. }
      rewrite <- (app_assoc pre s1) in Hm2. rewrite Hm2. cbn [mbind option_bind].
      rewrite <- (app_assoc pre s1 (s2 ++ post)).
      rewrite merge_spec; try lia.
      * exists (list_merge tle s1 s2). split; [reflexivity|].
        apply stable_sorted_merge; assumption.
      * unfold vsize. rewrite !length_app. lia.
Qed.

Lemma mergeSort_spec (bids : vector) :
  vsize bids < SIZE_MOD ->
  exists out,
    BidSorter.mergeSort bids 0 (wsub (vsize bids) 1) = Some out /\
    stable_sorted bids out.
Proof.
  intros Hv. unfold BidSorter.mergeSort. destruct bids as [|x bids].
  - exists []. split; [reflexivity|]. repeat split; auto. constructor.
  - rewrite wsub_small by (unfold vsize in *; simpl in *; lia).
    destruct (mergeSort_rec_spec (length (x :: bids)) [] (x :: bids) [] 0
                (vsize (x :: bids) - 1)) as (s & Hs & Hst); auto.
    + unfold vsize. simpl. lia.
    + rewrite app_nil_r. exact Hv.
    + simpl in Hs. rewrite !app_nil_r in Hs. exists s. split; assumption.
Qed.

(** ** Heap sort *)

Section HeapSort.

Import BidSorter.

Lemma title_gt_tle x y : title_gt x y = true -> tle y x.
Proof. unfold title_gt, tle. apply StrOrd.ltb_asym. Qed.

Lemma title_gt_false_tle x y : title_gt x y = false -> tle x y.
Proof. unfold title_gt, tle. auto. Qed.

(** One round of [heapifyRecursive]: the position [l] of the largest of
    [i] and its children below [n], and what happens next. *)
Lemma heapify_step fuel (bids : vector) (n i : N) xi :
  n <= vsize bids -> i < n -> 2 * i + 2 < SIZE_MOD -> at_ bids i = Some xi ->
  exists l xl,
    at_ bids l = Some xl /\
    (l = i \/ ((l = 2 * i + 1 \/ l = 2 * i + 2) /\ l < n)) /\
    tle xi xl /\
    (forall c xc, c = 2 * i + 1 \/ c = 2 * i + 2 -> c < n ->
                  at_ bids c = Some xc -> tle xc xl) /\
    heapifyRecursive (S fuel) bids n i =
      (if l =? i then Some bids
       else swap bids i l ≫= fun bids' => heapifyRecursive fuel bids' n l).
Proof.
  intros Hn Hi Hmod Hxi. cbn [heapifyRecursive].
  rewrite (wmul_small 2 i) by lia. rewrite !wadd_small by lia.
  assert (Hkid : forall (P : Bid -> Prop) a b xa xb,
             at_ bids a = Some xa -> at_ bids b = Some xb ->
             (a < n -> P xa) -> (b < n -> P xb) ->
             forall c xc, c = a \/ c = b -> c < n -> at_ bids c = Some xc -> P xc).
  { intros P a b xa xb Ha Hb HPa HPb c xc [->| ->] Hc Hxc.
    - replace xc with xa by congruence. auto.
    - replace xc with xb by congruence. auto. }
  destruct (N.ltb_spec (2 * i + 1) n) as [Hl|Hl].
  - destruct (at_is_Some bids (2 * i + 1)) as [xl Hxl]; [lia|].
    rewrite Hxl, Hxi. cbn [mbind option_bind].
    destruct (N.ltb_spec (2 * i + 2) n) as [Hr|Hr].
    + destruct (at_is_Some bids (2 * i + 2)) as [xr Hxr]; [lia|].
      rewrite Hxr. cbn [mbind option_bind].
      destruct (title_gt xl xi) eqn:Hli.
      * rewrite Hxl. cbn [mbind option_bind].
        destruct (title_gt xr xl) eqn:Hrl.
        -- exists (2 * i + 2), xr.
           split; [exact Hxr|]. split; [lia|].
           split; [eapply tle_trans; eauto using title_gt_tle|].
           split; [|reflexivity].
           apply (Hkid (fun x => tle x xr) _ _ xl xr); auto using title_gt_tle, tle_refl.
        -- exists (2 * i + 1), xl.
           split; [exact Hxl|]. split; [lia|].
           split; [auto using title_gt_tle|].
           split; [|reflexivity].
           apply (Hkid (fun x => tle x xl) _ _ xl xr);
             auto using title_gt_false_tle, tle_refl.
      * rewrite Hxi. cbn [mbind option_bind].
        destruct (title_gt xr xi) eqn:Hri.
        -- exists (2 * i + 2), xr.
           split; [exact Hxr|]. split; [lia|].
           split; [auto using title_gt_tle|].
           split; [|reflexivity].
           apply (Hkid (fun x => tle x xr) _ _ xl xr); auto using tle_refl.
           intros _. eapply tle_trans; eauto using title_gt_tle, title_gt_false_tle.
        -- exists i, xi. rewrite N.eqb_refl.
           split; [exact Hxi|]. split; [lia|].
           split; [apply tle_refl|].
           split; [|reflexivity].
           apply (Hkid (fun x => tle x xi) _ _ xl xr); auto using title_gt_false_tle.
    + destruct (title_gt xl xi) eqn:Hli; cbn [mbind option_bind].
      * exists (2 * i + 1), xl.
        split; [exact Hxl|]. split; [lia|].
        split; [auto using title_gt_tle|].
        split; [|reflexivity].
        intros c xc [->| ->] Hc Hxc; [|lia].
        replace xc with xl by congruence. apply tle_refl.
      * exists i, xi. rewrite N.eqb_refl.
        split; [exact Hxi|]. split; [lia|].
        split; [apply tle_refl|].
        split; [|reflexivity].
        intros c xc [->| ->] Hc Hxc; [|lia].
        replace xc with xl by congruence. auto using title_gt_false_tle.
  - cbn [mbind option_bind].
    destruct (N.ltb_spec (2 * i + 2) n) as [Hr|Hr]; [lia|].
    cbn [mbind option_bind].
    exists i, xi. rewrite N.eqb_refl.
    split; [exact Hxi|]. split; [lia|].
    split; [apply tle_refl|].
    split; [|reflexivity].
    intros c xc [->| ->] Hc Hxc; lia.
Qed.

Lemma heapify_spec (n : N) :
  2 * n < SIZE_MOD ->
  forall fuel bids i,
    n <= vsize bids -> i < n -> (N.to_nat (n - i) <= fuel)%nat ->
    exists out,
      heapifyRecursive fuel bids n i = Some out /\
      exch i (n - 1) bids out /\
      (forall lo, lo <= i -> heap_except bids n lo i -> heap_ok out n lo).
Proof.
  intros Hmod. induction fuel as [|fuel IH]; intros bids i Hn Hi Hfuel; [lia|].
  destruct (at_is_Some bids i) as [xi Hxi]; [lia|].
  destruct (heapify_step fuel bids n i xi Hn Hi ltac:(lia) Hxi)
    as (l & xl & Hxl & Hl & Hil & Hmax & Hstep).
  rewrite Hstep. destruct (N.eqb_spec l i) as [->|Hne].
  - exists bids. split; [reflexivity|]. split; [constructor|].
    intros lo Hlo [H1 H2] p c xp xc Hp Hc Hpc Hxp Hxc.
    destruct (N.eq_dec p i) as [->|Hpi].
    + replace xp with xl by congruence. apply (Hmax c); auto.
    + apply (H1 p c); auto.
  - destruct Hl as [|[Hl Hln]]; [contradiction|].
    destruct (swap_is_Some bids i l) as [bids' Hsw]; [lia|lia|].
    rewrite Hsw. cbn [mbind option_bind].
    pose proof (swap_vsize _ _ _ _ Hsw) as Hsz.
    pose proof (swap_spec _ _ _ _ Hsw) as (_ & _ & _ & _ & Hat).
    destruct (IH bids' l) as (out & Hout & Hex & Hheap); try lia.
    exists out. split; [exact Hout|]. split.
    + eapply exch_step; [| |exact Hsw|]; [lia|lia|].
      eapply exch_weaken; [| |exact Hex]; lia.
    + intros lo Hlo [H1 H2]. apply Hheap; [lia|]. split.
      * intros p c xp xc Hp Hpl Hc Hpc Hxp Hxc. rewrite Hat in Hxp, Hxc.
        unfold transp in Hxp, Hxc.
        destruct (N.eqb_spec p i) as [->|Hpi].
        -- replace xp with xl by congruence.
           destruct (N.eqb_spec c i); [lia|].
           destruct (N.eqb_spec c l) as [->|Hcl].
           ++ replace xc with xi by congruence. exact Hil.
           ++ apply (Hmax c); auto.
        -- destruct (N.eqb_spec p l); [contradiction|].
           destruct (N.eqb_spec c i) as [->|Hci].
           ++ apply (H2 p l); auto; lia.
           ++ destruct (N.eqb_spec c l) as [->|Hcl]; [lia|].
              apply (H1 p c); auto.
      * intros p c xp xc Hp Hlp Hc Hcl Hxp Hxc. rewrite Hat in Hxp, Hxc.
        assert (p = i) as -> by lia.
        unfold transp in Hxp, Hxc. rewrite N.eqb_refl in Hxp.
        destruct (N.eqb_spec c i); [lia|]. destruct (N.eqb_spec c l); [lia|].
        replace xp with xl by congruence.
        apply (H1 l c); auto; lia.
Qed.

Lemma heapify_heap (bids : vector) (n i : N) :
  2 * n < SIZE_MOD -> n <= vsize bids -> i < n ->
  exists out,
    heapify bids n i = Some out /\ exch i (n - 1) bids out /\
    (forall lo, lo <= i -> heap_except bids n lo i -> heap_ok out n lo).
Proof.
  intros Hmod Hn Hi. unfold heapify.
  apply heapify_spec; auto. unfold vsize in Hn. lia.
Qed.

Lemma of_int_small (i : Z) :
  (0 <= i < Z.of_N SIZE_MOD)%Z -> of_int i = Z.to_N i.
Proof. intros H. unfold of_int. rewrite Z.mod_small by lia. reflexivity. Qed.

Lemma to_int_le (x : N) : (to_int x <= Z.of_N x)%Z.
Proof.
  unfold to_int, INT_MOD, INT_HALF.
  destruct (Z.ltb_spec (Z.of_N x mod 4294967296) 2147483648); lia.
Qed.

Lemma to_int_small (x : N) : (Z.of_N x < INT_HALF)%Z -> to_int x = Z.of_N x.
Proof.
  unfold to_int, INT_MOD, INT_HALF. intros H.
  destruct (Z.ltb_spec (Z.of_N x mod 4294967296) 2147483648); lia.
Qed.

(** The first loop of [heapSort], counting down from [i]. *)
Lemma build_heap_spec (n : N) :
  2 * n < SIZE_MOD ->
  forall fuel bids (i : Z),
    n <= vsize bids -> (i < Z.of_N n)%Z -> (Z.to_nat (i + 1) <= fuel)%nat ->
    exists out,
      build_heap fuel bids n i = Some out /\
      exch 0 (n - 1) bids out /\
      (heap_ok bids n (Z.to_N (i + 1)) -> heap_ok out n 0).
Proof.
  intros Hmod. induction fuel as [|fuel IH]; intros bids i Hn Hi Hfuel.
  - exists bids. simpl. destruct (Z.leb_spec 0 i); [lia|].
    split; [reflexivity|]. split; [constructor|].
    replace (Z.to_N (i + 1)) with 0 by lia. auto.
  - cbn [build_heap]. destruct (Z.leb_spec 0 i) as [Hpos|Hneg].
    + rewrite of_int_small by (unfold SIZE_MOD in *; lia).
      destruct (heapify_heap bids n (Z.to_N i) Hmod Hn ltac:(lia))
        as (b1 & Hb1 & Hex1 & Hheap1).
      rewrite Hb1. cbn [mbind option_bind].
      pose proof (exch_vsize _ _ _ _ Hex1) as Hsz.
      destruct (IH b1 (i - 1)%Z) as (out & Hout & Hex & Hheap); try lia.
      exists out. split; [exact Hout|]. split.
      * eapply exch_trans; [|exact Hex].
        eapply exch_weaken; [| |exact Hex1]; lia.
      * intros Hh. apply Hheap. replace (Z.to_N (i - 1 + 1)) with (Z.to_N i) by lia.
        apply Hheap1; [lia|]. split.
        -- intros p c xp xc Hp Hpi. apply Hh. lia.
        -- intros p c xp xc Hp Hpar. lia.
    + exists bids. split; [reflexivity|]. split; [constructor|].
      replace (Z.to_N (i + 1)) with 0 by lia. auto.
Qed.

(** In a heap the root is the largest element. *)
Lemma heap_root_max (bids : vector) (m : N) x0 :
  heap_ok bids m 0 -> m <= vsize bids -> at_ bids 0 = Some x0 ->
  forall k xk, k < m -> at_ bids k = Some xk -> tle xk x0.
Proof.
  intros Hh Hm Hx0 k. induction (N.lt_wf_0 k) as [k _ IH]. intros xk Hk Hxk.
  destruct (N.eq_dec k 0) as [->|Hne].
  - replace xk with x0 by congruence. apply tle_refl.
  - set (p := (k - 1) / 2).
    assert (Hp : k = 2 * p + 1 \/ k = 2 * p + 2) by (unfold p; lia).
    destruct (at_is_Some bids p) as [xp Hxp]; [lia|].
    apply (tle_trans _ xp).
    + apply (Hh p k); auto. lia.
    + apply (IH p); auto; lia.
Qed.

(** The second loop of [heapSort], entered with a heap in front of a
    sorted tail of larger elements. *)
Lemma extract_loop_spec :
  forall fuel bids i,
    2 * vsize bids < SIZE_MOD -> i < vsize bids -> (N.to_nat i <= fuel)%nat ->
    exists out,
      extract_loop fuel bids i = Some out /\
      exch 0 i bids out /\
      (heap_ok bids (i + 1) 0 ->
       sorted_range bids (i + 1) (vsize bids - 1) ->
       (forall p q xp xq, p <= i -> i < q ->
          at_ bids p = Some xp -> at_ bids q = Some xq -> tle xp xq) ->
       sorted_range out 0 (vsize bids - 1)).
Proof.
  induction fuel as [|fuel IH]; intros bids i Hmod Hi Hfuel.
  - assert (i = 0) as -> by lia. exists bids. simpl.
    split; [reflexivity|]. split; [constructor|].
    intros _ Hs Hle p q xp xq Hp Hpq Hq Hxp Hxq.
    destruct (N.eq_dec p 0) as [->|Hne]; [apply (Hle 0 q); auto; lia|].
    apply (Hs p q); auto. lia.
  - cbn [extract_loop]. destruct (N.ltb_spec 0 i) as [Hpos|Hz].
    + destruct (swap_is_Some bids 0 i) as [b1 Hsw]; [lia|lia|].
      rewrite Hsw. cbn [mbind option_bind].
      pose proof (swap_vsize _ _ _ _ Hsw) as Hsz1.
      pose proof (swap_spec _ _ _ _ Hsw) as (_ & _ & _ & _ & Hat).
      destruct (heapify_heap b1 i 0) as (b2 & Hhp & Hex2 & Hheap2); try lia.
      rewrite Hhp. cbn [mbind option_bind].
      pose proof (exch_vsize _ _ _ _ Hex2) as Hsz2.
      rewrite wsub_small by lia.
      destruct (IH b2 (i - 1)) as (out & Hout & Hex & Hsorted); try lia.
      exists out. split; [exact Hout|]. split.
      * eapply exch_step; [| |exact Hsw|]; [lia|lia|].
        eapply exch_trans; (eapply exch_weaken; [| |eassumption]; lia).
      * intros Hh Hs Hle. rewrite <- Hsz1, <- Hsz2.
        destruct (at_is_Some bids 0) as [x0 Hx0]; [lia|].
        pose proof (heap_root_max bids (i + 1) x0 Hh ltac:(lia) Hx0) as Hmax.
        assert (Hb1 : forall k, k <> 0 -> k <> i -> at_ b1 k = at_ bids k).
        { intros k Hk0 Hki. rewrite Hat. unfold transp.
          destruct (N.eqb_spec k 0); [lia|]. destruct (N.eqb_spec k i); [lia|].
          reflexivity. }
        assert (Hb1i : at_ b1 i = Some x0).
        { rewrite Hat. unfold transp. destruct (N.eqb_spec i 0); [lia|].
          rewrite N.eqb_refl. exact Hx0. }
        assert (Hb2 : forall k, i <= k -> at_ b2 k = at_ b1 k).
        { intros k Hk. apply (exch_outside _ _ _ _ k Hex2). lia. }
        replace (i - 1 + 1) with i in Hsorted by lia.
        rewrite Hsz2, Hsz1 in Hsorted. rewrite Hsz2, Hsz1. apply Hsorted.
        -- apply Hheap2; [lia|]. split.
           ++ intros p c xp xc _ Hp Hc Hpc Hxp Hxc.
              rewrite Hb1 in Hxp, Hxc by lia. apply (Hh p c); auto; lia.
           ++ intros p c xp xc _ Hpar. lia.
        -- intros p q xp xq Hp Hpq Hq Hxp Hxq.
           rewrite Hb2 in Hxp, Hxq by lia. rewrite Hb1 in Hxq by lia.
           destruct (N.eq_dec p i) as [->|Hpi].
           ++ replace xp with x0 by congruence. apply (Hle 0 q); auto; lia.
           ++ rewrite Hb1 in Hxp by lia. apply (Hs p q); auto. lia.
        -- intros p q xp xq Hp Hq Hxp Hxq. rewrite Hb2 in Hxq by lia.
           revert p xp Hp Hxp.
           assert (Hall : forall k x, 0 <= k <= i - 1 -> at_ b2 k = Some x -> tle x xq).
           { eapply exch_inside; [| |exact Hex2|]; try lia.
             intros k x Hk Hx. rewrite Hat in Hx.
             assert (Hk' : transp 0 i k <= i).
             { unfold transp. destruct (N.eqb_spec k 0); [lia|].
               destruct (N.eqb_spec k i); lia. }
             destruct (N.eq_dec q i) as [->|Hqi].
             - replace xq with x0 by congruence.
               apply (Hmax (transp 0 i k)); auto. lia.
             - rewrite Hb1 in Hxq by lia. apply (Hle (transp 0 i k) q); auto. lia. }
           intros p xp Hp Hxp. apply (Hall p); auto. lia.
    + assert (i = 0) as -> by lia. exists bids.
      split; [reflexivity|]. split; [constructor|].
      intros _ Hs Hle p q xp xq Hp Hpq Hq Hxp Hxq.
      destruct (N.eq_dec p 0) as [->|Hne]; [apply (Hle 0 q); auto; lia|].
      apply (Hs p q); auto. lia.
Qed.

Lemma heapSort_spec (bids : vector) :
  2 * vsize bids < SIZE_MOD ->
  exists out,
    heapSort bids = Some out /\ out ≡ₚ bids /\
    (vsize bids <= HEAP_MAX -> ascending out).
Proof.
  intros Hmod. unfold heapSort. destruct (N.eqb_spec (vsize bids) 0) as [Hz|Hnz].
  - exists bids. split; [reflexivity|]. split; [reflexivity|].
    intros _. destruct bids; [|discriminate]. intros i j x y _ Hx. discriminate.
  - set (n := vsize bids) in *.
    assert (Hw : n = 1 /\ wsub (n / 2) 1 = SIZE_MOD - 1 \/
                 2 <= n /\ wsub (n / 2) 1 = n / 2 - 1).
    { destruct (N.eq_dec n 1) as [->|]; [left; split; reflexivity|].
      right. split; [lia|]. apply wsub_small; lia. }
    destruct (build_heap_spec n Hmod (S (length bids)) bids
                (to_int (wsub (n / 2) 1))) as (b1 & Hb1 & Hex1 & Hheap1).
    + unfold n. lia.
    + destruct Hw as [[-> ->]|[Hn ->]]; [vm_compute; reflexivity|].
      pose proof (to_int_le (n / 2 - 1)). lia.
    + destruct Hw as [[H1 ->]|[Hn ->]]; [vm_compute; lia|].
      pose proof (to_int_le (n / 2 - 1)). unfold n, vsize in *. lia.
    + rewrite Hb1. cbn [mbind option_bind].
      pose proof (exch_vsize _ _ _ _ Hex1) as Hsz1.
      rewrite wsub_small by lia.
      destruct (extract_loop_spec (length b1) b1 (n - 1)) as (out & Hout & Hex & Hsorted);
        try (unfold n, vsize in *; lia).
      exists out. split; [exact Hout|]. split.
      * etrans; [eapply exch_perm; exact Hex|eapply exch_perm; exact Hex1].
      * intros Hmax.
        pose proof (exch_vsize _ _ _ _ Hex) as Hsz.
        apply sorted_range_ascending; [unfold n in *; lia|]. rewrite Hsz.
        replace (n - 1 + 1) with n in Hsorted by lia. apply Hsorted.
        -- apply Hheap1. intros p c xp xc Hp Hc Hpc _ _.
           assert (Z.to_N (to_int (wsub (n / 2) 1) + 1) = n / 2) as Hstart.
           { destruct Hw as [[-> ->]|[Hn ->]]; [vm_compute; reflexivity|].
             rewrite to_int_small; unfold HEAP_MAX, INT_HALF in *; lia. }
           rewrite Hstart in Hp. lia.
        -- intros p q xp xq Hp Hpq Hq Hxp Hxq. apply at_lt in Hxq. lia.
        -- intros p q xp xq Hp Hq Hxp Hxq. apply at_lt in Hxq. lia.
Qed.

End HeapSort.

(** ** The four sorts on a whole vector *)

Lemma max_size_fits (bids : vector) :
  vsize bids <= max_size -> 2 * vsize bids < SIZE_MOD.
Proof. unfold max_size, SIZE_MOD. lia. Qed.

Lemma ascending_nil : ascending [].
Proof. intros i j x y _ Hx. discriminate. Qed.

Lemma quickSort_spec (bids : vector) :
  vsize bids < SIZE_MOD ->
  exists out,
    BidSorter.quickSort bids 0 (wsub (vsize bids) 1) = Some out /\
    out ≡ₚ bids /\ ascending out.
Proof.
  intros Hv. destruct bids as [|x bids].
  - exists []. repeat split; auto. apply ascending_nil.
  - assert (Hpos : 0 < vsize (x :: bids)) by (unfold vsize; simpl; lia).
    rewrite wsub_small by lia.
    destruct (quickSort_rec_spec (length (x :: bids)) (x :: bids) 0 (vsize (x :: bids) - 1))
      as (out & H1 & _ & Hex & Hs); try lia.
    { unfold vsize. lia. }
    exists out. split; [exact H1|].
    split; [eapply exch_perm; exact Hex|].
    apply sorted_range_ascending.
    + rewrite (exch_vsize _ _ _ _ Hex). exact Hpos.
    + rewrite (exch_vsize _ _ _ _ Hex). exact Hs.
Qed.

(** All four sorts return, and return an ascending vector; heap sort as
    long as the [int] counter of its first loop can hold its start
    value. *)
Lemma sorts_ascending (bids : vector) :
  vsize bids <= max_size ->
  (exists out, BidSorter.selectionSort bids = Some out /\ ascending out) /\
  (exists out, BidSorter.quickSort bids 0 (wsub (vsize bids) 1) = Some out /\
               ascending out) /\
  (exists out, BidSorter.mergeSort bids 0 (wsub (vsize bids) 1) = Some out /\
               ascending out) /\
  (vsize bids <= HEAP_MAX ->
   exists out, BidSorter.heapSort bids = Some out /\ ascending out).
Proof.
  intros Hmax. pose proof (max_size_fits bids Hmax) as Hv2.
  assert (Hv : vsize bids < SIZE_MOD) by lia.
  repeat split.
  - destruct (selectionSort_spec bids Hv) as (out & H & _ & Hs & _). eauto.
  - destruct (quickSort_spec bids Hv) as (out & H & _ & Hs). eauto.
  - destruct (mergeSort_spec bids Hv) as (out & H & _ & Hs & _).
    exists out. split; [exact H|]. apply StronglySorted_ascending. exact Hs.
  - intros Hheap. destruct (heapSort_spec bids Hv2) as (out & H & _ & Hs). eauto.
Qed.

Lemma sorts_permutation (bids : vector) :
  vsize bids <= max_size ->
  (exists out, BidSorter.selectionSort bids = Some out /\ out ≡ₚ bids) /\
  (exists out, BidSorter.quickSort bids 0 (wsub (vsize bids) 1) = Some out /\
               out ≡ₚ bids) /\
  (exists out, BidSorter.mergeSort bids 0 (wsub (vsize bids) 1) = Some out /\
               out ≡ₚ bids) /\
  (exists out, BidSorter.heapSort bids = Some out /\ out ≡ₚ bids).
Proof.
  intros Hmax. pose proof (max_size_fits bids Hmax) as Hv2.
  assert (Hv : vsize bids < SIZE_MOD) by lia.
  repeat split.
  - destruct (selectionSort_spec bids Hv) as (out & H & Hp & _). eauto.
  - destruct (quickSort_spec bids Hv) as (out & H & Hp & _). eauto.
  - destruct (mergeSort_spec bids Hv) as (out & H & Hp & _). eauto.
  - destruct (heapSort_spec bids Hv2) as (out & H & Hp & _). eauto.
Qed.

(** ** Relative order of the records of one title *)

Lemma with_title_before t (l : vector) (i j : nat) x y :
  (i < j)%nat -> l !! i = Some x -> l !! j = Some y ->
  title x = t -> title y = t ->
  exists a b c, with_title t l = a ++ x :: b ++ y :: c.
Proof.
  intros Hij Hx Hy Htx Hty.
  pose proof (take_drop_middle l i x Hx) as H1.
  assert (Hy' : drop (S i) l !! (j - S i)%nat = Some y).
  { rewrite lookup_drop. replace (S i + (j - S i))%nat with j by lia. exact Hy. }
  pose proof (take_drop_middle _ _ _ Hy') as H2.
  rewrite <- H1, <- H2. unfold with_title.
  rewrite filter_app, filter_cons_True by exact Htx.
  rewrite filter_app, filter_cons_True by exact Hty.
  eauto.
Qed.

Lemma with_title_split t (l : vector) :
  forall a x rest,
    with_title t l = a ++ x :: rest ->
    exists l1 l2, l = l1 ++ x :: l2 /\ with_title t l1 = a /\ with_title t l2 = rest.
Proof.
  unfold with_title. induction l as [|z l IH]; intros a x rest H.
  - destruct a; discriminate.
  - rewrite filter_cons in H. destruct (decide (title z = t)) as [Hz|Hz].
    + destruct a as [|z' a]; simpl in H; injection H as -> H.
      * exists [], l. repeat split; auto.
      * destruct (IH a x rest H) as (l1 & l2 & -> & H1 & H2).
        exists (z' :: l1), l2. repeat split; auto.
        rewrite filter_cons_True by exact Hz. rewrite H1. reflexivity.
    + destruct (IH a x rest H) as (l1 & l2 & -> & H1 & H2).
      exists (z :: l1), l2. repeat split; auto.
      rewrite filter_cons_False by exact Hz. exact H1.
Qed.

(** Two vectors that hold the records of every title in the same order
    hold any two records of equal title in the same relative order. *)
Lemma same_order_of_equal_titles (bids out : vector) :
  (forall t, with_title t out = with_title t bids) ->
  forall (i j : nat) x y,
    (i < j)%nat -> bids !! i = Some x -> bids !! j = Some y ->
    title x = title y ->
    exists i' j' : nat, (i' < j')%nat /\ out !! i' = Some x /\ out !! j' = Some y.
Proof.
  intros Hsame i j x y Hij Hx Hy Ht.
  destruct (with_title_before (title y) bids i j x y Hij Hx Hy Ht eq_refl)
    as (a & b & c & Hb).
  rewrite <- Hsame in Hb.
  destruct (with_title_split _ _ _ _ _ Hb) as (o1 & o2 & -> & _ & H2).
  destruct (with_title_split _ _ _ _ _ H2) as (o3 & o4 & -> & _ & _).
  exists (length o1), (length o1 + S (length o3))%nat. split; [lia|]. split.
  - apply list_lookup_middle. reflexivity.
  - rewrite lookup_app_r by lia.
    replace (length o1 + S (length o3) - length o1)%nat with (S (length o3)) by lia.
    simpl. apply list_lookup_middle. reflexivity.
Qed.

(** ** The original engine against the enhanced engine *)

Lemma find_min_same fuel (bids : vector) size j m :
  Original.find_min fuel bids size j m = BidSorter.find_min fuel bids size j m.
Proof.
  revert j m. induction fuel as [|fuel IH]; intros j m; simpl; [reflexivity|].
  destruct (j <? size); [|reflexivity].
  destruct (at_ bids j); simpl; [|reflexivity].
  destruct (at_ bids m); simpl; [|reflexivity]. apply IH.
Qed.

Lemma selection_loop_same (size : N) :
  size < SIZE_MOD -> 0 < size ->
  forall fuel fuel' bids i,
    size = vsize bids -> i < size ->
    (N.to_nat (size - 1 - i) <= fuel)%nat ->
    (N.to_nat (size - 1 - i) <= fuel')%nat ->
    Original.selection_loop fuel' bids size i =
    BidSorter.selection_loop fuel bids size i.
Proof.
  intros Hmod Hpos. induction fuel as [|fuel IH];
    intros fuel' bids i Hsize Hi Hfuel Hfuel'.
  - assert (i = size - 1) as -> by lia.
    destruct fuel'; simpl; rewrite wsub_small by lia;
      rewrite N.ltb_irrefl; reflexivity.
  - destruct (N.lt_ge_cases i (size - 1)) as [Hlt|Hge].
    + destruct fuel' as [|fuel']; [lia|]. simpl.
      rewrite wsub_small by lia. destruct (N.ltb_spec i (size - 1)); [|lia].
      rewrite wadd_small by lia. rewrite find_min_same.
      destruct (find_min_spec bids size Hsize Hmod (length bids) (i + 1) i)
        as (m & xm & Hm & Hxm & Hrange & _); [lia|lia|unfold vsize in Hsize; lia|].
      rewrite Hm. simpl.
      assert (Hmsz : m < size) by (apply at_lt in Hxm; lia).
      assert (Hsw : swap bids i m = (if m =? i then Some bids else swap bids i m)).
      { destruct (N.eqb_spec m i) as [->|]; [apply swap_same; lia|reflexivity]. }
      rewrite <- Hsw. destruct (swap_is_Some bids i m) as [bids' Hb]; [lia|lia|].
      rewrite Hb. simpl. apply IH; try lia.
      rewrite (swap_vsize _ _ _ _ Hb). exact Hsize.
    + assert (i = size - 1) as -> by lia.
      destruct fuel'; simpl; rewrite wsub_small by lia;
        rewrite N.ltb_irrefl; reflexivity.
Qed.

(** The original [partition] on a range of one element. *)
Lemma Original_partition_single (bids : vector) (begin : N) :
  begin < vsize bids -> vsize bids < SIZE_MOD ->
  Original.partition bids begin begin =
    Some (begin, bids,
          [Read begin; Cursor begin; Read begin; Cursor begin; Read begin]).
Proof.
  intros Hb Hv. unfold Original.partition.
  rewrite middle_small by lia. replace (begin + (begin - begin) / 2) with begin by lia.
  destruct (at_is_Some bids begin Hb) as [x Hx]. rewrite Hx.
  cbn [mbind option_bind Original.partition_loop Original.scan_low Original.scan_high].
  rewrite Hx. cbn [mbind option_bind]. rewrite StrOrd.ltb_irrefl.
  cbn [mbind option_bind]. rewrite N.leb_refl. reflexivity.
Qed.

(** ** Degenerate inputs *)

Lemma quickSort_degenerate (bids : vector) (begin end_ : N) :
  end_ <= begin -> BidSorter.quickSort bids begin end_ = Some bids.
Proof.
  intros H. unfold BidSorter.quickSort.
  destruct (length bids); simpl; destruct (N.leb_spec end_ begin); try lia;
    rewrite orb_true_r; reflexivity.
Qed.

Lemma mergeSort_degenerate (bids : vector) (left right : N) :
  right <= left -> BidSorter.mergeSort bids left right = Some bids.
Proof. intros H. apply mergeSort_rec_done. exact H. Qed.

Lemma quickSort_empty (begin end_ : N) : BidSorter.quickSort [] begin end_ = Some [].
Proof. reflexivity. Qed.

Lemma mergeSort_empty (left right : N) : BidSorter.mergeSort [] left right = Some [].
Proof. reflexivity. Qed.

Lemma sorts_single (x : Bid) :
  BidSorter.selectionSort [x] = Some [x] /\
  BidSorter.quickSort [x] 0 (wsub (vsize [x]) 1) = Some [x] /\
  BidSorter.mergeSort [x] 0 (wsub (vsize [x]) 1) = Some [x] /\
  BidSorter.heapSort [x] = Some [x].
Proof. repeat split; reflexivity. Qed.

(** ** Quick sort and merge sort on a range *)

Lemma quickSort_range_spec (bids : vector) (begin end_ : N) :
  begin <= end_ -> end_ < vsize bids -> vsize bids < SIZE_MOD ->
  exists out,
    BidSorter.quickSort bids begin end_ = Some out /\
    out ≡ₚ bids /\ sorted_range out begin end_ /\
    (forall k, k < begin \/ end_ < k -> at_ out k = at_ bids k).
Proof.
  intros Hbe Hend Hv.
  destruct (quickSort_rec_spec (length bids) bids begin end_) as (out & H & _ & Hex & Hs);
    auto.
  { unfold vsize in *. lia. }
  exists out. split; [exact H|]. split; [eapply exch_perm; exact Hex|].
  split; [exact Hs|]. intros k Hk. eapply exch_outside; eauto.
Qed.

Lemma mergeSort_range_spec (bids : vector) (left right : N) :
  left <= right -> right < vsize bids -> vsize bids < SIZE_MOD ->
  exists s,
    BidSorter.mergeSort bids left right =
      Some (take (N.to_nat left) bids ++ s ++ drop (N.to_nat (right + 1)) bids) /\
    stable_sorted (take (N.to_nat (right + 1 - left)) (drop (N.to_nat left) bids)) s.
Proof.
  intros Hlr Hr Hv.
  set (pre := take (N.to_nat left) bids).
  set (seg := take (N.to_nat (right + 1 - left)) (drop (N.to_nat left) bids)).
  set (post := drop (N.to_nat (right + 1)) bids).
  assert (Hbids : bids = pre ++ seg ++ post).
  { unfold pre, seg, post.
    replace (N.to_nat (right + 1)) with (N.to_nat left + N.to_nat (right + 1 - left))%nat
      by lia.
    rewrite <- drop_drop, !take_drop. reflexivity. }
  assert (Hpre : length pre = N.to_nat left).
  { unfold pre. rewrite length_take. unfold vsize in *. lia. }
  assert (Hseg : length seg = N.to_nat (right + 1 - left)).
  { unfold seg. rewrite length_take, length_drop. unfold vsize in *. lia. }
  unfold BidSorter.mergeSort.
  destruct (mergeSort_rec_spec (length bids) pre seg post left right) as (s & Hs & Hst);
    try lia.
  - rewrite <- Hbids. exact Hv.
  - rewrite Hbids at 1. rewrite !length_app. lia.
  - exists s. rewrite <- Hbids in Hs. split; [exact Hs|exact Hst].
Qed.

Lemma mergeSort_range_perm (bids : vector) (left right : N) :
  left <= right -> right < vsize bids -> vsize bids < SIZE_MOD ->
  exists out, BidSorter.mergeSort bids left right = Some out /\ out ≡ₚ bids.
Proof.
  intros Hlr Hr Hv.
  destruct (mergeSort_range_spec bids left right Hlr Hr Hv) as (s & H & Hp & _).
  eexists. split; [exact H|]. rewrite Hp.
  replace (N.to_nat (right + 1)) with (N.to_nat left + N.to_nat (right + 1 - left))%nat
    by lia.
  rewrite <- drop_drop, !take_drop. reflexivity.
Qed.

(** ** Benchmark harness *)

Lemma fresh_copy_gone (h : gmap positive vector) (v v' : vector) :
  delete (fresh (dom h)) (<[fresh (dom h) := v']> (<[fresh (dom h) := v]> h)) = h.
Proof.
  rewrite insert_insert_eq. apply delete_insert_id.
  apply not_elem_of_dom. apply is_fresh.
Qed.

Lemma fresh_copy_gone1 (h : gmap positive vector) (v : vector) :
  delete (fresh (dom h)) (<[fresh (dom h) := v]> h) = h.
Proof. apply delete_insert_id. apply not_elem_of_dom. apply is_fresh. Qed.

(** What [benchmarkSort] returns, given what the sort function does with
    the copy. *)
Lemma benchmarkSort_eval (sortFunction : SortFunc) arg name (w : World) v sorted :
  heap w !! arg = Some v -> v <> [] ->
  match sortFunction with
  | Ranged f => f v 0 (wsub (vsize v) 1)
  | WholeVector f => f v
  end = Some sorted ->
  benchmarkSort sortFunction arg name w =
    Some (mkBenchmarkResult name (vsize sorted)
            (double_div
               (double_of_Z (Z.quot (ticks w (S (reads w)) - ticks w (reads w)) 1000))
               (double_of_Z 1000)),
          mkWorld (heap w) (ticks w) (S (S (reads w)))).
Proof.
  intros Harg Hne Hsort. unfold benchmarkSort. rewrite Harg.
  cbn [mbind option_bind]. rewrite lookup_insert_eq. cbn [mbind option_bind].
  destruct (N.eqb_spec (vsize v) 0) as [Hz|_].
  { destruct v; [contradiction|discriminate]. }
  rewrite Hsort. cbn [mbind option_bind]. rewrite lookup_insert_eq.
  cbn [mbind option_bind]. rewrite fresh_copy_gone. reflexivity.
Qed.

Lemma benchmarkSort_empty (sortFunction : SortFunc) arg name (w : World) :
  heap w !! arg = Some [] ->
  benchmarkSort sortFunction arg name w =
    Some (mkBenchmarkResult name 0 (S754_zero false), w).
Proof.
  intros Harg. unfold benchmarkSort. rewrite Harg.
  cbn [mbind option_bind]. rewrite lookup_insert_eq. cbn [mbind option_bind].
  change (vsize [] =? 0) with true. cbv iota. rewrite fresh_copy_gone1.
  destruct w; reflexivity.
Qed.

Lemma sortFunction_runs (a : Algorithm) (v : vector) :
  vsize v <= max_size ->
  exists sorted,
    match sortFunction_of a with
    | Ranged f => f v 0 (wsub (vsize v) 1)
    | WholeVector f => f v
    end = Some sorted /\ sorted ≡ₚ v.
Proof.
  intros Hmax.
  destruct (sorts_permutation v Hmax) as (H1 & H2 & H3 & H4).
  destruct a; simpl; assumption.
Qed.

Lemma benchmarkSort_runs (a : Algorithm) arg name (w : World) v :
  heap w !! arg = Some v -> vsize v <= max_size ->
  exists r w',
    benchmarkSort (sortFunction_of a) arg name w = Some (r, w') /\
    heap w' = heap w /\ algorithmName r = name /\ dataSize r = vsize v.
Proof.
  intros Harg Hmax. destruct v as [|x v].
  - rewrite (benchmarkSort_empty _ _ _ _ Harg). eauto 10.
  - destruct (sortFunction_runs a (x :: v) Hmax) as (sorted & Hs & Hp).
    rewrite (benchmarkSort_eval _ _ _ _ _ sorted Harg ltac:(discriminate) Hs).
    eexists. eexists. split; [reflexivity|]. simpl. repeat split.
    unfold vsize. rewrite (Permutation_length Hp). reflexivity.
Qed.

Lemma runBenchmarkComparison_runs arg (w : World) v :
  heap w !! arg = Some v -> vsize v <= max_size ->
  exists out w',
    runBenchmarkComparison arg w = Some (out, w') /\ heap w' = heap w /\
    (v <> [] ->
     exists r1 r2 r3 r4,
       out = displayBenchmarks [r1; r2; r3; r4] /\
       map algorithmName [r1; r2; r3; r4] =
         map displayName [SelectionAlg; QuickAlg; MergeAlg; HeapAlg]).
Proof.
  intros Harg Hmax. unfold runBenchmarkComparison. rewrite Harg.
  cbn [mbind option_bind]. destruct (N.eqb_spec (vsize v) 0) as [Hz|Hnz].
  - exists (Message "No data available for benchmarking. Please load bids first."), w.
    repeat split. intros Hne. destruct v; [contradiction|discriminate].
  - destruct (benchmarkSort_runs SelectionAlg arg "Selection Sort" w v Harg Hmax)
      as (r1 & w1 & E1 & Hh1 & Hn1 & _).
    rewrite <- Hh1 in Harg.
    destruct (benchmarkSort_runs QuickAlg arg "Quick Sort" w1 v Harg Hmax)
      as (r2 & w2 & E2 & Hh2 & Hn2 & _).
    rewrite <- Hh2 in Harg.
    destruct (benchmarkSort_runs MergeAlg arg "Merge Sort" w2 v Harg Hmax)
      as (r3 & w3 & E3 & Hh3 & Hn3 & _).
    rewrite <- Hh3 in Harg.
    destruct (benchmarkSort_runs HeapAlg arg "Heap Sort" w3 v Harg Hmax)
      as (r4 & w4 & E4 & Hh4 & Hn4 & _).
    simpl sortFunction_of in *.
    rewrite E1. cbn [mbind option_bind]. rewrite E2. cbn [mbind option_bind].
    rewrite E3. cbn [mbind option_bind]. rewrite E4. cbn [mbind option_bind].
    exists (displayBenchmarks [r1; r2; r3; r4]), w4.
    split; [reflexivity|]. split; [congruence|].
    intros _. exists r1, r2, r3, r4. split; [reflexivity|].
    simpl. rewrite Hn1, Hn2, Hn3, Hn4. reflexivity.
Qed.

Lemma run_calls_frame (calls : list Call) arg :
  forall (w : World) v,
    heap w !! arg = Some v -> vsize v <= max_size ->
    exists w', run_calls calls arg w = Some w' /\ heap w' = heap w.
Proof.
  induction calls as [|c calls IH]; intros w v Harg Hmax.
  - exists w. split; reflexivity.
  - destruct c as [a|]; cbn [run_calls].
    + destruct (benchmarkSort_runs a arg (displayName a) w v Harg Hmax)
        as (r & w1 & E & Hh & _).
      rewrite E. cbn [mbind option_bind].
      rewrite <- Hh in Harg. destruct (IH w1 v Harg Hmax) as (w' & E' & Hh').
      exists w'. split; [exact E'|congruence].
    + destruct (runBenchmarkComparison_runs arg w v Harg Hmax)
        as (out & w1 & E & Hh & _).
      rewrite E. cbn [mbind option_bind].
      rewrite <- Hh in Harg. destruct (IH w1 v Harg Hmax) as (w' & E' & Hh').
      exists w'. split; [exact E'|congruence].
Qed.

(** ** Sorting what is sorted *)

Global Instance str_le_Transitive : Transitive str_le.
Proof. intros a b c. unfold str_le. apply StrOrd.nlt_trans. Qed.

Global Instance str_le_AntiSymm : AntiSymm (=) str_le.
Proof. intros a b Hab Hba. unfold str_le in *. apply StrOrd.ltb_connex; assumption. Qed.

(** Two ascending arrangements of the same records show the same sequence
    of titles. *)
Lemma ascending_titles_unique (a b : vector) :
  ascending a -> ascending b -> a ≡ₚ b -> title <$> a = title <$> b.
Proof.
  intros Ha Hb Hp. apply (StronglySorted_unique str_le).
  - apply (StronglySorted_fmap title tle str_le); [auto|].
    apply StronglySorted_ascending. exact Ha.
  - apply (StronglySorted_fmap title tle str_le); [auto|].
    apply StronglySorted_ascending. exact Hb.
  - apply fmap_Permutation. exact Hp.
Qed.

Lemma perm_vsize (a b : vector) : a ≡ₚ b -> vsize a = vsize b.
Proof. intros H. unfold vsize. rewrite (Permutation_length H). reflexivity. Qed.

(** ** The [int] counter of [heapSort] *)

Section HeapCounter.

Import BidSorter.

Lemma build_heap_negative fuel (bids : vector) n (i : Z) :
  (i < 0)%Z -> build_heap fuel bids n i = Some bids.
Proof.
  intros H. destruct fuel; simpl; destruct (Z.leb_spec 0 i); try lia; reflexivity.
Qed.

Lemma swap_equal (bids : vector) i j a :
  at_ bids i = Some a -> at_ bids j = Some a -> swap bids i j = Some bids.
Proof.
  intros Hi Hj. unfold swap. rewrite Hi, Hj. cbn [mbind option_bind].
  unfold at_ in *. rewrite (list_insert_id bids _ a Hi).
  rewrite (list_insert_id bids _ a Hj). reflexivity.
Qed.

Variables a b : Bid.
Hypothesis Hba : title_gt b a = true.

Lemma heapify_uniform_root (rest : vector) (i : N) (x : Bid) :
  3 <= i ->
  heapify ([a; a; a; x] ++ rest) i 0 = Some ([a; a; a; x] ++ rest).
Proof.
  intros Hi. unfold heapify. cbn [heapifyRecursive].
  change (wadd (wmul 2 0) 1) with 1. change (wadd (wmul 2 0) 2) with 2.
  destruct (N.ltb_spec 1 i); [|lia]. destruct (N.ltb_spec 2 i); [|lia].
  change (at_ ([a; a; a; x] ++ rest) 1) with (Some a).
  change (at_ ([a; a; a; x] ++ rest) 0) with (Some a).
  change (at_ ([a; a; a; x] ++ rest) 2) with (Some a).
  cbn [mbind option_bind].
  assert (Haa : title_gt a a = false) by apply StrOrd.ltb_irrefl.
  rewrite Haa. cbn [mbind option_bind].
  change (at_ ([a; a; a; x] ++ rest) 0) with (Some a).
  cbn [mbind option_bind]. rewrite Haa. reflexivity.
Qed.

(** Without a heap to start from, the second loop leaves the one larger
    record in front of a smaller one. *)
Lemma extract_uniform (rest : vector) :
  (forall x, x ∈ rest -> x = a) ->
  vsize ([a; a; a; b] ++ rest) < SIZE_MOD ->
  forall (j fuel : nat),
    (j <= length rest)%nat -> (3 + j <= fuel)%nat ->
    extract_loop fuel ([a; a; a; b] ++ rest) (N.of_nat (3 + j))
      = Some ([a; a; b; a] ++ rest).
Proof.
  intros Hrest Hv.
  assert (Haa : title_gt a a = false) by apply StrOrd.ltb_irrefl.
  assert (Hab : title_gt a b = false).
  { unfold title_gt in *. apply StrOrd.ltb_asym. exact Hba. }
  induction j as [|j IH]; intros fuel Hj Hfuel.
  - destruct fuel as [|[|[|fuel]]]; try lia.
    change (N.of_nat (3 + 0)) with 3.
    cbn [extract_loop]. change (0 <? 3) with true. cbv iota.
    change (swap ([a; a; a; b] ++ rest) 0 3) with (Some ([b; a; a; a] ++ rest)).
    cbn [mbind option_bind].
    assert (H3 : heapify ([b; a; a; a] ++ rest) 3 0 = Some ([b; a; a; a] ++ rest)).
    { unfold heapify. cbn [heapifyRecursive].
      change (wadd (wmul 2 0) 1) with 1. change (wadd (wmul 2 0) 2) with 2.
      change (1 <? 3) with true. change (2 <? 3) with true. cbv iota.
      change (at_ ([b; a; a; a] ++ rest) 1) with (Some a).
      change (at_ ([b; a; a; a] ++ rest) 0) with (Some b).
      change (at_ ([b; a; a; a] ++ rest) 2) with (Some a).
      cbn [mbind option_bind]. rewrite Hab. cbn [mbind option_bind].
      change (at_ ([b; a; a; a] ++ rest) 0) with (Some b).
      cbn [mbind option_bind]. rewrite Hab. reflexivity. }
    rewrite H3. cbn [mbind option_bind].
    change (wsub 3 1) with 2. change (0 <? 2) with true. cbv iota.
    change (swap ([b; a; a; a] ++ rest) 0 2) with (Some ([a; a; b; a] ++ rest)).
    cbn [mbind option_bind].
    assert (H2 : heapify ([a; a; b; a] ++ rest) 2 0 = Some ([a; a; b; a] ++ rest)).
    { unfold heapify. cbn [heapifyRecursive].
      change (wadd (wmul 2 0) 1) with 1. change (wadd (wmul 2 0) 2) with 2.
      change (1 <? 2) with true. change (2 <? 2) with false. cbv iota.
      change (at_ ([a; a; b; a] ++ rest) 1) with (Some a).
      change (at_ ([a; a; b; a] ++ rest) 0) with (Some a).
      cbn [mbind option_bind]. rewrite Haa. reflexivity. }
    rewrite H2. cbn [mbind option_bind].
    change (wsub 2 1) with 1. change (0 <? 1) with true. cbv iota.
    change (swap ([a; a; b; a] ++ rest) 0 1) with (Some ([a; a; b; a] ++ rest)).
    cbn [mbind option_bind].
    assert (H1 : heapify ([a; a; b; a] ++ rest) 1 0 = Some ([a; a; b; a] ++ rest)).
    { unfold heapify. cbn [heapifyRecursive].
      change (wadd (wmul 2 0) 1) with 1. change (wadd (wmul 2 0) 2) with 2.
      change (1 <? 1) with false. change (2 <? 1) with false. reflexivity. }
    rewrite H1. cbn [mbind option_bind].
    change (wsub 1 1) with 0. destruct fuel; reflexivity.
  - destruct fuel as [|fuel]; [lia|].
    set (bids := [a; a; a; b] ++ rest) in *.
    assert (Hsz : vsize bids = 4 + N.of_nat (length rest)).
    { unfold bids, vsize. rewrite length_app. simpl length. lia. }
    cbn [extract_loop]. destruct (N.ltb_spec 0 (N.of_nat (3 + S j))); [|lia].
    assert (Hi : at_ bids (N.of_nat (3 + S j)) = Some a).
    { unfold at_, bids. rewrite Nat2N.id.
      rewrite lookup_app_r by (simpl; lia).
      destruct (lookup_lt_is_Some_2 rest (3 + S j - length [a; a; a; b])) as [x Hx];
        [simpl; lia|].
      rewrite Hx. f_equal. apply Hrest. eapply list_elem_of_lookup_2. exact Hx. }
    rewrite (swap_equal bids 0 _ a eq_refl Hi). cbn [mbind option_bind].
    unfold bids. rewrite (heapify_uniform_root rest _ b) by lia.
    cbn [mbind option_bind]. rewrite wsub_small by lia.
    replace (N.of_nat (3 + S j) - 1) with (N.of_nat (3 + j)) by lia.
    apply IH; lia.
Qed.

Lemma heapSort_skips_build (rest : vector) :
  (forall x, x ∈ rest -> x = a) ->
  vsize rest = 4294967294 ->
  heapSort ([a; a; a; b] ++ rest) = Some ([a; a; b; a] ++ rest).
Proof.
  intros Hrest Hlen.
  assert (Hsz : vsize ([a; a; a; b] ++ rest) = 4294967298).
  { unfold vsize in *. rewrite length_app. simpl length. lia. }
  unfold heapSort. rewrite Hsz.
  change (4294967298 =? 0) with false. cbv iota.
  replace (to_int (wsub (4294967298 / 2) 1)) with (-2147483648)%Z
    by (vm_compute; reflexivity).
  rewrite build_heap_negative by lia. cbn [mbind option_bind].
  replace (wsub 4294967298 1) with (N.of_nat (3 + length rest))
    by (unfold vsize in Hlen; vm_compute wsub; lia).
  apply extract_uniform; auto.
  - rewrite Hsz. unfold SIZE_MOD. lia.
  - rewrite length_app. simpl length. lia.
Qed.

Lemma not_ascending_after (rest : vector) : ~ ascending ([a; a; b; a] ++ rest).
Proof.
  intros H. specialize (H 2%nat 3%nat b a ltac:(lia) eq_refl eq_refl).
  rewrite StrOrd.leb_ltb in H. unfold title_gt in Hba. rewrite Hba in H.
  discriminate.
Qed.

End HeapCounter.

(** * The claims of the specification *)

(** The concrete scenario of the specification: every algorithm turns
    "Zebra", "Apple", "Mango" into "Apple", "Mango", "Zebra". *)
Example sample_sorted :
  let sorted := Some [bid_of "2" "Apple"; bid_of "3" "Mango"; bid_of "1" "Zebra"] in
  BidSorter.selectionSort sample = sorted /\
  BidSorter.quickSort sample 0 2 = sorted /\
  BidSorter.mergeSort sample 0 2 = sorted /\
  BidSorter.heapSort sample = sorted /\
  Original.selectionSort sample = sorted /\
  Original.quickSort sample 0 2 = sorted.
Proof. repeat split; reflexivity. Qed.

Lemma ascending_twins : ascending twins.
Proof. apply StronglySorted_ascending. repeat constructor. Qed.

(** C1. The claim: each of the four sorts leaves every vector ascending by
    title. The first loop of [heapSort] counts in an [int]: on the vector
    [huge_input] of [2^32 + 2] records the start value [n / 2 - 1 = 2^31]
    becomes negative, no heap is built, and the result [huge_output] holds
    the title "B" in front of a title "A". *)
Theorem heapSort_int_counter_overflow :
  vsize huge_input = 4294967298 /\
  to_int (wsub (vsize huge_input / 2) 1) = (-2147483648)%Z /\
  BidSorter.heapSort huge_input = Some huge_output /\
  ~ ascending huge_output.
Proof.
  assert (Hrest : vsize (replicate (N.to_nat 4294967294) (bid_of "1" "A")) = 4294967294).
  { unfold vsize. rewrite length_replicate. apply N2Nat.id. }
  assert (Hsz : vsize huge_input = 4294967298).
  { unfold huge_input, vsize. rewrite length_app, length_replicate.
    change (length [bid_of "1" "A"; bid_of "1" "A"; bid_of "1" "A"; bid_of "2" "B"])
      with 4%nat.
    lia. }
  split; [exact Hsz|]. split; [rewrite Hsz; vm_compute; reflexivity|]. split.
  - refine (heapSort_skips_build (bid_of "1" "A") (bid_of "2" "B") eq_refl
              (replicate (N.to_nat 4294967294) (bid_of "1" "A")) _ Hrest).
    intros x Hx. apply elem_of_replicate in Hx as [-> _]. reflexivity.
  - exact (not_ascending_after (bid_of "1" "A") (bid_of "2" "B") eq_refl
             (replicate (N.to_nat 4294967294) (bid_of "1" "A"))).
Qed.

(** C2. For every vector and each of the four sorts, the sort returns a
    permutation of its input: the same records, field by field, each as
    often as before. Quick sort and merge sort do so on the full range,
    and on every range that ends inside the vector or is empty. *)
Theorem sort_output_is_permutation (bids : vector) (begin end_ : N) :
  vsize bids <= max_size ->
  (exists out, BidSorter.selectionSort bids = Some out /\ out ≡ₚ bids) /\
  (exists out, BidSorter.quickSort bids 0 (wsub (vsize bids) 1) = Some out /\
               out ≡ₚ bids) /\
  (exists out, BidSorter.mergeSort bids 0 (wsub (vsize bids) 1) = Some out /\
               out ≡ₚ bids) /\
  (exists out, BidSorter.heapSort bids = Some out /\ out ≡ₚ bids) /\
  (end_ <= begin \/ end_ < vsize bids ->
   (exists out, BidSorter.quickSort bids begin end_ = Some out /\ out ≡ₚ bids) /\
   (exists out, BidSorter.mergeSort bids begin end_ = Some out /\ out ≡ₚ bids)).
Proof.
  intros Hmax. destruct (sorts_permutation bids Hmax) as (H1 & H2 & H3 & H4).
  repeat (split; [assumption|]).
  pose proof (max_size_fits bids Hmax) as Hv.
  intros Hrange. destruct (N.le_gt_cases end_ begin) as [Hle|Hlt].
  - split; exists bids; (split; [|reflexivity]).
    + apply quickSort_degenerate. exact Hle.
    + apply mergeSort_degenerate. exact Hle.
  - assert (Hend : end_ < vsize bids) by lia. split.
    + destruct (quickSort_range_spec bids begin end_) as (out & H & Hp & _); try lia.
      eauto.
    + apply mergeSort_range_perm; lia.
Qed.

Lemma sort_output_is_permutation_witness :
  vsize sample <= max_size /\
  (exists out, BidSorter.selectionSort sample = Some out /\ out ≡ₚ sample) /\
  (exists out, BidSorter.quickSort sample 0 (wsub (vsize sample) 1) = Some out /\
               out ≡ₚ sample) /\
  (exists out, BidSorter.mergeSort sample 0 (wsub (vsize sample) 1) = Some out /\
               out ≡ₚ sample) /\
  (exists out, BidSorter.heapSort sample = Some out /\ out ≡ₚ sample) /\
  (1 <= 0 \/ 1 < vsize sample ->
   (exists out, BidSorter.quickSort sample 0 1 = Some out /\ out ≡ₚ sample) /\
   (exists out, BidSorter.mergeSort sample 0 1 = Some out /\ out ≡ₚ sample)).
Proof.
  split; [vm_compute; discriminate|].
  apply (sort_output_is_permutation sample 0 1). vm_compute. discriminate.
Defined.

(** C3. In every call of [partition], of the enhanced and of the original
    engine, on a range [0 <= begin <= end < length], every position read
    or exchanged and every value the two cursors take lies in
    [[begin, end]], and so does the split point returned. *)
Theorem partition_stays_in_range (bids : vector) (begin end_ : N) :
  begin <= end_ -> end_ < vsize bids -> vsize bids <= max_size ->
  (exists r out tr,
     BidSorter.partition bids begin end_ = Some (r, out, tr) /\
     begin <= r <= end_ /\ Forall (within begin end_) tr) /\
  (exists r out tr,
     Original.partition bids begin end_ = Some (r, out, tr) /\
     begin <= r <= end_ /\ Forall (within begin end_) tr).
Proof.
  intros Hbe Hend Hmax. pose proof (max_size_fits bids Hmax) as Hv.
  destruct (N.eq_dec begin end_) as [<-|Hne].
  - split.
    + exists begin, bids, []. unfold BidSorter.partition. rewrite N.leb_refl.
      split; [reflexivity|]. split; [lia|constructor].
    + exists begin, bids. eexists.
      rewrite Original_partition_single by lia.
      split; [reflexivity|]. split; [lia|]. repeat constructor; lia.
  - destruct (partition_spec bids begin end_) as (r & out & tr & pv & H1 & H2 & Hr & _ & _ & _ & Htr);
      try lia.
    split; exists r, out, tr; (split; [assumption|]); (split; [lia|exact Htr]).
Qed.

Lemma partition_stays_in_range_witness :
  0 <= 2 /\ 2 < vsize sample /\ vsize sample <= max_size /\
  (exists r out tr,
     BidSorter.partition sample 0 2 = Some (r, out, tr) /\
     0 <= r <= 2 /\ Forall (within 0 2) tr) /\
  (exists r out tr,
     Original.partition sample 0 2 = Some (r, out, tr) /\
     0 <= r <= 2 /\ Forall (within 0 2) tr).
Proof.
  split; [lia|]. split; [vm_compute; reflexivity|]. split; [vm_compute; discriminate|].
  apply (partition_stays_in_range sample 0 2);
    [lia|vm_compute; reflexivity|vm_compute; discriminate].
Defined.

(** C4. Merge sort is stable. On a tie of titles the merge step writes the
    element of the left run; merge sort on the full range returns a vector
    that holds the records of every title in the order of the input, so
    that two records of equal title (with distinct identifiers or not)
    that stand at [i < j] in the input stand at some [i' < j'] in the
    output. *)
Theorem mergeSort_is_stable (bids : vector) :
  vsize bids <= max_size ->
  (forall fuel (b L R : vector) i j k x y,
     i < vsize L -> j < vsize R ->
     at_ L i = Some x -> at_ R j = Some y -> title x = title y ->
     BidSorter.merge_both (S fuel) b L R i j k =
       (assign b k x ≫= fun b' =>
          BidSorter.merge_both fuel b' L R (wadd i 1) j (wadd k 1))) /\
  exists out,
    BidSorter.mergeSort bids 0 (wsub (vsize bids) 1) = Some out /\
    (forall t, with_title t out = with_title t bids) /\
    (forall (i j : nat) x y,
       (i < j)%nat -> bids !! i = Some x -> bids !! j = Some y ->
       title x = title y ->
       exists i' j' : nat,
         (i' < j')%nat /\ out !! i' = Some x /\ out !! j' = Some y).
Proof.
  intros Hmax. split.
  - intros fuel b L R i j k x y Hi Hj Hx Hy Ht. cbn [BidSorter.merge_both].
    destruct (N.ltb_spec i (vsize L)); [|lia].
    destruct (N.ltb_spec j (vsize R)); [|lia].
    cbn [andb]. rewrite Hx, Hy. cbn [mbind option_bind].
    unfold title_le. rewrite StrOrd.leb_ltb, Ht, StrOrd.ltb_irrefl. reflexivity.
  - pose proof (max_size_fits bids Hmax) as Hv.
    destruct (mergeSort_spec bids) as (out & Hout & _ & _ & Hsame & _); [lia|].
    exists out. split; [exact Hout|]. split; [exact Hsame|].
    apply same_order_of_equal_titles. exact Hsame.
Qed.

Lemma mergeSort_is_stable_witness :
  vsize twins <= max_size /\
  exists out,
    BidSorter.mergeSort twins 0 (wsub (vsize twins) 1) = Some out /\
    (forall t, with_title t out = with_title t twins) /\
    (forall (i j : nat) x y,
       (i < j)%nat -> twins !! i = Some x -> twins !! j = Some y ->
       title x = title y ->
       exists i' j' : nat,
         (i' < j')%nat /\ out !! i' = Some x /\ out !! j' = Some y).
Proof.
  split; [vm_compute; discriminate|].
  apply (mergeSort_is_stable twins). vm_compute. discriminate.
Defined.

(** C5, as stated: each of the four sorts returns an ascending vector
    unchanged, and a second application changes nothing. Quick sort and
    heap sort exchange the two records of [twins], which share a title:
    the vector is ascending and comes back in the other order, and the
    second application undoes the first. *)
Lemma quick_and_heap_reorder_ties :
  ascending twins /\
  BidSorter.quickSort twins 0 (wsub (vsize twins) 1)
    = Some [bid_of "2" "A"; bid_of "1" "A"] /\
  BidSorter.quickSort [bid_of "2" "A"; bid_of "1" "A"] 0 1 = Some twins /\
  BidSorter.heapSort twins = Some [bid_of "2" "A"; bid_of "1" "A"] /\
  BidSorter.heapSort [bid_of "2" "A"; bid_of "1" "A"] = Some twins /\
  [bid_of "2" "A"; bid_of "1" "A"] <> twins.
Proof.
  split; [exact ascending_twins|]. repeat split; try reflexivity. discriminate.
Qed.

(** C5, amended. Selection sort and merge sort return an ascending vector
    unchanged, and their second application changes nothing. Quick sort
    and heap sort (heap sort on at most [2^32 + 1] records) leave the
    sequence of titles of an ascending vector unchanged, and their second
    application leaves the sequence of titles unchanged; records of equal
    title may change places. *)
Theorem sorting_again_keeps_the_titles (bids : vector) :
  vsize bids <= max_size ->
  (exists out,
     BidSorter.selectionSort bids = Some out /\
     BidSorter.selectionSort out = Some out /\
     (ascending bids -> out = bids)) /\
  (exists out,
     BidSorter.mergeSort bids 0 (wsub (vsize bids) 1) = Some out /\
     BidSorter.mergeSort out 0 (wsub (vsize out) 1) = Some out /\
     (ascending bids -> out = bids)) /\
  (exists out again,
     BidSorter.quickSort bids 0 (wsub (vsize bids) 1) = Some out /\
     BidSorter.quickSort out 0 (wsub (vsize out) 1) = Some again /\
     title <$> again = title <$> out /\
     (ascending bids -> title <$> out = title <$> bids)) /\
  (vsize bids <= HEAP_MAX ->
   exists out again,
     BidSorter.heapSort bids = Some out /\
     BidSorter.heapSort out = Some again /\
     title <$> again = title <$> out /\
     (ascending bids -> title <$> out = title <$> bids)).
Proof.
  intros Hmax. pose proof (max_size_fits bids Hmax) as Hv2.
  assert (Hv : vsize bids < SIZE_MOD) by lia.
  repeat split.
  - destruct (selectionSort_spec bids Hv) as (out & H & Hp & Hs & Hid).
    exists out. split; [exact H|]. split; [|exact Hid].
    destruct (selectionSort_spec out) as (out' & H' & _ & _ & Hid').
    { rewrite (perm_vsize _ _ Hp). exact Hv. }
    rewrite H'. f_equal. apply Hid'. exact Hs.
  - destruct (mergeSort_spec bids Hv) as (out & H & Hp & Hs & _ & Hid).
    exists out. split; [exact H|]. split.
    + destruct (mergeSort_spec out) as (out' & H' & _ & _ & _ & Hid').
      { rewrite (perm_vsize _ _ Hp). exact Hv. }
      rewrite H'. f_equal. apply Hid'. exact Hs.
    + intros Ha. apply Hid. apply StronglySorted_ascending. exact Ha.
  - destruct (quickSort_spec bids Hv) as (out & H & Hp & Hs).
    destruct (quickSort_spec out) as (again & H' & Hp' & Hs').
    { rewrite (perm_vsize _ _ Hp). exact Hv. }
    exists out, again. split; [exact H|]. split; [exact H'|]. split.
    + apply ascending_titles_unique; assumption.
    + intros Ha. apply ascending_titles_unique; assumption.
  - intros Hheap.
    destruct (heapSort_spec bids Hv2) as (out & H & Hp & Hs).
    destruct (heapSort_spec out) as (again & H' & Hp' & Hs').
    { rewrite (perm_vsize _ _ Hp). exact Hv2. }
    exists out, again. split; [exact H|]. split; [exact H'|]. split.
    + apply ascending_titles_unique; auto.
      apply Hs'. rewrite (perm_vsize _ _ Hp). exact Hheap.
    + intros Ha. apply ascending_titles_unique; auto.
Qed.

Lemma sorting_again_keeps_the_titles_witness :
  vsize twins <= max_size /\
  (exists out,
     BidSorter.selectionSort twins = Some out /\
     BidSorter.selectionSort out = Some out /\
     (ascending twins -> out = twins)) /\
  (exists out,
     BidSorter.mergeSort twins 0 (wsub (vsize twins) 1) = Some out /\
     BidSorter.mergeSort out 0 (wsub (vsize out) 1) = Some out /\
     (ascending twins -> out = twins)) /\
  (exists out again,
     BidSorter.quickSort twins 0 (wsub (vsize twins) 1) = Some out /\
     BidSorter.quickSort out 0 (wsub (vsize out) 1) = Some again /\
     title <$> again = title <$> out /\
     (ascending twins -> title <$> out = title <$> twins)) /\
  (vsize twins <= HEAP_MAX ->
   exists out again,
     BidSorter.heapSort twins = Some out /\
     BidSorter.heapSort out = Some again /\
     title <$> again = title <$> out /\
     (ascending twins -> title <$> out = title <$> twins)).
Proof.
  split; [vm_compute; discriminate|].
  apply (sorting_again_keeps_the_titles twins). vm_compute. discriminate.
Defined.

(** C6, as stated: the Complexity column follows the algorithm that was
    run, not the display string of the result. A run of selection sort
    reported under the name "Quick Sort" is shown with the class of quick
    sort. *)
Lemma complexity_follows_the_display_name :
  exists r w' row,
    benchmarkSort (sortFunction_of SelectionAlg) 1 "Quick Sort" (sample_world sample)
      = Some (r, w') /\
    displayBenchmarks [r] = Table [row] /\
    col_complexity row = "O(n log n)"%string /\
    col_complexity row <> complexity_class SelectionAlg.
Proof.
  eexists. eexists. eexists. split; [vm_compute; reflexivity|].
  split; [reflexivity|]. split; [reflexivity|]. discriminate.
Qed.

(** C6, amended. The Complexity column of a result is found by comparing
    its [algorithmName] with the four display names; any other name leaves
    the column empty. Under its own display name each algorithm gets the
    class of the closed mapping, and so does every line of the table of
    [runBenchmarkComparison]. *)
Theorem complexity_column_matches_names (arg : positive) (w : World) (v : vector) :
  heap w !! arg = Some v -> v <> [] -> vsize v <= max_size ->
  (forall r,
     displayBenchmarks [r] =
       Table [mkRow (algorithmName r) (dataSize r) (executionTimeMs r)
                    (complexity_of (algorithmName r))]) /\
  (forall a, complexity_of (displayName a) = complexity_class a) /\
  (forall name, (forall a, name <> displayName a) -> complexity_of name = ""%string) /\
  (exists rows w',
     runBenchmarkComparison arg w = Some (Table rows, w') /\
     col_algorithm <$> rows =
       displayName <$> [SelectionAlg; QuickAlg; MergeAlg; HeapAlg] /\
     col_complexity <$> rows =
       complexity_class <$> [SelectionAlg; QuickAlg; MergeAlg; HeapAlg]).
Proof.
  intros Harg Hne Hmax. split; [reflexivity|].
  split; [intros []; reflexivity|]. split.
  - intros name Hname. unfold complexity_of.
    destruct (String.eqb_spec name "Selection Sort") as [->|_];
      [destruct (Hname SelectionAlg); reflexivity|].
    destruct (String.eqb_spec name "Quick Sort") as [->|_];
      [destruct (Hname QuickAlg); reflexivity|].
    destruct (String.eqb_spec name "Merge Sort") as [->|_];
      [destruct (Hname MergeAlg); reflexivity|].
    destruct (String.eqb_spec name "Heap Sort") as [->|_];
      [destruct (Hname HeapAlg); reflexivity|].
    reflexivity.
  - destruct (runBenchmarkComparison_runs arg w v Harg Hmax) as (out & w' & E & _ & Hout).
    destruct (Hout Hne) as (r1 & r2 & r3 & r4 & -> & Hnames).
    injection Hnames as H1 H2 H3 H4.
    eexists. exists w'. split; [exact E|]. simpl.
    rewrite H1, H2, H3, H4. split; reflexivity.
Qed.

Lemma complexity_column_matches_names_witness :
  heap (sample_world sample) !! 1%positive = Some sample /\
  sample <> [] /\ vsize sample <= max_size /\
  exists rows w',
    runBenchmarkComparison 1 (sample_world sample) = Some (Table rows, w') /\
    col_algorithm <$> rows =
      displayName <$> [SelectionAlg; QuickAlg; MergeAlg; HeapAlg] /\
    col_complexity <$> rows =
      complexity_class <$> [SelectionAlg; QuickAlg; MergeAlg; HeapAlg].
Proof.
  split; [reflexivity|]. split; [discriminate|]. split; [vm_compute; discriminate|].
  apply (complexity_column_matches_names 1 (sample_world sample) sample);
    [reflexivity|discriminate|vm_compute; discriminate].
Defined.

(** C7. Benchmarking leaves the data of the caller as it was: after any
    sequence of calls of [benchmarkSort], with any of the four algorithms,
    and of [runBenchmarkComparison] on a vector, every call has returned
    and the vector, like every other vector of the caller, holds what it
    held before, element for element. *)
Theorem benchmarking_keeps_caller_data (calls : list Call) (arg : positive)
    (w : World) (v : vector) :
  heap w !! arg = Some v -> vsize v <= max_size ->
  exists w',
    run_calls calls arg w = Some w' /\
    heap w' !! arg = Some v /\ heap w' = heap w.
Proof.
  intros Harg Hmax.
  destruct (run_calls_frame calls arg w v Harg Hmax) as (w' & E & Hh).
  exists w'. split; [exact E|]. split; [rewrite Hh; exact Harg|exact Hh].
Qed.

Lemma benchmarking_keeps_caller_data_witness :
  heap (sample_world sample) !! 1%positive = Some sample /\
  vsize sample <= max_size /\
  exists w',
    run_calls [Run QuickAlg; Sweep; Run HeapAlg] 1 (sample_world sample) = Some w' /\
    heap w' !! 1%positive = Some sample /\ heap w' = heap (sample_world sample).
Proof.
  split; [reflexivity|]. split; [vm_compute; discriminate|].
  apply (benchmarking_keeps_caller_data [Run QuickAlg; Sweep; Run HeapAlg] 1
           (sample_world sample) sample);
    [reflexivity|vm_compute; discriminate].
Defined.

(** C8. Degenerate inputs are left as they are, and no call faults: a
    vector of length 0 or 1 by all four sorts (quick sort and merge sort on
    the full range, and on any range when the vector is empty), and any
    vector by quick sort and merge sort on a range with [begin >= end]. *)
Theorem degenerate_inputs_are_kept (bids : vector) (begin end_ : N) :
  ((length bids <= 1)%nat ->
   BidSorter.selectionSort bids = Some bids /\
   BidSorter.quickSort bids 0 (wsub (vsize bids) 1) = Some bids /\
   BidSorter.mergeSort bids 0 (wsub (vsize bids) 1) = Some bids /\
   BidSorter.heapSort bids = Some bids) /\
  (bids = [] \/ begin >= end_ ->
   BidSorter.quickSort bids begin end_ = Some bids /\
   BidSorter.mergeSort bids begin end_ = Some bids).
Proof.
  split.
  - intros Hlen. destruct bids as [|x [|y bids]]; [| |simpl in Hlen; lia].
    + repeat split; reflexivity.
    + apply sorts_single.
  - intros [->|Hge].
    + split; reflexivity.
    + split; [apply quickSort_degenerate|apply mergeSort_degenerate]; lia.
Qed.

Lemma degenerate_inputs_are_kept_witness :
  ((length [bid_of "1" "A"] <= 1)%nat /\
   BidSorter.selectionSort [bid_of "1" "A"] = Some [bid_of "1" "A"] /\
   BidSorter.quickSort [bid_of "1" "A"] 0 (wsub (vsize [bid_of "1" "A"]) 1)
     = Some [bid_of "1" "A"] /\
   BidSorter.mergeSort [bid_of "1" "A"] 0 (wsub (vsize [bid_of "1" "A"]) 1)
     = Some [bid_of "1" "A"] /\
   BidSorter.heapSort [bid_of "1" "A"] = Some [bid_of "1" "A"]) /\
  (2 >= 1 /\
   BidSorter.quickSort sample 2 1 = Some sample /\
   BidSorter.mergeSort sample 2 1 = Some sample).
Proof.
  split.
  - split; [simpl; lia|].
    apply (proj1 (degenerate_inputs_are_kept [bid_of "1" "A"] 0 0)). simpl. lia.
  - split; [lia|].
    apply (proj2 (degenerate_inputs_are_kept sample 2 1)). right. lia.
Defined.

(** C9, as stated: a benchmark run on a vector of length 0 or 1 yields a
    zero-size, zero-time result. On one record, with a clock that
    advances by 2.5 ms between its two readings, the run reports size 1
    and 2.5 ms. *)
Lemma singleton_benchmark_reports_size_one :
  exists r w',
    benchmarkSort (sortFunction_of SelectionAlg) 1 "Selection Sort"
      (sample_world [bid_of "1" "A"]) = Some (r, w') /\
    dataSize r = 1 /\ dataSize r <> 0 /\
    executionTimeMs r = S754_finite false 5629499534213120 (-51) /\
    executionTimeMs r <> S754_zero false.
Proof.
  eexists. eexists. split; [vm_compute; reflexivity|].
  split; [reflexivity|]. split; [discriminate|].
  split; [reflexivity|discriminate].
Qed.

(** C9, amended. On the empty vector a benchmark run returns the
    zero-size, zero-time result whatever the sort function is: the
    function is not called, the clock is not read, the world is as before.
    On a vector of one record the run calls the sort, which changes
    nothing, reads the clock twice, and reports size 1 with the time
    between the two readings. *)
Theorem benchmark_of_degenerate_input (arg : positive) (name : string) (w : World) :
  (forall sortFunction,
     heap w !! arg = Some [] ->
     benchmarkSort sortFunction arg name w
       = Some (mkBenchmarkResult name 0 (S754_zero false), w)) /\
  (forall a x,
     heap w !! arg = Some [x] ->
     benchmarkSort (sortFunction_of a) arg name w
       = Some (mkBenchmarkResult name 1
                 (double_div
                    (double_of_Z
                       (Z.quot (ticks w (S (reads w)) - ticks w (reads w)) 1000))
                    (double_of_Z 1000)),
               mkWorld (heap w) (ticks w) (S (S (reads w))))).
Proof.
  split.
  - intros sortFunction Harg. apply benchmarkSort_empty. exact Harg.
  - intros a x Harg.
    rewrite (benchmarkSort_eval (sortFunction_of a) arg name w [x] [x] Harg);
      [reflexivity|discriminate|].
    destruct (sorts_single x) as (H1 & H2 & H3 & H4). destruct a; assumption.
Qed.

Lemma benchmark_of_degenerate_input_witness :
  heap (sample_world []) !! 1%positive = Some [] /\
  benchmarkSort (WholeVector (fun _ => None)) 1 "Selection Sort" (sample_world [])
    = Some (mkBenchmarkResult "Selection Sort" 0 (S754_zero false), sample_world []).
Proof.
  split; [reflexivity|].
  apply (proj1 (benchmark_of_degenerate_input 1 "Selection Sort" (sample_world []))).
  reflexivity.
Defined.

(** C10. On valid inputs the original and the enhanced engine agree: on
    every non-empty vector both selection sorts return, and return the
    same vector; on every range [begin <= end < length] of it both quick
    sorts return, and return the same vector. *)
Theorem original_and_enhanced_agree (bids : vector) (begin end_ : N) :
  bids <> [] -> vsize bids <= max_size ->
  (exists out,
     Original.selectionSort bids = Some out /\
     BidSorter.selectionSort bids = Some out) /\
  (begin <= end_ -> end_ < vsize bids ->
   exists out,
     Original.quickSort bids begin end_ = Some out /\
     BidSorter.quickSort bids begin end_ = Some out).
Proof.
  intros Hne Hmax. pose proof (max_size_fits bids Hmax) as Hv2.
  assert (Hv : vsize bids < SIZE_MOD) by lia.
  assert (Hpos : 0 < vsize bids).
  { destruct bids; [contradiction|]. unfold vsize. simpl. lia. }
  split.
  - destruct (selectionSort_spec bids Hv) as (out & H & _).
    exists out. split; [|exact H]. rewrite <- H.
    unfold Original.selectionSort, BidSorter.selectionSort.
    destruct (N.eqb_spec (vsize bids) 0); [lia|].
    apply selection_loop_same; auto; unfold vsize in *; lia.
  - intros Hbe Hend.
    destruct (quickSort_rec_spec (length bids) bids begin end_) as (out & H1 & H2 & _);
      auto.
    { unfold vsize in *. lia. }
    exists out. split; assumption.
Qed.

Lemma original_and_enhanced_agree_witness :
  sample <> [] /\ vsize sample <= max_size /\
  (exists out,
     Original.selectionSort sample = Some out /\
     BidSorter.selectionSort sample = Some out) /\
  (0 <= 2 -> 2 < vsize sample ->
   exists out,
     Original.quickSort sample 0 2 = Some out /\
     BidSorter.quickSort sample 0 2 = Some out).
Proof.
  split; [discriminate|]. split; [vm_compute; discriminate|].
  apply (original_and_enhanced_agree sample 0 2);
    [discriminate|vm_compute; discriminate].
Defined.

(** * Further properties of the engine *)

(** ** Partition and the ranged sorts *)

(** X1. [partition] on a range [[begin, end]] with [begin < end] inside
    the vector returns, in both engines alike, a split point [r] with
    [begin <= r < end] and a vector that is a permutation of the input,
    unchanged outside of the range, in which no title of [[begin, r]] is
    above the pivot and no title of [[r + 1, end]] is below it. *)
Theorem partition_splits_at_pivot (bids : vector) (begin end_ : N) :
  begin < end_ -> end_ < vsize bids -> vsize bids <= max_size ->
  exists r out tr pivot,
    BidSorter.partition bids begin end_ = Some (r, out, tr) /\
    Original.partition bids begin end_ = Some (r, out, tr) /\
    begin <= r < end_ /\ out ≡ₚ bids /\
    (forall k, k < begin \/ end_ < k -> at_ out k = at_ bids k) /\
    (forall k x, begin <= k <= r -> at_ out k = Some x ->
                 String.leb (title x) pivot = true) /\
    (forall k x, r < k <= end_ -> at_ out k = Some x ->
                 String.leb pivot (title x) = true).
Proof.
  intros Hbe Hend Hmax. pose proof (max_size_fits bids Hmax) as Hv.
  destruct (partition_spec bids begin end_) as (r & out & tr & pv & H1 & H2 & Hr & Hex & Hle & Hge & _);
    try lia.
  exists r, out, tr, pv. split; [exact H1|]. split; [exact H2|]. split; [exact Hr|].
  split; [eapply exch_perm; exact Hex|]. split.
  - intros k Hk. eapply exch_outside; eauto.
  - split; intros k x Hk Hx; rewrite StrOrd.leb_ltb.
    + rewrite (Hle k x Hk Hx). reflexivity.
    + rewrite (Hge k x Hk Hx). reflexivity.
Qed.

Lemma partition_splits_at_pivot_witness :
  0 < 2 /\ 2 < vsize sample /\ vsize sample <= max_size /\
  exists r out tr pivot,
    BidSorter.partition sample 0 2 = Some (r, out, tr) /\
    Original.partition sample 0 2 = Some (r, out, tr) /\
    0 <= r < 2 /\ out ≡ₚ sample /\
    (forall k, k < 0 \/ 2 < k -> at_ out k = at_ sample k) /\
    (forall k x, 0 <= k <= r -> at_ out k = Some x ->
                 String.leb (title x) pivot = true) /\
    (forall k x, r < k <= 2 -> at_ out k = Some x ->
                 String.leb pivot (title x) = true).
Proof.
  split; [lia|]. split; [vm_compute; reflexivity|]. split; [vm_compute; discriminate|].
  apply (partition_splits_at_pivot sample 0 2);
    [lia|vm_compute; reflexivity|vm_compute; discriminate].
Defined.

Lemma sorted_range_leb (bids : vector) (lo hi : N) :
  sorted_range bids lo hi <->
  (forall p q x y, lo <= p -> p < q -> q <= hi ->
     at_ bids p = Some x -> at_ bids q = Some y ->
     String.leb (title x) (title y) = true).
Proof.
  split; intros H p q x y Hp Hpq Hq Hx Hy.
  - apply tle_title_le. eapply H; eauto.
  - apply tle_title_le. eapply H; eauto.
Qed.

(** X2. [quickSort] on a range [[begin, end]] inside the vector returns
    a vector whose range is ascending by title; it is a permutation of
    the input and is unchanged outside of the range. *)
Theorem quickSort_sorts_its_range (bids : vector) (begin end_ : N) :
  begin <= end_ -> end_ < vsize bids -> vsize bids <= max_size ->
  exists out,
    BidSorter.quickSort bids begin end_ = Some out /\
    out ≡ₚ bids /\
    (forall k, k < begin \/ end_ < k -> at_ out k = at_ bids k) /\
    (forall p q x y, begin <= p -> p < q -> q <= end_ ->
       at_ out p = Some x -> at_ out q = Some y ->
       String.leb (title x) (title y) = true).
Proof.
  intros Hbe Hend Hmax. pose proof (max_size_fits bids Hmax) as Hv.
  destruct (quickSort_range_spec bids begin end_) as (out & H & Hp & Hs & Ho); try lia.
  exists out. split; [exact H|]. split; [exact Hp|]. split; [exact Ho|].
  apply sorted_range_leb. exact Hs.
Qed.

Lemma quickSort_sorts_its_range_witness :
  1 <= 2 /\ 2 < vsize sample /\ vsize sample <= max_size /\
  exists out,
    BidSorter.quickSort sample 1 2 = Some out /\
    out ≡ₚ sample /\
    (forall k, k < 1 \/ 2 < k -> at_ out k = at_ sample k) /\
    (forall p q x y, 1 <= p -> p < q -> q <= 2 ->
       at_ out p = Some x -> at_ out q = Some y ->
       String.leb (title x) (title y) = true).
Proof.
  split; [lia|]. split; [vm_compute; reflexivity|]. split; [vm_compute; discriminate|].
  apply (quickSort_sorts_its_range sample 1 2);
    [lia|vm_compute; reflexivity|vm_compute; discriminate].
Defined.

(** ** Vectors cut at two positions *)

Lemma split3 (bids : vector) (lo hi : N) :
  lo <= hi -> hi < vsize bids ->
  exists pre seg post,
    bids = pre ++ seg ++ post /\
    lo = N.of_nat (length pre) /\ hi + 1 = lo + N.of_nat (length seg).
Proof.
  intros Hlh Hh.
  exists (take (N.to_nat lo) bids),
         (take (N.to_nat (hi + 1 - lo)) (drop (N.to_nat lo) bids)),
         (drop (N.to_nat (hi + 1)) bids).
  unfold vsize in *. repeat split.
  - replace (N.to_nat (hi + 1)) with (N.to_nat lo + N.to_nat (hi + 1 - lo))%nat by lia.
    rewrite <- drop_drop, !take_drop. reflexivity.
  - rewrite length_take. lia.
  - rewrite length_take, length_drop. lia.
Qed.

Lemma at_app3_mid (pre s post : vector) (k : N) :
  N.of_nat (length pre) <= k -> k < N.of_nat (length pre) + N.of_nat (length s) ->
  at_ (pre ++ s ++ post) k = s !! (N.to_nat k - length pre)%nat.
Proof.
  intros H1 H2. unfold at_. rewrite lookup_app_r by lia.
  rewrite lookup_app_l by lia. reflexivity.
Qed.

Lemma at_app3_outside (pre s s' post : vector) (k : N) :
  length s = length s' ->
  k < N.of_nat (length pre) \/ N.of_nat (length pre) + N.of_nat (length s) <= k ->
  at_ (pre ++ s' ++ post) k = at_ (pre ++ s ++ post) k.
Proof.
  intros Hlen [Hk|Hk]; unfold at_.
  - rewrite !lookup_app_l by lia. reflexivity.
  - rewrite !(lookup_app_r pre) by lia. rewrite !lookup_app_r by lia.
    rewrite Hlen. reflexivity.
Qed.

Lemma sorted_range_app3 (pre s post : vector) (lo hi : N) :
  lo = N.of_nat (length pre) -> hi + 1 = lo + N.of_nat (length s) ->
  (sorted_range (pre ++ s ++ post) lo hi <-> StronglySorted tle s).
Proof.
  intros Hlo Hhi. rewrite StronglySorted_ascending. split.
  - intros H i j x y Hij Hx Hy. apply tle_title_le.
    pose proof (lookup_lt_Some _ _ _ Hy) as Hj.
    apply (H (lo + N.of_nat i) (lo + N.of_nat j)); try lia.
    + rewrite at_app3_mid by lia. rewrite <- Hx. f_equal. lia.
    + rewrite at_app3_mid by lia. rewrite <- Hy. f_equal. lia.
  - intros H p q x y Hp Hpq Hq Hx Hy. apply tle_title_le.
    rewrite at_app3_mid in Hx, Hy by lia.
    apply (H (N.to_nat p - length pre)%nat (N.to_nat q - length pre)%nat x y);
      auto. lia.
Qed.

(** ** Merge and merge sort on a range *)

(** X3. [merge] on two adjacent ascending runs [[left, mid]] and
    [[mid + 1, right]] of a vector returns a vector whose range
    [[left, right]] is ascending; it is a permutation of the input, holds
    the records of every title in the order of the input, and is unchanged
    outside of the range. *)
Theorem merge_joins_sorted_runs (bids : vector) (left mid right : N) :
  left <= mid -> mid < right -> right < vsize bids -> vsize bids <= max_size ->
  sorted_range bids left mid -> sorted_range bids (mid + 1) right ->
  exists out,
    BidSorter.merge bids left mid right = Some out /\
    sorted_range out left right /\ out ≡ₚ bids /\
    (forall t, with_title t out = with_title t bids) /\
    (forall k, k < left \/ right < k -> at_ out k = at_ bids k).
Proof.
  intros Hlm Hmr Hr Hmax Hs1 Hs2. pose proof (max_size_fits bids Hmax) as Hv.
  destruct (split3 bids left right) as (pre & seg & post & -> & Hpre & Hseg); try lia.
  set (n1 := N.to_nat (mid + 1 - left)).
  pose proof (take_drop n1 seg) as Hsplit.
  assert (Hlen1 : length (take n1 seg) = n1) by (rewrite length_take; lia).
  assert (Hlen2 : length (drop n1 seg) = (length seg - n1)%nat) by apply length_drop.
  remember (take n1 seg) as s1 eqn:E1. remember (drop n1 seg) as s2 eqn:E2.
  clear E1 E2. subst seg. rewrite length_app in Hseg, Hlen2.
  rewrite <- (app_assoc s1 s2 post) in *.
  assert (Hst1 : StronglySorted tle s1).
  { apply (sorted_range_app3 pre s1 (s2 ++ post) left mid); auto. lia. }
  assert (Hst2 : StronglySorted tle s2).
  { apply (sorted_range_app3 (pre ++ s1) s2 post (mid + 1) right).
    - rewrite length_app. lia.
    - lia.
    - rewrite <- app_assoc. exact Hs2. }
  exists (pre ++ list_merge tle s1 s2 ++ post).
  assert (Hperm : list_merge tle s1 s2 ≡ₚ s1 ++ s2) by apply merge_Permutation.
  split; [apply merge_spec; try lia; unfold vsize in *; lia|]. split; [|split; [|split]].
  - apply sorted_range_app3; auto.
    + rewrite (Permutation_length Hperm), length_app. lia.
    + apply Sorted_StronglySorted; [apply _|].
      apply Sorted_list_merge; [apply _| |]; apply StronglySorted_Sorted; assumption.
  - rewrite Hperm, <- app_assoc. reflexivity.
  - intros t. rewrite !with_title_app, list_merge_with_title by exact Hst1.
    rewrite <- app_assoc. reflexivity.
  - intros k Hk. rewrite (app_assoc s1 s2 post).
    apply at_app3_outside.
    + rewrite (Permutation_length Hperm). reflexivity.
    + rewrite length_app. lia.
Qed.

Lemma merge_joins_sorted_runs_witness :
  1 <= 1 /\ 1 < 2 /\ 2 < vsize sample /\ vsize sample <= max_size /\
  sorted_range sample 1 1 /\ sorted_range sample 2 2 /\
  exists out,
    BidSorter.merge sample 1 1 2 = Some out /\
    sorted_range out 1 2 /\ out ≡ₚ sample /\
    (forall t, with_title t out = with_title t sample) /\
    (forall k, k < 1 \/ 2 < k -> at_ out k = at_ sample k).
Proof.
  assert (H1 : sorted_range sample 1 1) by (intros p q x y; lia).
  assert (H2 : sorted_range sample 2 2) by (intros p q x y; lia).
  split; [lia|]. split; [lia|]. split; [vm_compute; reflexivity|].
  split; [vm_compute; discriminate|]. split; [exact H1|]. split; [exact H2|].
  apply (merge_joins_sorted_runs sample 1 1 2);
    [lia|lia|vm_compute; reflexivity|vm_compute; discriminate|exact H1|exact H2].
Defined.

(** X4. [mergeSort] on a range [[left, right]] inside the vector returns a
    vector whose range is ascending; it is a permutation of the input,
    holds the records of every title in the order of the input (it is
    stable), and is unchanged outside of the range. *)
Theorem mergeSort_sorts_its_range (bids : vector) (left right : N) :
  left <= right -> right < vsize bids -> vsize bids <= max_size ->
  exists out,
    BidSorter.mergeSort bids left right = Some out /\
    sorted_range out left right /\ out ≡ₚ bids /\
    (forall t, with_title t out = with_title t bids) /\
    (forall k, k < left \/ right < k -> at_ out k = at_ bids k).
Proof.
  intros Hlr Hr Hmax. pose proof (max_size_fits bids Hmax) as Hv.
  destruct (split3 bids left right) as (pre & seg & post & Hb & Hpre & Hseg); try lia.
  destruct (mergeSort_rec_spec (length bids) pre seg post left right)
    as (s & Hs & Hp & Hst & Ht & _); try lia.
  { rewrite <- Hb. lia. }
  { rewrite Hb at 1. rewrite !length_app. lia. }
  exists (pre ++ s ++ post). unfold BidSorter.mergeSort. rewrite Hb at 2.
  split; [exact Hs|]. rewrite Hb. split; [|split; [|split]].
  - apply sorted_range_app3; auto. rewrite (Permutation_length Hp). exact Hseg.
  - rewrite Hp. reflexivity.
  - intros t. rewrite !with_title_app, Ht. reflexivity.
  - intros k Hk. apply at_app3_outside.
    + rewrite (Permutation_length Hp). reflexivity.
    + lia.
Qed.

Lemma mergeSort_sorts_its_range_witness :
  0 <= 1 /\ 1 < vsize sample /\ vsize sample <= max_size /\
  exists out,
    BidSorter.mergeSort sample 0 1 = Some out /\
    sorted_range out 0 1 /\ out ≡ₚ sample /\
    (forall t, with_title t out = with_title t sample) /\
    (forall k, k < 0 \/ 1 < k -> at_ out k = at_ sample k).
Proof.
  split; [lia|]. split; [vm_compute; reflexivity|]. split; [vm_compute; discriminate|].
  apply (mergeSort_sorts_its_range sample 0 1);
    [lia|vm_compute; reflexivity|vm_compute; discriminate].
Defined.

(** ** Sift-down *)

(** X5. [heapify(n, i)], called when no child below position [i]
    exceeds its parent, returns a vector in which no child from position
    [i] on exceeds its parent; only positions of [[i, n - 1]] change, and
    the result is a permutation of the input. *)
Theorem heapify_restores_the_heap (bids : vector) (n i : N) :
  n <= vsize bids -> i < n -> vsize bids <= max_size ->
  heap_ok bids n (i + 1) ->
  exists out,
    BidSorter.heapify bids n i = Some out /\
    heap_ok out n i /\ out ≡ₚ bids /\
    (forall k, k < i \/ n <= k -> at_ out k = at_ bids k).
Proof.
  intros Hn Hi Hmax Hheap. pose proof (max_size_fits bids Hmax) as Hv.
  destruct (heapify_heap bids n i) as (out & H & Hex & Hh); try lia.
  exists out. split; [exact H|]. split; [|split].
  - apply Hh; [lia|]. split.
    + intros p c xp xc Hp Hpi. apply Hheap. lia.
    + intros p c xp xc Hp Hpar. lia.
  - eapply exch_perm. exact Hex.
  - intros k Hk. eapply exch_outside; [exact Hex|]. lia.
Qed.

Lemma heapify_restores_the_heap_witness :
  3 <= vsize sample /\ 0 < 3 /\ vsize sample <= max_size /\
  heap_ok sample 3 (0 + 1) /\
  exists out,
    BidSorter.heapify sample 3 0 = Some out /\
    heap_ok out 3 0 /\ out ≡ₚ sample /\
    (forall k, k < 0 \/ 3 <= k -> at_ out k = at_ sample k).
Proof.
  assert (H : heap_ok sample 3 (0 + 1)) by (intros p c xp xc; lia).
  split; [vm_compute; discriminate|]. split; [lia|].
  split; [vm_compute; discriminate|]. split; [exact H|].
  apply (heapify_restores_the_heap sample 3 0);
    [vm_compute; discriminate|lia|vm_compute; discriminate|exact H].
Defined.

(** ** The minimum that selection sort picks *)

Lemma find_min_first (bids : vector) (size : N) :
  size = vsize bids -> size < SIZE_MOD ->
  forall fuel j m,
    m < j -> j <= size -> (N.to_nat (size - j) <= fuel)%nat ->
    exists r xr,
      BidSorter.find_min fuel bids size j m = Some r /\ at_ bids r = Some xr /\
      (r = m \/ j <= r) /\ r < size /\
      (forall q y, j <= q < r -> at_ bids q = Some y -> title_lt xr y = true) /\
      (forall y, r <> m -> at_ bids m = Some y -> title_lt xr y = true).
Proof.
  intros Hsize Hmod. induction fuel as [|fuel IH]; intros j m Hm Hj Hfuel.
  - assert (j = size) as -> by lia.
    destruct (at_is_Some bids m) as [xm Hxm]; [lia|].
    exists m, xm. simpl. rewrite N.ltb_irrefl.
    repeat split; auto; try lia; try (intros y Hne; contradiction).
  - destruct (at_is_Some bids m) as [xm Hxm]; [lia|].
    simpl. destruct (N.ltb_spec j size) as [Hlt|Hge].
    + destruct (at_is_Some bids j) as [xj Hxj]; [lia|].
      rewrite Hxj, Hxm. simpl. rewrite wadd_small by lia.
      destruct (title_lt xj xm) eqn:Hjm.
      * destruct (IH (j + 1) j) as (r & xr & Hr & Hxr & Hrange & Hrs & Hbefore & Hm');
          try lia.
        exists r, xr. split; [exact Hr|]. split; [exact Hxr|].
        split; [right; lia|]. split; [exact Hrs|]. split.
        -- intros q y Hq Hy. destruct (N.eq_dec q j) as [->|Hne].
           ++ apply Hm'; [lia|exact Hy].
           ++ apply (Hbefore q); [lia|exact Hy].
        -- intros y _ Hy. replace y with xm by congruence.
           destruct (N.eq_dec r j) as [->|Hne].
           ++ replace xr with xj by congruence. exact Hjm.
           ++ unfold title_lt in *. eapply StrOrd.ltb_trans; [|exact Hjm].
              apply (Hm' xj Hne Hxj).
      * destruct (IH (j + 1) m) as (r & xr & Hr & Hxr & Hrange & Hrs & Hbefore & Hm');
          try lia.
        exists r, xr. split; [exact Hr|]. split; [exact Hxr|].
        split; [destruct Hrange; [left; assumption|right; lia]|].
        split; [exact Hrs|]. split.
        -- intros q y Hq Hy. destruct (N.eq_dec q j) as [->|Hne].
           ++ replace y with xj by congruence.
              assert (r <> m) by lia.
              unfold title_lt in *. eapply StrOrd.lt_nlt_trans; [|exact Hjm].
              apply (Hm' xm H Hxm).
           ++ apply (Hbefore q); [lia|exact Hy].
        -- intros y Hne Hy. apply Hm'; [exact Hne|congruence].
    + assert (j = size) as -> by lia.
      exists m, xm. repeat split; auto; try lia; try (intros y Hne; contradiction).
Qed.

(** X6. The inner loop of [selectionSort], started at position [i],
    returns the first position of [[i, size)] that holds a smallest title:
    no record from [i] on has a smaller title, and every record before the
    position has a larger one. *)
Theorem selection_picks_first_minimum (bids : vector) (i : N) :
  i < vsize bids -> vsize bids <= max_size ->
  exists r xr,
    BidSorter.find_min (length bids) bids (vsize bids) (wadd i 1) i = Some r /\
    i <= r < vsize bids /\ at_ bids r = Some xr /\
    (forall q y, i <= q -> at_ bids q = Some y -> title_lt y xr = false) /\
    (forall q y, i <= q < r -> at_ bids q = Some y -> title_lt xr y = true).
Proof.
  intros Hi Hmax. pose proof (max_size_fits bids Hmax) as Hv.
  rewrite wadd_small by lia.
  destruct (find_min_spec bids (vsize bids) eq_refl ltac:(lia) (length bids) (i + 1) i)
    as (r & xr & Hr & Hxr & Hrange & Hmin & _); try lia.
  { unfold vsize. lia. }
  destruct (find_min_first bids (vsize bids) eq_refl ltac:(lia) (length bids) (i + 1) i)
    as (r' & xr' & Hr' & Hxr' & _ & Hrs & Hbefore & Hm); try lia.
  { unfold vsize. lia. }
  assert (r' = r) as -> by congruence. assert (xr' = xr) as -> by congruence.
  exists r, xr. split; [exact Hr|]. split; [lia|]. split; [exact Hxr|]. split.
  - intros q y Hq Hy. apply (Hmin q y); [|exact Hy].
    destruct (N.eq_dec q i); [left; assumption|right; lia].
  - intros q y Hq Hy. destruct (N.eq_dec q i) as [->|Hne].
    + apply Hm; [lia|exact Hy].
    + apply (Hbefore q); [lia|exact Hy].
Qed.

Lemma selection_picks_first_minimum_witness :
  0 < vsize sample /\ vsize sample <= max_size /\
  exists r xr,
    BidSorter.find_min (length sample) sample (vsize sample) (wadd 0 1) 0 = Some r /\
    0 <= r < vsize sample /\ at_ sample r = Some xr /\
    (forall q y, 0 <= q -> at_ sample q = Some y -> title_lt y xr = false) /\
    (forall q y, 0 <= q < r -> at_ sample q = Some y -> title_lt xr y = true).
Proof.
  split; [vm_compute; reflexivity|]. split; [vm_compute; discriminate|].
  apply (selection_picks_first_minimum sample 0);
    [vm_compute; reflexivity|vm_compute; discriminate].
Defined.

(** ** The four sorts against each other *)

Lemma same_titles_same_records (a b : vector) :
  a ≡ₚ b -> title <$> a = title <$> b -> NoDup (title <$> a) -> a = b.
Proof.
  intros Hp Ht Hnd. apply list_eq. intros k.
  assert (Hlen : length a = length b) by (apply Permutation_length; exact Hp).
  destruct (a !! k) as [x|] eqn:Hx.
  - destruct (lookup_lt_is_Some_2 b k) as [y Hy].
    { rewrite <- Hlen. eapply lookup_lt_Some. exact Hx. }
    rewrite Hy. f_equal.
    assert (Hya : y ∈ a).
    { rewrite Hp. eapply list_elem_of_lookup_2. exact Hy. }
    apply list_elem_of_lookup_1 in Hya as [k' Hk'].
    assert (H1 : (title <$> a) !! k = Some (title x))
      by (rewrite list_lookup_fmap, Hx; reflexivity).
    assert (H2 : (title <$> a) !! k' = Some (title y))
      by (rewrite list_lookup_fmap, Hk'; reflexivity).
    assert (H3 : (title <$> b) !! k = Some (title y))
      by (rewrite list_lookup_fmap, Hy; reflexivity).
    rewrite <- Ht, H1 in H3. injection H3 as H3. rewrite <- H3 in H2.
    pose proof (NoDup_lookup _ _ _ _ Hnd H1 H2) as <-. congruence.
  - symmetry. apply lookup_ge_None. rewrite <- Hlen. apply lookup_ge_None. exact Hx.
Qed.

(** X7. On every vector of at most [2^32 + 1] records the four sorts
    return vectors that show the same sequence of titles; when no two
    records share a title, they return the same vector. *)
Theorem the_four_sorts_agree (bids : vector) :
  vsize bids <= HEAP_MAX ->
  exists sel quick merge heap,
    BidSorter.selectionSort bids = Some sel /\
    BidSorter.quickSort bids 0 (wsub (vsize bids) 1) = Some quick /\
    BidSorter.mergeSort bids 0 (wsub (vsize bids) 1) = Some merge /\
    BidSorter.heapSort bids = Some heap /\
    title <$> sel = title <$> merge /\
    title <$> quick = title <$> merge /\
    title <$> heap = title <$> merge /\
    (NoDup (title <$> bids) -> sel = merge /\ quick = merge /\ heap = merge).
Proof.
  intros Hheap.
  assert (Hmax : vsize bids <= max_size) by (unfold HEAP_MAX, max_size in *; lia).
  pose proof (max_size_fits bids Hmax) as Hv2.
  assert (Hv : vsize bids < SIZE_MOD) by lia.
  destruct (selectionSort_spec bids Hv) as (o1 & H1 & Hp1 & Hs1 & _).
  destruct (quickSort_spec bids Hv) as (o2 & H2 & Hp2 & Hs2).
  destruct (mergeSort_spec bids Hv) as (o3 & H3 & Hp3 & Hs3 & _).
  destruct (heapSort_spec bids Hv2) as (o4 & H4 & Hp4 & Hs4).
  apply StronglySorted_ascending in Hs3. specialize (Hs4 Hheap).
  assert (T1 : title <$> o1 = title <$> o3).
  { apply ascending_titles_unique; auto. rewrite Hp1, Hp3. reflexivity. }
  assert (T2 : title <$> o2 = title <$> o3).
  { apply ascending_titles_unique; auto. rewrite Hp2, Hp3. reflexivity. }
  assert (T4 : title <$> o4 = title <$> o3).
  { apply ascending_titles_unique; auto. rewrite Hp4, Hp3. reflexivity. }
  exists o1, o2, o3, o4. repeat (split; [assumption|]).
  intros Hnd. repeat split; apply same_titles_same_records; auto.
  - rewrite Hp1, Hp3. reflexivity.
  - rewrite Hp1. exact Hnd.
  - rewrite Hp2, Hp3. reflexivity.
  - rewrite Hp2. exact Hnd.
  - rewrite Hp4, Hp3. reflexivity.
  - rewrite Hp4. exact Hnd.
Qed.

Lemma the_four_sorts_agree_witness :
  vsize sample <= HEAP_MAX /\
  exists sel quick merge heap,
    BidSorter.selectionSort sample = Some sel /\
    BidSorter.quickSort sample 0 (wsub (vsize sample) 1) = Some quick /\
    BidSorter.mergeSort sample 0 (wsub (vsize sample) 1) = Some merge /\
    BidSorter.heapSort sample = Some heap /\
    title <$> sel = title <$> merge /\
    title <$> quick = title <$> merge /\
    title <$> heap = title <$> merge /\
    (NoDup (title <$> sample) -> sel = merge /\ quick = merge /\ heap = merge).
Proof.
  split; [vm_compute; discriminate|].
  apply (the_four_sorts_agree sample). vm_compute. discriminate.
Defined.

(** ** Ranges that end outside of the vector *)

Lemma scan_high_end_outside fuel (bids : vector) pivot (begin end_ : N) :
  begin <= end_ -> vsize bids <= end_ ->
  BidSorter.scan_high fuel bids pivot begin end_ = None.
Proof.
  intros Hbe Hend. destruct fuel; [reflexivity|]. simpl.
  destruct (N.leb_spec begin end_); [|lia].
  unfold at_. rewrite lookup_ge_None_2; [reflexivity|]. unfold vsize in *. lia.
Qed.

Lemma Original_scan_high_end_outside fuel (bids : vector) pivot (end_ : N) :
  vsize bids <= end_ -> Original.scan_high fuel bids pivot end_ = None.
Proof.
  intros Hend. destruct fuel; [reflexivity|]. simpl.
  unfold at_. rewrite lookup_ge_None_2; [reflexivity|]. unfold vsize in *. lia.
Qed.

Lemma partition_end_outside (bids : vector) (begin end_ : N) :
  begin < end_ -> vsize bids <= end_ ->
  BidSorter.partition bids begin end_ = None /\
  Original.partition bids begin end_ = None.
Proof.
  intros Hbe Hend. unfold BidSorter.partition, Original.partition.
  destruct (N.leb_spec end_ begin); [lia|].
  destruct (at_ bids _) as [b|]; [|split; reflexivity].
  cbn [mbind option_bind BidSorter.partition_loop Original.partition_loop]. split.
  - destruct (BidSorter.scan_low _ _ _ _ _) as [[l tr]|]; [|reflexivity].
    cbn [mbind option_bind]. rewrite scan_high_end_outside by lia. reflexivity.
  - destruct (Original.scan_low _ _ _ _) as [[l tr]|]; [|reflexivity].
    cbn [mbind option_bind]. rewrite Original_scan_high_end_outside by lia. reflexivity.
Qed.

Lemma assign_vsize (bids out : vector) k x :
  assign bids k x = Some out -> vsize out = vsize bids.
Proof.
  unfold assign. destruct (k <? vsize bids); [|discriminate].
  intros [= <-]. unfold vsize. rewrite length_insert. reflexivity.
Qed.

Lemma merge_rest_vsize fuel :
  forall (bids buffer out : vector) i k k',
    BidSorter.merge_rest fuel bids buffer i k = Some (out, k') ->
    vsize out = vsize bids.
Proof.
  induction fuel as [|fuel IH]; intros bids buffer out i k k'; simpl;
    destruct (i <? vsize buffer); try discriminate; try (intros [= <- _]; reflexivity).
  destruct (at_ buffer i) as [x|]; [|discriminate]. simpl.
  destruct (assign bids k x) as [b|] eqn:Ha; [|discriminate]. simpl.
  intros H. rewrite (IH _ _ _ _ _ _ H). eapply assign_vsize. exact Ha.
Qed.

Lemma merge_both_vsize fuel :
  forall (bids L R out : vector) i j k i' j' k',
    BidSorter.merge_both fuel bids L R i j k = Some (out, i', j', k') ->
    vsize out = vsize bids.
Proof.
  induction fuel as [|fuel IH]; intros bids L R out i j k i' j' k'; simpl;
    destruct ((i <? vsize L) && (j <? vsize R)); try discriminate;
    try (intros [= <- _ _ _]; reflexivity).
  destruct (at_ L i) as [x|]; [|discriminate]. simpl.
  destruct (at_ R j) as [y|]; [|discriminate]. simpl.
  destruct (title_le x y).
  - destruct (assign bids k x) as [b|] eqn:Ha; [|discriminate]. simpl.
    intros H. rewrite (IH _ _ _ _ _ _ _ _ _ _ H). eapply assign_vsize. exact Ha.
  - destruct (assign bids k y) as [b|] eqn:Ha; [|discriminate]. simpl.
    intros H. rewrite (IH _ _ _ _ _ _ _ _ _ _ H). eapply assign_vsize. exact Ha.
Qed.

Lemma merge_vsize (bids out : vector) left mid right :
  BidSorter.merge bids left mid right = Some out -> vsize out = vsize bids.
Proof.
  unfold BidSorter.merge.
  destruct (slice bids left _) as [L|]; [|discriminate]. cbn [mbind option_bind].
  destruct (slice bids _ _) as [R|]; [|discriminate]. cbn [mbind option_bind].
  destruct (BidSorter.merge_both _ _ _ _ _ _ _) as [[[[b3 i] j] k]|] eqn:H3;
    [|discriminate]. cbn [mbind option_bind].
  destruct (BidSorter.merge_rest _ b3 L i k) as [[b4 k4]|] eqn:H4; [|discriminate].
  cbn [mbind option_bind].
  destruct (BidSorter.merge_rest _ b4 R j k4) as [[b5 k5]|] eqn:H5; [|discriminate].
  cbn [mbind option_bind]. intros [= <-].
  apply merge_rest_vsize in H5. apply merge_rest_vsize in H4.
  apply merge_both_vsize in H3. congruence.
Qed.

Lemma mergeSort_rec_vsize fuel :
  forall (bids out : vector) left right,
    BidSorter.mergeSort_rec fuel bids left right = Some out ->
    vsize out = vsize bids.
Proof.
  induction fuel as [|fuel IH]; intros bids out left right; simpl;
    destruct ((vsize bids =? 0) || (right <=? left)); try discriminate;
    try (intros [= <-]; reflexivity).
  destruct (BidSorter.mergeSort_rec fuel bids left _) as [b1|] eqn:H1; [|discriminate].
  simpl.
  destruct (BidSorter.mergeSort_rec fuel b1 _ right) as [b2|] eqn:H2; [|discriminate].
  simpl. intros H3. apply merge_vsize in H3. apply IH in H2. apply IH in H1.
  congruence.
Qed.

(** X8. The ranged sorts of the enhanced engine test only for an empty
    vector and for [begin >= end]: on a non-empty vector and a range with
    [begin < end] whose end is not a position of the vector, [quickSort]
    and [mergeSort] have no result, with whatever fuel, because the
    element [bids[end]] that they read does not exist. *)
Theorem ranged_sorts_need_the_end_inside (fuel : nat) (bids : vector)
    (begin end_ : N) :
  bids <> [] -> begin < end_ -> vsize bids <= end_ ->
  at_ bids end_ = None /\
  BidSorter.partition bids begin end_ = None /\
  BidSorter.quickSort_rec fuel bids begin end_ = None /\
  BidSorter.quickSort bids begin end_ = None /\
  BidSorter.mergeSort_rec fuel bids begin end_ = None /\
  BidSorter.mergeSort bids begin end_ = None.
Proof.
  intros Hne Hbe Hend.
  assert (Hpos : vsize bids <> 0).
  { destruct bids; [contradiction|]. unfold vsize. simpl. lia. }
  assert (Hq : forall f, BidSorter.quickSort_rec f bids begin end_ = None).
  { intros f. destruct f; simpl;
      destruct (N.eqb_spec (vsize bids) 0); try contradiction;
      destruct (N.leb_spec end_ begin); try lia; simpl; [reflexivity|].
    rewrite (proj1 (partition_end_outside bids begin end_ Hbe Hend)). reflexivity. }
  assert (Hm : forall f, BidSorter.mergeSort_rec f bids begin end_ = None).
  { intros f. destruct f; simpl;
      destruct (N.eqb_spec (vsize bids) 0); try contradiction;
      destruct (N.leb_spec end_ begin); try lia; simpl; [reflexivity|].
    destruct (BidSorter.mergeSort_rec f bids begin _) as [b1|] eqn:H1; [|reflexivity].
    simpl.
    destruct (BidSorter.mergeSort_rec f b1 _ end_) as [b2|] eqn:H2; [|reflexivity].
    simpl. unfold BidSorter.merge.
    destruct (slice b2 begin _) as [L|]; [|reflexivity]. cbn [mbind option_bind].
    unfold slice.
    assert (Hsz : vsize b2 = vsize bids).
    { apply mergeSort_rec_vsize in H2. apply mergeSort_rec_vsize in H1. congruence. }
    destruct (N.leb_spec (end_ + 1) (vsize b2)); [lia|].
    rewrite andb_false_r. reflexivity. }
  split.
  { unfold at_. apply lookup_ge_None_2. unfold vsize in *. lia. }
  split; [apply partition_end_outside; assumption|].
  split; [apply Hq|]. split; [apply Hq|]. split; [apply Hm|apply Hm].
Qed.

Lemma ranged_sorts_need_the_end_inside_witness :
  sample <> [] /\ 0 < 3 /\ vsize sample <= 3 /\
  at_ sample 3 = None /\
  BidSorter.partition sample 0 3 = None /\
  BidSorter.quickSort_rec 100 sample 0 3 = None /\
  BidSorter.quickSort sample 0 3 = None /\
  BidSorter.mergeSort_rec 100 sample 0 3 = None /\
  BidSorter.mergeSort sample 0 3 = None.
Proof.
  split; [discriminate|]. split; [lia|]. split; [vm_compute; discriminate|].
  apply (ranged_sorts_need_the_end_inside 100 sample 0 3);
    [discriminate|lia|vm_compute; discriminate].
Defined.

(** ** The original engine *)

(** X9. The original engine has no test for the empty vector. Its
    [quickSort] reads [bids[end]] on every range with [begin < end],
    so it has no result, with whatever fuel, when [end] is not a position
    of the vector; that is the case of the call [quickSort(bids, 0,
    size - 1)] of [main] on the empty vector, where [size - 1] wraps
    around. Its [selectionSort] on the empty vector enters the loop, for
    the same reason, and exchanges [bids[0]] with itself. *)
Theorem original_engine_needs_a_record (fuel : nat) (bids : vector)
    (begin end_ : N) :
  (begin < end_ -> vsize bids <= end_ ->
   Original.partition bids begin end_ = None /\
   Original.quickSort_rec fuel bids begin end_ = None /\
   Original.quickSort bids begin end_ = None) /\
  (bids = [] ->
   Original.quickSort_rec fuel bids 0 (wsub (vsize bids) 1) = None /\
   Original.selection_loop fuel bids (vsize bids) 0 = None /\
   Original.selectionSort bids = None).
Proof.
  assert (Hq : forall f b e, b < e -> vsize bids <= e ->
                 Original.quickSort_rec f bids b e = None).
  { intros f b e Hbe Hend. destruct f; simpl;
      destruct (N.leb_spec e b); try lia; [reflexivity|].
    rewrite (proj2 (partition_end_outside bids b e Hbe Hend)). reflexivity. }
  split.
  - intros Hbe Hend. split; [apply partition_end_outside; assumption|].
    split; apply Hq; assumption.
  - intros ->. split; [apply Hq; vm_compute; [reflexivity|discriminate]|].
    split; [destruct fuel; reflexivity|reflexivity].
Qed.

Lemma original_engine_needs_a_record_witness :
  (0 < 3 /\ vsize sample <= 3 /\
   Original.partition sample 0 3 = None /\
   Original.quickSort_rec 100 sample 0 3 = None /\
   Original.quickSort sample 0 3 = None) /\
  (@nil Bid = [] /\
   Original.quickSort_rec 100 [] 0 (wsub (vsize []) 1) = None /\
   Original.selection_loop 100 [] (vsize []) 0 = None /\
   Original.selectionSort [] = None).
Proof.
  split.
  - split; [lia|]. split; [vm_compute; discriminate|].
    apply (proj1 (original_engine_needs_a_record 100 sample 0 3));
      [lia|vm_compute; discriminate].
  - split; [reflexivity|].
    apply (proj2 (original_engine_needs_a_record 100 [] 0 0)). reflexivity.
Defined.

(** X10. On every non-empty vector the two sorts of the original engine,
    called as its [main] calls them, return an ascending vector that is a
    permutation of the input. *)
Theorem original_engine_sorts (bids : vector) :
  bids <> [] -> vsize bids <= max_size ->
  (exists out,
     Original.selectionSort bids = Some out /\ ascending out /\ out ≡ₚ bids) /\
  (exists out,
     Original.quickSort bids 0 (wsub (vsize bids) 1) = Some out /\
     ascending out /\ out ≡ₚ bids).
Proof.
  intros Hne Hmax. pose proof (max_size_fits bids Hmax) as Hv2.
  assert (Hv : vsize bids < SIZE_MOD) by lia.
  assert (Hpos : 0 < vsize bids).
  { destruct bids; [contradiction|]. unfold vsize. simpl. lia. }
  split.
  - destruct (selectionSort_spec bids Hv) as (out & H & Hp & Hs & _).
    exists out. split; [|split; assumption]. rewrite <- H.
    unfold Original.selectionSort, BidSorter.selectionSort.
    destruct (N.eqb_spec (vsize bids) 0); [lia|].
    apply selection_loop_same; auto; unfold vsize in *; lia.
  - rewrite wsub_small by lia.
    destruct (quickSort_rec_spec (length bids) bids 0 (vsize bids - 1))
      as (out & _ & H & Hex & Hs); try lia.
    { unfold vsize. lia. }
    exists out. split; [exact H|]. split; [|eapply exch_perm; exact Hex].
    apply sorted_range_ascending.
    + rewrite (exch_vsize _ _ _ _ Hex). exact Hpos.
    + rewrite (exch_vsize _ _ _ _ Hex). exact Hs.
Qed.

Lemma original_engine_sorts_witness :
  sample <> [] /\ vsize sample <= max_size /\
  (exists out,
     Original.selectionSort sample = Some out /\ ascending out /\ out ≡ₚ sample) /\
  (exists out,
     Original.quickSort sample 0 (wsub (vsize sample) 1) = Some out /\
     ascending out /\ out ≡ₚ sample).
Proof.
  split; [discriminate|]. split; [vm_compute; discriminate|].
  apply (original_engine_sorts sample); [discriminate|vm_compute; discriminate].
Defined.

(** ** The harness, call by call *)

(** X11. A run of [benchmarkSort] with any sort function on a non-empty
    vector: when the function returns on the copy, the run returns, the
    clock has been read twice, the result has the given name, the size
    of the copy after the sort and the time between the two readings,
    and the vectors of the caller are what they were, whatever the
    function has done to the copy; when the function has no result,
    neither has the run. *)
Theorem benchmark_of_any_function (sortFunction : SortFunc) (arg : positive)
    (name : string) (w : World) (v : vector) :
  heap w !! arg = Some v -> v <> [] ->
  match (match sortFunction with
         | Ranged f => f v 0 (wsub (vsize v) 1)
         | WholeVector f => f v
         end) with
  | Some sorted =>
      benchmarkSort sortFunction arg name w =
        Some (mkBenchmarkResult name (vsize sorted) (elapsed_ms w (reads w)),
              mkWorld (heap w) (ticks w) (2 + reads w))
  | None => benchmarkSort sortFunction arg name w = None
  end.
Proof.
  intros Harg Hne.
  destruct (match sortFunction with
            | Ranged f => f v 0 (wsub (vsize v) 1)
            | WholeVector f => f v
            end) as [sorted|] eqn:Hsort.
  - apply (benchmarkSort_eval sortFunction arg name w v sorted Harg Hne Hsort).
  - unfold benchmarkSort. rewrite Harg.
    cbn [mbind option_bind]. rewrite lookup_insert_eq. cbn [mbind option_bind].
    destruct (N.eqb_spec (vsize v) 0) as [Hz|_].
    { destruct v; [contradiction|discriminate]. }
    rewrite Hsort. reflexivity.
Qed.

Lemma benchmark_of_any_function_witness :
  heap (sample_world sample) !! 1%positive = Some sample /\ sample <> [] /\
  benchmarkSort (WholeVector (fun bids => Some (take 1 bids))) 1 "First"
      (sample_world sample) =
    Some (mkBenchmarkResult "First" 1 (elapsed_ms (sample_world sample) 0),
          mkWorld (heap (sample_world sample)) (ticks (sample_world sample)) 2).
Proof.
  split; [reflexivity|]. split; [discriminate|].
  apply (benchmark_of_any_function (WholeVector (fun bids => Some (take 1 bids)))
           1 "First" (sample_world sample) sample); [reflexivity|discriminate].
Defined.

(** One timed run of one of the four algorithms, under any name. *)
Lemma benchmarkSort_of_algorithm (a : Algorithm) (arg : positive) (name : string)
    (w : World) (v : vector) :
  heap w !! arg = Some v -> v <> [] -> vsize v <= max_size ->
  benchmarkSort (sortFunction_of a) arg name w =
    Some (mkBenchmarkResult name (vsize v) (elapsed_ms w (reads w)),
          mkWorld (heap w) (ticks w) (2 + reads w)).
Proof.
  intros Harg Hne Hmax.
  destruct (sortFunction_runs a v Hmax) as (sorted & Hs & Hp).
  rewrite (benchmarkSort_eval _ arg name w v sorted Harg Hne Hs).
  unfold vsize. rewrite (Permutation_length Hp). reflexivity.
Qed.

(** Rewrites the next run of [runBenchmarkComparison] in the goal. *)
Ltac next_run a name w0 Harg Hne Hmax :=
  let E := fresh "E" in
  pose proof (benchmarkSort_of_algorithm a _ name w0 _ Harg Hne Hmax) as E;
  cbn [sortFunction_of heap ticks reads] in E; rewrite E; clear E;
  cbn [mbind option_bind].

(** The state that [runBenchmarkComparison] leaves behind. *)
Lemma runBenchmarkComparison_world (arg : positive) (w : World) (v : vector) :
  heap w !! arg = Some v -> v <> [] -> vsize v <= max_size ->
  exists out,
    runBenchmarkComparison arg w =
      Some (out, mkWorld (heap w) (ticks w) (8 + reads w)).
Proof.
  intros Harg Hne Hmax. unfold runBenchmarkComparison. rewrite Harg.
  cbn [mbind option_bind].
  destruct (N.eqb_spec (vsize v) 0) as [Hz|_].
  { destruct v; [contradiction|discriminate]. }
  next_run SelectionAlg "Selection Sort"%string w Harg Hne Hmax.
  next_run QuickAlg "Quick Sort"%string
           (mkWorld (heap w) (ticks w) (2 + reads w)) Harg Hne Hmax.
  next_run MergeAlg "Merge Sort"%string
           (mkWorld (heap w) (ticks w) (2 + (2 + reads w))) Harg Hne Hmax.
  next_run HeapAlg "Heap Sort"%string
           (mkWorld (heap w) (ticks w) (2 + (2 + (2 + reads w)))) Harg Hne Hmax.
  eexists. reflexivity.
Qed.

(** X12. The comparison of all four algorithms on a non-empty vector
    prints a table of four lines, for Selection, Quick, Merge and Heap
    Sort in this order, each with the size of the vector, the time
    between its own two readings of the clock and its complexity class;
    the clock is read eight times and no vector of the caller changes.
    On the empty vector it prints a message, reads no clock and changes
    nothing. *)
Theorem comparison_table (arg : positive) (w : World) (v : vector) :
  heap w !! arg = Some v -> vsize v <= max_size ->
  runBenchmarkComparison arg w =
    if vsize v =? 0 then
      Some (Message "No data available for benchmarking. Please load bids first.", w)
    else
      Some (Table
              [mkRow "Selection Sort" (vsize v) (elapsed_ms w (reads w)) "O(n²)";
               mkRow "Quick Sort" (vsize v) (elapsed_ms w (2 + reads w)) "O(n log n)";
               mkRow "Merge Sort" (vsize v) (elapsed_ms w (4 + reads w)) "O(n log n)";
               mkRow "Heap Sort" (vsize v) (elapsed_ms w (6 + reads w)) "O(n log n)"],
            mkWorld (heap w) (ticks w) (8 + reads w)).
Proof.
  intros Harg Hmax. unfold runBenchmarkComparison. rewrite Harg.
  cbn [mbind option_bind]. destruct (N.eqb_spec (vsize v) 0) as [Hz|Hnz]; [reflexivity|].
  assert (Hne : v <> []) by (intros ->; apply Hnz; reflexivity).
  next_run SelectionAlg "Selection Sort"%string w Harg Hne Hmax.
  next_run QuickAlg "Quick Sort"%string
           (mkWorld (heap w) (ticks w) (2 + reads w)) Harg Hne Hmax.
  next_run MergeAlg "Merge Sort"%string
           (mkWorld (heap w) (ticks w) (2 + (2 + reads w))) Harg Hne Hmax.
  next_run HeapAlg "Heap Sort"%string
           (mkWorld (heap w) (ticks w) (2 + (2 + (2 + reads w)))) Harg Hne Hmax.
  reflexivity.
Qed.

Lemma comparison_table_witness :
  heap (sample_world sample) !! 1%positive = Some sample /\
  vsize sample <= max_size /\
  runBenchmarkComparison 1 (sample_world sample) =
    if vsize sample =? 0 then
      Some (Message "No data available for benchmarking. Please load bids first.",
            sample_world sample)
    else
      Some (Table
              [mkRow "Selection Sort" (vsize sample)
                 (elapsed_ms (sample_world sample) (reads (sample_world sample))) "O(n²)";
               mkRow "Quick Sort" (vsize sample)
                 (elapsed_ms (sample_world sample) (2 + reads (sample_world sample)))
                 "O(n log n)";
               mkRow "Merge Sort" (vsize sample)
                 (elapsed_ms (sample_world sample) (4 + reads (sample_world sample)))
                 "O(n log n)";
               mkRow "Heap Sort" (vsize sample)
                 (elapsed_ms (sample_world sample) (6 + reads (sample_world sample)))
                 "O(n log n)"],
            mkWorld (heap (sample_world sample)) (ticks (sample_world sample))
              (8 + reads (sample_world sample))).
Proof.
  split; [reflexivity|]. split; [vm_compute; discriminate|].
  apply (comparison_table 1 (sample_world sample) sample);
    [reflexivity|vm_compute; discriminate].
Defined.

(** ** Ingestion *)

Lemma erase_remove_app (s1 s2 : string) (ch : ascii) :
  erase_remove (s1 ++ s2) ch = (erase_remove s1 ch ++ erase_remove s2 ch)%string.
Proof.
  induction s1 as [|c s1 IH]; simpl; [reflexivity|].
  destruct (Ascii.eqb c ch); simpl; rewrite IH; reflexivity.
Qed.

Lemma erase_remove_skips (s1 s2 : string) (ch : ascii) :
  erase_remove (s1 ++ String ch s2) ch = erase_remove (s1 ++ s2) ch.
Proof.
  rewrite !erase_remove_app. simpl. rewrite Ascii.eqb_refl. reflexivity.
Qed.

(** X13. [strToDouble] never throws [invalid_argument]: a text that
    [stod] cannot convert gives [0.0]; an [out_of_range] of [stod] is not
    caught and leaves the function. In both programs the result does not
    depend on where and how often the character to strip occurs in the
    text. *)
Theorem strToDouble_strips_and_converts (stod : string -> outcome spec_float)
    (atof : string -> spec_float) (str : string) (ch : ascii) :
  strToDouble stod str ch <> Throws invalid_argument /\
  (stod (erase_remove str ch) = Throws invalid_argument ->
   strToDouble stod str ch = Returns (S754_zero false)) /\
  (stod (erase_remove str ch) = Throws out_of_range ->
   strToDouble stod str ch = Throws out_of_range) /\
  (forall d, stod (erase_remove str ch) = Returns d ->
   strToDouble stod str ch = Returns d) /\
  (forall s1 s2, str = (s1 ++ String ch s2)%string ->
   strToDouble stod str ch = strToDouble stod (s1 ++ s2) ch /\
   OriginalIngestion.strToDouble atof str ch =
     OriginalIngestion.strToDouble atof (s1 ++ s2) ch).
Proof.
  unfold strToDouble, OriginalIngestion.strToDouble.
  split; [destruct (stod _) as [d|[]]; discriminate|].
  split; [intros ->; reflexivity|]. split; [intros ->; reflexivity|].
  split; [intros d ->; reflexivity|].
  intros s1 s2 ->. rewrite erase_remove_skips. split; reflexivity.
Qed.

Lemma strToDouble_strips_and_converts_witness :
  sample_stod (erase_remove "$12.50" "$") =
    Returns (S754_finite false 7036874417766400 (-49)) /\
  "$12.50"%string = ("" ++ String "$" "12.50")%string /\
  strToDouble sample_stod "$12.50" "$" =
    Returns (S754_finite false 7036874417766400 (-49)) /\
  strToDouble sample_stod "$12.50" "$" = strToDouble sample_stod ("" ++ "12.50") "$" /\
  OriginalIngestion.strToDouble sample_atof "$12.50" "$" =
    OriginalIngestion.strToDouble sample_atof ("" ++ "12.50") "$".
Proof.
  split; [reflexivity|]. split; [reflexivity|].
  pose proof (strToDouble_strips_and_converts sample_stod sample_atof "$12.50" "$")
    as (_ & _ & _ & Hd & Hs).
  split; [apply Hd; reflexivity|]. apply (Hs "" "12.50")%string. reflexivity.
Defined.

(** ** Loading *)

Lemma load_rows_spec (conv : string -> ascii -> outcome spec_float) (file : Parser) :
  (Z.of_N (rowCount file) <= INT_MAX)%Z ->
  forall fuel (i : N) (bids : vector),
    i <= rowCount file -> (N.to_nat (rowCount file - i) <= fuel)%nat ->
    exists new err,
      load_rows conv fuel file (Z.of_N i) bids = Some (bids ++ new, err) /\
      i + vsize new <= rowCount file /\
      (forall k b, at_ new k = Some b ->
                   read_row conv file (Z.of_N (i + k)) = Returns b) /\
      match err with
      | None => i + vsize new = rowCount file
      | Some e => i + vsize new < rowCount file /\
                  read_row conv file (Z.of_N (i + vsize new)) = Throws e
      end.
Proof.
  intros Hmax. induction fuel as [|fuel IH]; intros i bids Hi Hfuel.
  - assert (i = rowCount file) as -> by lia.
    exists [], None. simpl. rewrite Z.ltb_irrefl, app_nil_r.
    split; [reflexivity|]. split; [unfold vsize; simpl; lia|].
    split; [intros k b Hk; discriminate|unfold vsize; simpl; lia].
  - cbn [load_rows]. destruct (Z.ltb_spec (Z.of_N i) (Z.of_N (rowCount file))) as [Hlt|Hge].
    + destruct (read_row conv file (Z.of_N i)) as [bid|e] eqn:Hrow.
      * destruct (Z.eqb_spec (Z.of_N i) INT_MAX) as [Heq|_]; [lia|].
        replace (Z.of_N i + 1)%Z with (Z.of_N (i + 1)) by lia.
        destruct (IH (i + 1) (bids ++ [bid])) as (new & err & E & Hlen & Hrows & Herr);
          [lia|lia|].
        exists (bid :: new), err. rewrite E, <- app_assoc.
        assert (Hsz : vsize (bid :: new) = 1 + vsize new)
          by (unfold vsize; simpl; lia).
        split; [reflexivity|]. split; [lia|]. split.
        -- intros k b Hk. destruct (N.eq_dec k 0) as [->|Hnz].
           ++ unfold at_ in Hk. simpl in Hk. injection Hk as <-.
              replace (i + 0) with i by lia. exact Hrow.
           ++ replace (i + k) with (i + 1 + (k - 1)) by lia. apply Hrows.
              unfold at_ in *. replace (N.to_nat k) with (S (N.to_nat (k - 1))) in Hk by lia.
              exact Hk.
        -- destruct err as [e|]; rewrite Hsz.
           ++ replace (i + (1 + vsize new)) with (i + 1 + vsize new) by lia. exact Herr.
           ++ lia.
      * exists [], (Some e). rewrite app_nil_r. split; [reflexivity|].
        change (vsize []) with 0. replace (i + 0) with i by lia.
        split; [lia|]. split; [intros k b Hk; discriminate|]. split; [lia|exact Hrow].
    + assert (i = rowCount file) as -> by lia.
      exists [], None. rewrite app_nil_r. split; [reflexivity|].
      change (vsize []) with 0.
      split; [lia|]. split; [intros k b Hk; discriminate|lia].
Qed.

(** X14. [loadBids] of the enhanced program always returns, whatever
    the parser and [stod] throw. When the file cannot be parsed the
    vector is empty. Otherwise the vector holds, in the order of the file,
    the rows before the first one that throws, each with the cells 1, 0
    and 8 as id, title and fund and the converted cell 4 as amount: all
    rows when no error is reported, and fewer when one is. *)
Theorem loadBids_keeps_the_rows_before_an_error
    (stod : string -> outcome spec_float)
    (csv_Parser : string -> outcome Parser) (csvPath : string) :
  (forall file, csv_Parser csvPath = Returns file ->
                (Z.of_N (rowCount file) <= INT_MAX)%Z) ->
  exists bids err,
    loadBids stod csv_Parser csvPath = Some (bids, err) /\
    match csv_Parser csvPath with
    | Throws e => bids = [] /\ err = Some e
    | Returns file =>
      (forall k b, at_ bids k = Some b ->
                   read_row (strToDouble stod) file (Z.of_N k) = Returns b) /\
      match err with
      | None => vsize bids = rowCount file
      | Some e => vsize bids < rowCount file /\
                  read_row (strToDouble stod) file (Z.of_N (vsize bids)) = Throws e
      end
    end.
Proof.
  intros Hrows. unfold loadBids.
  destruct (csv_Parser csvPath) as [file|e]; [|exists [], (Some e); auto].
  destruct (load_rows_spec (strToDouble stod) file (Hrows file eq_refl)
              (N.to_nat (rowCount file)) 0 [])
    as (new & err & E & Hlen & Hcells & Herr); [lia|lia|].
  exists new, err. change (Z.of_N 0) with 0%Z in E. split; [exact E|].
  split; [intros k b Hk; apply (Hcells k b Hk)|].
  destruct err as [e|]; [|lia]. destruct Herr as [Hlt Hrow].
  split; [lia|exact Hrow].
Qed.

Lemma loadBids_keeps_the_rows_before_an_error_witness :
  (forall file, sample_csv_Parser "eBid_Monthly_Sales.csv" = Returns file ->
                (Z.of_N (rowCount file) <= INT_MAX)%Z) /\
  exists bids err,
    loadBids sample_stod sample_csv_Parser "eBid_Monthly_Sales.csv" = Some (bids, err) /\
    match sample_csv_Parser "eBid_Monthly_Sales.csv" with
    | Throws e => bids = [] /\ err = Some e
    | Returns file =>
      (forall k b, at_ bids k = Some b ->
                   read_row (strToDouble sample_stod) file (Z.of_N k) = Returns b) /\
      match err with
      | None => vsize bids = rowCount file
      | Some e => vsize bids < rowCount file /\
                  read_row (strToDouble sample_stod) file (Z.of_N (vsize bids)) = Throws e
      end
    end.
Proof.
  assert (H : forall file, sample_csv_Parser "eBid_Monthly_Sales.csv" = Returns file ->
                (Z.of_N (rowCount file) <= INT_MAX)%Z).
  { intros file [= <-]. vm_compute. discriminate. }
  split; [exact H|].
  apply (loadBids_keeps_the_rows_before_an_error sample_stod sample_csv_Parser
           "eBid_Monthly_Sales.csv" H).
Defined.

Lemma read_row_texts (conv : string -> ascii -> outcome spec_float)
    (g : string -> ascii -> spec_float) (file : Parser) (i : Z) (b : Bid) :
  read_row conv file i = Returns b ->
  exists a, read_row (fun str ch => Returns (g str ch)) file i
            = Returns (mkBid (bidId b) (title b) (fund b) a).
Proof.
  unfold read_row.
  destruct (cell file i 1) as [c1|]; [|discriminate]. cbn [mbind outcome_bind].
  destruct (cell file i 0) as [c0|]; [|discriminate]. cbn [mbind outcome_bind].
  destruct (cell file i 8) as [c8|]; [|discriminate]. cbn [mbind outcome_bind].
  destruct (cell file i 4) as [c4|]; [|discriminate]. cbn [mbind outcome_bind].
  destruct (conv c4 _) as [a|]; [|discriminate]. cbn [mbind outcome_bind mret outcome_ret].
  intros [= <-]. eexists. reflexivity.
Qed.

(** X15. A file that the enhanced [loadBids] loads without an error is
    loaded by the original [loadBids] too, whatever [atof] makes of the
    amounts: it returns as many records, with the same ids, titles and
    funds in the same order. *)
Theorem original_loadBids_loads_the_same_records
    (stod : string -> outcome spec_float) (atof : string -> spec_float)
    (csv_Parser : string -> outcome Parser) (csvPath : string)
    (file : Parser) (bids : vector) :
  csv_Parser csvPath = Returns file ->
  (Z.of_N (rowCount file) <= INT_MAX)%Z ->
  loadBids stod csv_Parser csvPath = Some (bids, None) ->
  exists bids',
    OriginalIngestion.loadBids atof csv_Parser csvPath = Some (Returns bids') /\
    vsize bids' = rowCount file /\
    bidId <$> bids' = bidId <$> bids /\
    title <$> bids' = title <$> bids /\
    fund <$> bids' = fund <$> bids.
Proof.
  intros Hfile Hmax Hload.
  unfold loadBids in Hload. unfold OriginalIngestion.loadBids. rewrite Hfile in *.
  destruct (load_rows_spec (strToDouble stod) file Hmax (N.to_nat (rowCount file)) 0 [])
    as (new & err & E & _ & Hcells & Herr); [lia|lia|].
  change (Z.of_N 0) with 0%Z in E. rewrite E in Hload. injection Hload as -> ->.
  set (conv := fun str ch => Returns (OriginalIngestion.strToDouble atof str ch)).
  destruct (load_rows_spec conv file Hmax (N.to_nat (rowCount file)) 0 [])
    as (new' & err' & E' & _ & Hcells' & Herr'); [lia|lia|].
  change (Z.of_N 0) with 0%Z in E'. rewrite E'. cbn [mbind option_bind].
  assert (Hnone : err' = None).
  { destruct err' as [e|]; [|reflexivity]. destruct Herr' as [Hlt Hrow].
    destruct (at_is_Some bids (0 + vsize new')) as [b Hb]; [lia|].
    apply Hcells in Hb.
    destruct (read_row_texts _ (OriginalIngestion.strToDouble atof) _ _ _ Hb) as [a Ha].
    fold conv in Ha. replace (0 + (0 + vsize new')) with (0 + vsize new') in Ha by lia.
    congruence. }
  subst err'. exists new'. split; [reflexivity|]. split; [lia|].
  assert (Hsame : forall k b b', at_ bids k = Some b -> at_ new' k = Some b' ->
            bidId b' = bidId b /\ title b' = title b /\ fund b' = fund b).
  { intros k b b' Hb Hb'. apply Hcells in Hb. apply Hcells' in Hb'.
    destruct (read_row_texts _ (OriginalIngestion.strToDouble atof) _ _ _ Hb) as [a Ha].
    fold conv in Ha. rewrite Ha in Hb'. injection Hb' as <-. auto. }
  assert (Hlen : length new' = length bids) by (unfold vsize in *; lia).
  assert (Hfields : forall (A : Type) (f : Bid -> A),
            (forall k b b', at_ bids k = Some b -> at_ new' k = Some b' -> f b' = f b) ->
            f <$> new' = f <$> bids).
  { intros A f Hf. apply list_eq. intros k. rewrite !list_lookup_fmap.
    destruct (new' !! k) as [b'|] eqn:Hb'.
    - destruct (lookup_lt_is_Some_2 bids k) as [b Hb].
      { rewrite <- Hlen. eapply lookup_lt_Some. exact Hb'. }
      rewrite Hb. simpl. f_equal. apply (Hf (N.of_nat k)); unfold at_;
        rewrite Nat2N.id; assumption.
    - rewrite (lookup_ge_None_2 bids k); [reflexivity|].
      rewrite <- Hlen. apply lookup_ge_None. exact Hb'. }
  split; [|split]; apply Hfields; intros k b b' Hb Hb';
    destruct (Hsame k b b' Hb Hb') as (H1 & H2 & H3); assumption.
Qed.

Lemma original_loadBids_loads_the_same_records_witness :
  sample_csv_Parser "eBid_Monthly_Sales.csv" = Returns sample_file /\
  (Z.of_N (rowCount sample_file) <= INT_MAX)%Z /\
  exists bids bids',
    loadBids sample_stod sample_csv_Parser "eBid_Monthly_Sales.csv" = Some (bids, None) /\
    OriginalIngestion.loadBids sample_atof sample_csv_Parser "eBid_Monthly_Sales.csv"
      = Some (Returns bids') /\
    vsize bids' = rowCount sample_file /\
    bidId <$> bids' = bidId <$> bids /\
    title <$> bids' = title <$> bids /\
    fund <$> bids' = fund <$> bids.
Proof.
  split; [reflexivity|]. split; [vm_compute; discriminate|].
  eexists. 
  destruct (original_loadBids_loads_the_same_records sample_stod sample_atof
              sample_csv_Parser "eBid_Monthly_Sales.csv" sample_file _
              eq_refl ltac:(vm_compute; discriminate) eq_refl) as (bids' & H).
  exists bids'. split; [reflexivity|]. exact H.
Defined.

(** ** The prompt for a number *)

Lemma getValidatedInput_rejected (min max : Z) :
  forall fuel (cin : console),
    Forall (fun a => accepted min max a = false) cin ->
    getValidatedInput fuel min max cin = None.
Proof.
  induction fuel as [|fuel IH]; intros cin Hrej; [reflexivity|].
  destruct cin as [|a rest]; cbn [getValidatedInput].
  - apply IH. constructor.
  - inversion Hrej as [|? ? Ha Hrest]; subst. destruct a as [choice|].
    + simpl in Ha. rewrite Ha. apply IH. exact Hrest.
    + apply IH. exact Hrest.
Qed.

Lemma getValidatedInput_first (min max : Z) (choice : Z) (rest : console) :
  accepted min max (Some choice) = true ->
  forall (skipped : console) fuel,
    Forall (fun a => accepted min max a = false) skipped ->
    (length skipped < fuel)%nat ->
    getValidatedInput fuel min max (skipped ++ Some choice :: rest)
      = Some (choice, rest).
Proof.
  intros Hacc. induction skipped as [|a skipped IH]; intros fuel Hrej Hfuel.
  - destruct fuel; [simpl in Hfuel; lia|]. simpl in *. rewrite Hacc. reflexivity.
  - destruct fuel; [simpl in Hfuel; lia|].
    inversion Hrej as [|? ? Ha Hrest]; subst.
    cbn [app getValidatedInput]. destruct a as [c|].
    + simpl in Ha. rewrite Ha. apply IH; [exact Hrest|simpl in Hfuel; lia].
    + apply IH; [exact Hrest|simpl in Hfuel; lia].
Qed.

Lemma getValidatedInput_returned (min max : Z) :
  forall fuel (cin : console) choice rest,
    getValidatedInput fuel min max cin = Some (choice, rest) ->
    accepted min max (Some choice) = true /\
    exists skipped,
      cin = skipped ++ Some choice :: rest /\
      Forall (fun a => accepted min max a = false) skipped.
Proof.
  induction fuel as [|fuel IH]; intros cin choice rest H; [discriminate|].
  destruct cin as [|a cin]; cbn [getValidatedInput] in H.
  - destruct (IH _ _ _ H) as (Hacc & skipped & Hcin & _).
    destruct skipped; discriminate.
  - destruct a as [c|].
    + destruct ((min <=? c) && (c <=? max))%Z eqn:Hc.
      * injection H as -> ->. split; [exact Hc|]. exists []. split; [reflexivity|constructor].
      * destruct (IH _ _ _ H) as (Hacc & skipped & -> & Hrej).
        split; [exact Hacc|]. exists (Some c :: skipped).
        split; [reflexivity|]. constructor; [exact Hc|exact Hrej].
    + destruct (IH _ _ _ H) as (Hacc & skipped & -> & Hrej).
      split; [exact Hacc|]. exists (None :: skipped).
      split; [reflexivity|]. constructor; [reflexivity|exact Hrej].
Qed.

(** X16. [getValidatedInput] returns the first number of the console
    that lies between [min] and [max], and leaves the console after it:
    whatever it returns is such a number, and when the console has one it
    is returned after one round for each extraction before it. When the
    console has none, the function does not return, however long it
    runs: at the end of the input it goes on asking. *)
Theorem getValidatedInput_returns_the_first_valid_number (min max : Z)
    (cin : console) :
  (forall fuel choice rest,
     getValidatedInput fuel min max cin = Some (choice, rest) ->
     (min <= choice <= max)%Z /\
     exists skipped,
       cin = skipped ++ Some choice :: rest /\
       Forall (fun a => accepted min max a = false) skipped) /\
  (forall skipped choice rest fuel,
     cin = skipped ++ Some choice :: rest ->
     Forall (fun a => accepted min max a = false) skipped ->
     (min <= choice <= max)%Z ->
     (length skipped < fuel)%nat ->
     getValidatedInput fuel min max cin = Some (choice, rest)) /\
  (Forall (fun a => accepted min max a = false) cin ->
   forall fuel, getValidatedInput fuel min max cin = None).
Proof.
  split; [|split].
  - intros fuel choice rest H.
    destruct (getValidatedInput_returned min max fuel cin choice rest H) as [Hacc Hsk].
    split; [simpl in Hacc; lia|exact Hsk].
  - intros skipped choice rest fuel -> Hrej Hc Hfuel.
    apply getValidatedInput_first; auto. simpl. lia.
  - intros Hrej fuel. apply getValidatedInput_rejected. exact Hrej.
Qed.

Lemma getValidatedInput_returns_the_first_valid_number_witness :
  [None; Some 42%Z; Some 7%Z; Some 3%Z] = [None; Some 42%Z] ++ Some 7%Z :: [Some 3%Z] /\
  Forall (fun a => accepted 1 10 a = false) [None; Some 42%Z] /\
  (1 <= 7 <= 10)%Z /\ (length [None; Some 42%Z] < 3)%nat /\
  getValidatedInput 3 1 10 [None; Some 42%Z; Some 7%Z; Some 3%Z]
    = Some (7%Z, [Some 3%Z]).
Proof.
  assert (Hrej : Forall (fun a => accepted 1 10 a = false) [None; Some 42%Z])
    by (repeat constructor).
  split; [reflexivity|]. split; [exact Hrej|]. split; [lia|]. split; [simpl; lia|].
  apply (proj1 (proj2 (getValidatedInput_returns_the_first_valid_number 1 10
                         [None; Some 42%Z; Some 7%Z; Some 3%Z]))
           [None; Some 42%Z] 7%Z [Some 3%Z] 3%nat);
    [reflexivity|exact Hrej|lia|simpl; lia].
Defined.

(** ** The menu *)

Section Menu.

Context (stod : string -> outcome spec_float).
Context (csv_Parser : string -> outcome Parser).
Context (csvPath : string) (lines : string * string * string * string).
Context (bids : positive) (w : World) (v : vector).
Hypothesis Hbids : heap w !! bids = Some v.

Lemma loadBids_runs :
  (forall file, csv_Parser csvPath = Returns file ->
                (Z.of_N (rowCount file) <= INT_MAX)%Z) ->
  exists loaded err,
    loadBids stod csv_Parser csvPath = Some (loaded, err) /\
    vsize loaded <= max_size.
Proof.
  intros Hrows. unfold loadBids.
  destruct (csv_Parser csvPath) as [file|e].
  - destruct (load_rows_spec (strToDouble stod) file (Hrows file eq_refl)
                (N.to_nat (rowCount file)) 0 [])
      as (new & err & E & Hlen & _); [lia|lia|].
    exists new, err. split; [exact E|].
    specialize (Hrows file eq_refl). unfold INT_MAX, max_size in *. lia.
  - exists [], (Some e). split; [reflexivity|]. unfold max_size, vsize. simpl. lia.
Qed.

(** Choices 5, 6 and 7: a timed run on a copy, then the sort of the
    vector itself. *)
Lemma main_case_sorts (a : Algorithm) (choice : Z) :
  v <> [] -> vsize v <= max_size ->
  (choice, a) = (5%Z, QuickAlg) \/ (choice, a) = (6%Z, MergeAlg) \/
  (choice, a) = (7%Z, HeapAlg) ->
  exists sorted,
    match sortFunction_of a with
    | Ranged f => f v 0 (wsub (vsize v) 1)
    | WholeVector f => f v
    end = Some sorted /\
    main_case stod csv_Parser csvPath choice lines bids w =
      Some (Returns (mkWorld (<[bids := sorted]> (heap w)) (ticks w) (2 + reads w))).
Proof.
  intros Hne Hmax Hc.
  assert (Hsz : (vsize v =? 0) = false).
  { destruct v; [contradiction|reflexivity]. }
  assert (Hpos : (0 <? vsize v) = true).
  { destruct v; [contradiction|reflexivity]. }
  destruct (sortFunction_runs a v Hmax) as (sorted & Hs & _).
  exists sorted. split; [exact Hs|].
  pose proof (fun name => benchmarkSort_eval (sortFunction_of a) bids name w v sorted
                Hbids Hne Hs) as Hb.
  destruct Hc as [[= -> ->]|[[= -> ->]|[= -> ->]]]; cbn [sortFunction_of] in *;
    unfold main_case; rewrite Hbids; cbn [mbind option_bind]; rewrite Hsz, Hb;
    cbn [mbind option_bind heap]; unfold sort_in_place; cbn [heap ticks reads];
    rewrite ?Hbids; cbn [mbind option_bind]; rewrite ?Hpos; rewrite ?Hbids;
    cbn [mbind option_bind]; rewrite Hs; reflexivity.
Qed.

(** Choice 4: a timed run on a copy, then the file is loaded again and
    what it holds is sorted. *)
Lemma main_case_4 (loaded : vector) (err : option exception) :
  v <> [] -> vsize v <= max_size ->
  loadBids stod csv_Parser csvPath = Some (loaded, err) ->
  vsize loaded <= max_size ->
  exists sorted,
    BidSorter.selectionSort loaded = Some sorted /\
    main_case stod csv_Parser csvPath 4 lines bids w =
      Some (Returns (mkWorld (<[bids := sorted]> (heap w)) (ticks w) (2 + reads w))).
Proof.
  intros Hne Hmax Hload Hlmax.
  assert (Hsz : (vsize v =? 0) = false).
  { destruct v; [contradiction|reflexivity]. }
  destruct (sortFunction_runs SelectionAlg v Hmax) as (s0 & Hs0 & _).
  pose proof (benchmarkSort_eval (sortFunction_of SelectionAlg) bids "Selection Sort"
                w v s0 Hbids Hne Hs0) as Hb.
  destruct (sortFunction_runs SelectionAlg loaded Hlmax) as (sorted & Hs & _).
  cbn [sortFunction_of] in *. exists sorted. split; [exact Hs|].
  unfold main_case. rewrite Hbids. cbn [mbind option_bind]. rewrite Hsz, Hb.
  cbn [mbind option_bind]. rewrite Hload. cbn [mbind option_bind].
  unfold sort_in_place. cbn [heap ticks reads]. rewrite lookup_insert_eq.
  cbn [mbind option_bind]. rewrite Hs. cbn [mbind option_bind].
  rewrite insert_insert_eq. reflexivity.
Qed.

Lemma main_case_other (choice : Z) :
  (choice <= 0 \/ choice = 2 \/ 10 <= choice)%Z ->
  main_case stod csv_Parser csvPath choice lines bids w = Some (Returns w).
Proof.
  intros Hc. unfold main_case. rewrite Hbids. cbn [mbind option_bind].
  destruct choice as [|p|p]; [reflexivity| |reflexivity].
  destruct p as [[[[p|p|]|[p|p|]|]|[[p|p|]|[p|p|]|]|]|[[[p|p|]|[p|p|]|]|[[p|p|]|[p|p|]|]|]|];
    try reflexivity; exfalso; lia.
Qed.

End Menu.

Lemma main_case_on_empty (stod : string -> outcome spec_float)
    (csv_Parser : string -> outcome Parser) (csvPath : string)
    (lines : string * string * string * string) (bids : positive) (w : World)
    (choice : Z) :
  heap w !! bids = Some [] -> choice <> 1%Z -> choice <> 3%Z ->
  main_case stod csv_Parser csvPath choice lines bids w = Some (Returns w).
Proof.
  intros Hbids H1 H3.
  destruct (Z.le_gt_cases choice 0) as [|Hpos]; [eapply main_case_other; eauto; lia|].
  destruct (Z.le_gt_cases 10 choice) as [|Hlt]; [eapply main_case_other; eauto; lia|].
  destruct (Z.eq_dec choice 2%Z) as [->|H2]; [eapply main_case_other; eauto; lia|].
  assert (Hc : (choice = 4 \/ choice = 5 \/ choice = 6 \/ choice = 7 \/ choice = 8 \/
                choice = 9)%Z) by lia.
  destruct Hc as [-> | [-> | [-> | [-> | [-> | ->]]]]]; unfold main_case; rewrite Hbids;
    cbn [mbind option_bind]; try reflexivity.
  - unfold runBenchmarkComparison. rewrite Hbids. reflexivity.
  - rewrite insert_id by exact Hbids. destruct w; reflexivity.
Qed.

(** X17. The menu choices 5, 6 and 7 on a non-empty vector: when the
    round is over the vector of [main] is ascending and a permutation of
    what it was, the clock has been read twice, for the timed run on a
    copy, and no other vector has changed. *)
Theorem sorting_choices_sort_the_vector_of_main
    (stod : string -> outcome spec_float) (csv_Parser : string -> outcome Parser)
    (csvPath : string) (lines : string * string * string * string)
    (choice : Z) (bids : positive) (w : World) (v : vector) :
  heap w !! bids = Some v -> v <> [] -> vsize v <= HEAP_MAX ->
  (choice = 5 \/ choice = 6 \/ choice = 7)%Z ->
  exists sorted,
    main_case stod csv_Parser csvPath choice lines bids w =
      Some (Returns (mkWorld (<[bids := sorted]> (heap w)) (ticks w) (2 + reads w))) /\
    ascending sorted /\ sorted ≡ₚ v.
Proof.
  intros Hbids Hne Hheap Hc.
  assert (Hmax : vsize v <= max_size) by (unfold HEAP_MAX, max_size in *; lia).
  destruct (sorts_ascending v Hmax) as (_ & (o2 & Q2 & A2) & (o3 & Q3 & A3) & H4).
  destruct (H4 Hheap) as (o4 & Q4 & A4).
  destruct (sorts_permutation v Hmax) as (_ & (p2 & P2 & S2) & (p3 & P3 & S3) & (p4 & P4 & S4)).
  destruct Hc as [-> | [-> | ->]].
  - destruct (main_case_sorts stod csv_Parser csvPath lines bids w v Hbids QuickAlg 5
                Hne Hmax ltac:(auto)) as (sorted & Hs & E).
    cbn [sortFunction_of] in Hs. exists sorted. split; [exact E|].
    assert (sorted = p2) as -> by congruence.
    split; [replace p2 with o2 by congruence; exact A2|exact S2].
  - destruct (main_case_sorts stod csv_Parser csvPath lines bids w v Hbids MergeAlg 6
                Hne Hmax ltac:(auto)) as (sorted & Hs & E).
    cbn [sortFunction_of] in Hs. exists sorted. split; [exact E|].
    assert (sorted = p3) as -> by congruence.
    split; [replace p3 with o3 by congruence; exact A3|exact S3].
  - destruct (main_case_sorts stod csv_Parser csvPath lines bids w v Hbids HeapAlg 7
                Hne Hmax ltac:(auto)) as (sorted & Hs & E).
    cbn [sortFunction_of] in Hs. exists sorted. split; [exact E|].
    assert (sorted = p4) as -> by congruence.
    split; [replace p4 with o4 by congruence; exact A4|exact S4].
Qed.

Lemma sorting_choices_sort_the_vector_of_main_witness :
  heap (sample_world sample) !! 1%positive = Some sample /\ sample <> [] /\
  vsize sample <= HEAP_MAX /\ (6 = 5 \/ 6 = 6 \/ 6 = 7)%Z /\
  exists sorted,
    main_case sample_stod sample_csv_Parser "eBid_Monthly_Sales.csv" 6
        ("", "", "", "")%string 1 (sample_world sample) =
      Some (Returns (mkWorld (<[1%positive := sorted]> (heap (sample_world sample)))
                       (ticks (sample_world sample))
                       (2 + reads (sample_world sample)))) /\
    ascending sorted /\ sorted ≡ₚ sample.
Proof.
  split; [reflexivity|]. split; [discriminate|]. split; [vm_compute; discriminate|].
  split; [lia|].
  apply (sorting_choices_sort_the_vector_of_main sample_stod sample_csv_Parser
           "eBid_Monthly_Sales.csv" ("", "", "", "")%string 6 1
           (sample_world sample) sample);
    [reflexivity|discriminate|vm_compute; discriminate|lia].
Defined.

(** X18. The menu choice 4 on a non-empty vector does not sort the
    vector of [main]: it replaces it by what [loadBids] returns for the
    file, sorted. The vector then is ascending and a permutation of the
    records of the file, whatever it held before; a record that was
    entered by hand is gone, and so is every record when the file cannot
    be read. *)
Theorem selection_choice_sorts_the_file
    (stod : string -> outcome spec_float) (csv_Parser : string -> outcome Parser)
    (csvPath : string) (lines : string * string * string * string)
    (bids : positive) (w : World) (v : vector) :
  heap w !! bids = Some v -> v <> [] -> vsize v <= max_size ->
  (forall file, csv_Parser csvPath = Returns file ->
                (Z.of_N (rowCount file) <= INT_MAX)%Z) ->
  exists loaded err sorted,
    loadBids stod csv_Parser csvPath = Some (loaded, err) /\
    main_case stod csv_Parser csvPath 4 lines bids w =
      Some (Returns (mkWorld (<[bids := sorted]> (heap w)) (ticks w) (2 + reads w))) /\
    ascending sorted /\ sorted ≡ₚ loaded /\
    (forall e, csv_Parser csvPath = Throws e -> sorted = []).
Proof.
  intros Hbids Hne Hmax Hrows.
  destruct (loadBids_runs stod csv_Parser csvPath Hrows) as (loaded & err & Hload & Hlmax).
  destruct (main_case_4 stod csv_Parser csvPath lines bids w v Hbids loaded err
              Hne Hmax Hload Hlmax) as (sorted & Hs & E).
  exists loaded, err, sorted. split; [exact Hload|]. split; [exact E|].
  destruct (sorts_ascending loaded Hlmax) as ((o1 & Q1 & A1) & _).
  destruct (sorts_permutation loaded Hlmax) as ((p1 & P1 & S1) & _).
  assert (sorted = p1) as -> by congruence.
  split; [replace p1 with o1 by congruence; exact A1|]. split; [exact S1|].
  intros e He. unfold loadBids in Hload. rewrite He in Hload.
  injection Hload as <- _. injection Hs as <-. reflexivity.
Qed.

Lemma selection_choice_sorts_the_file_witness :
  heap (sample_world twins) !! 1%positive = Some twins /\ twins <> [] /\
  vsize twins <= max_size /\
  (forall file, sample_csv_Parser "eBid_Monthly_Sales.csv" = Returns file ->
                (Z.of_N (rowCount file) <= INT_MAX)%Z) /\
  exists loaded err sorted,
    loadBids sample_stod sample_csv_Parser "eBid_Monthly_Sales.csv" = Some (loaded, err) /\
    main_case sample_stod sample_csv_Parser "eBid_Monthly_Sales.csv" 4
        ("", "", "", "")%string 1 (sample_world twins) =
      Some (Returns (mkWorld (<[1%positive := sorted]> (heap (sample_world twins)))
                       (ticks (sample_world twins)) (2 + reads (sample_world twins)))) /\
    ascending sorted /\ sorted ≡ₚ loaded /\
    (forall e, sample_csv_Parser "eBid_Monthly_Sales.csv" = Throws e -> sorted = []).
Proof.
  assert (H : forall file, sample_csv_Parser "eBid_Monthly_Sales.csv" = Returns file ->
                (Z.of_N (rowCount file) <= INT_MAX)%Z).
  { intros file [= <-]. vm_compute. discriminate. }
  split; [reflexivity|]. split; [discriminate|]. split; [vm_compute; discriminate|].
  split; [exact H|].
  apply (selection_choice_sorts_the_file sample_stod sample_csv_Parser
           "eBid_Monthly_Sales.csv" ("", "", "", "")%string 1 (sample_world twins) twins);
    [reflexivity|discriminate|vm_compute; discriminate|exact H].
Defined.

(** X19. Every round of the menu is defined and returns to the loop,
    but for the entry of a bid by hand, which throws what [stod] throws
    on the amount when that is not [invalid_argument]. A round never
    touches the clock's past nor a vector other than the one of [main];
    and while that vector is empty every choice but loading and entering
    leaves the whole state as it is, with no reading of the clock. *)
Theorem every_round_of_the_menu_is_defined
    (stod : string -> outcome spec_float) (csv_Parser : string -> outcome Parser)
    (csvPath : string) (lines : string * string * string * string)
    (choice : Z) (bids : positive) (w : World) (v : vector) :
  heap w !! bids = Some v -> vsize v <= max_size ->
  (forall file, csv_Parser csvPath = Returns file ->
                (Z.of_N (rowCount file) <= INT_MAX)%Z) ->
  exists r,
    main_case stod csv_Parser csvPath choice lines bids w = Some r /\
    match r with
    | Throws e =>
      choice = 3%Z /\ e <> invalid_argument /\
      stod (erase_remove (snd lines) "$") = Throws e
    | Returns w' =>
      ticks w' = ticks w /\ (reads w <= reads w')%nat /\
      (forall p, p <> bids -> heap w' !! p = heap w !! p) /\
      (v = [] -> choice <> 1%Z -> choice <> 3%Z -> w' = w)
    end.
Proof.
  intros Hbids Hmax Hrows.
  assert (Hgood : forall x k,
            (v = [] -> choice <> 1%Z -> choice <> 3%Z -> False) ->
            ticks (mkWorld (<[bids := x]> (heap w)) (ticks w) (k + reads w)) = ticks w /\
            (reads w <= reads (mkWorld (<[bids := x]> (heap w)) (ticks w) (k + reads w)))%nat /\
            (forall p, p <> bids ->
               heap (mkWorld (<[bids := x]> (heap w)) (ticks w) (k + reads w)) !! p
                 = heap w !! p) /\
            (v = [] -> choice <> 1%Z -> choice <> 3%Z ->
             mkWorld (<[bids := x]> (heap w)) (ticks w) (k + reads w) = w)).
  { intros x k Hno. cbn [ticks reads heap]. split; [reflexivity|]. split; [lia|].
    split; [intros p Hp; apply lookup_insert_ne; congruence|].
    intros Hv H1 H3. destruct (Hno Hv H1 H3). }
  assert (Hcases : (choice <= 0 \/ choice = 2 \/ 10 <= choice)%Z \/
                   choice = 1%Z \/ choice = 3%Z \/
                   (choice = 4 \/ choice = 5 \/ choice = 6 \/ choice = 7 \/
                    choice = 8 \/ choice = 9)%Z) by lia.
  destruct Hcases as [Hother | [-> | [-> | Hc]]].
  - exists (Returns w).
    split; [apply (main_case_other stod csv_Parser csvPath lines bids w v Hbids); exact Hother|].
    repeat split; auto.
  - destruct (loadBids_runs stod csv_Parser csvPath Hrows) as (loaded & err & Hload & _).
    eexists. split.
    + unfold main_case. rewrite Hbids. cbn [mbind option_bind]. rewrite Hload. reflexivity.
    + apply (Hgood loaded 2%nat). intros _ H1 _. apply H1. reflexivity.
  - unfold main_case. rewrite Hbids. cbn [mbind option_bind].
    unfold getBid. destruct lines as [[[id t] f] strAmount]. cbn [snd].
    unfold strToDouble. destruct (stod (erase_remove strAmount "$")) as [a|e] eqn:Hst.
    + cbn [mbind outcome_bind mret outcome_ret]. eexists. split; [reflexivity|].
      apply (Hgood (v ++ [mkBid id t f a]) 0%nat). intros _ _ H3. apply H3. reflexivity.
    + destruct e; cbn [mbind outcome_bind mret outcome_ret].
      * eexists. split; [reflexivity|].
        apply (Hgood (v ++ [mkBid id t f (S754_zero false)]) 0%nat).
        intros _ _ H3. apply H3. reflexivity.
      * exists (Throws out_of_range). split; [reflexivity|].
        split; [reflexivity|]. split; [discriminate|reflexivity].
      * exists (Throws csv_Error). split; [reflexivity|].
        split; [reflexivity|]. split; [discriminate|reflexivity].
  - destruct (decide (v = [])) as [Hv|Hne].
    { exists (Returns w). subst v.
      split; [apply main_case_on_empty; [exact Hbids|lia|lia]|]. repeat split; auto. }
    assert (Hno : v = [] -> choice <> 1%Z -> choice <> 3%Z -> False)
      by (intros Hv; contradiction).
    destruct Hc as [-> | [Hc | [Hc | [Hc | [-> | ->]]]]].
    + destruct (loadBids_runs stod csv_Parser csvPath Hrows)
        as (loaded & err & Hload & Hlmax).
      destruct (main_case_4 stod csv_Parser csvPath lines bids w v Hbids loaded err
                  Hne Hmax Hload Hlmax) as (sorted & _ & E).
      eexists. split; [exact E|]. apply (Hgood sorted 2%nat Hno).
    + destruct (main_case_sorts stod csv_Parser csvPath lines bids w v Hbids QuickAlg choice
                  Hne Hmax ltac:(left; congruence)) as (sorted & _ & E).
      eexists. split; [exact E|]. apply (Hgood sorted 2%nat Hno).
    + destruct (main_case_sorts stod csv_Parser csvPath lines bids w v Hbids MergeAlg choice
                  Hne Hmax ltac:(right; left; congruence)) as (sorted & _ & E).
      eexists. split; [exact E|]. apply (Hgood sorted 2%nat Hno).
    + destruct (main_case_sorts stod csv_Parser csvPath lines bids w v Hbids HeapAlg choice
                  Hne Hmax ltac:(right; right; congruence)) as (sorted & _ & E).
      eexists. split; [exact E|]. apply (Hgood sorted 2%nat Hno).
    + destruct (runBenchmarkComparison_world bids w v Hbids Hne Hmax) as (out & E).
      eexists. split.
      * unfold main_case. rewrite Hbids. cbn [mbind option_bind]. rewrite E. reflexivity.
      * cbn [ticks reads heap]. split; [reflexivity|]. split; [lia|].
        split; [reflexivity|]. intros Hv. contradiction.
    + eexists. split.
      * unfold main_case. rewrite Hbids. reflexivity.
      * apply (Hgood (@nil Bid) 0%nat Hno).
Qed.

Lemma every_round_of_the_menu_is_defined_witness :
  heap (sample_world sample) !! 1%positive = Some sample /\
  vsize sample <= max_size /\
  (forall file, sample_csv_Parser "eBid_Monthly_Sales.csv" = Returns file ->
                (Z.of_N (rowCount file) <= INT_MAX)%Z) /\
  exists r,
    main_case sample_stod sample_csv_Parser "eBid_Monthly_Sales.csv" 3
        ("9", "Pear", "General", "$1e999")%string 1 (sample_world sample) = Some r /\
    match r with
    | Throws e =>
      3%Z = 3%Z /\ e <> invalid_argument /\
      sample_stod (erase_remove (snd ("9", "Pear", "General", "$1e999")%string) "$")
        = Throws e
    | Returns w' =>
      ticks w' = ticks (sample_world sample) /\
      (reads (sample_world sample) <= reads w')%nat /\
      (forall p, p <> 1%positive ->
                 heap w' !! p = heap (sample_world sample) !! p) /\
      (sample = [] -> 3%Z <> 1%Z -> 3%Z <> 3%Z -> w' = sample_world sample)
    end.
Proof.
  assert (H : forall file, sample_csv_Parser "eBid_Monthly_Sales.csv" = Returns file ->
                (Z.of_N (rowCount file) <= INT_MAX)%Z).
  { intros file [= <-]. vm_compute. discriminate. }
  split; [reflexivity|]. split; [vm_compute; discriminate|]. split; [exact H|].
  apply (every_round_of_the_menu_is_defined sample_stod sample_csv_Parser
           "eBid_Monthly_Sales.csv" ("9", "Pear", "General", "$1e999")%string 3 1
           (sample_world sample) sample);
    [reflexivity|vm_compute; discriminate|exact H].
Defined.

(** X20. The first loop of [heapSort], on a non-empty vector of at most
    [2^32 + 1] records, returns a permutation of the input that is a heap
    from the root on: no child has a larger title than its parent, and so
    no record has a larger title than the first one. *)
Theorem first_loop_builds_a_heap (bids : vector) :
  bids <> [] -> vsize bids <= HEAP_MAX ->
  exists out,
    BidSorter.build_heap (S (length bids)) bids (vsize bids)
      (to_int (wsub (vsize bids / 2) 1)) = Some out /\
    out ≡ₚ bids /\ heap_ok out (vsize bids) 0 /\
    (forall x0 k xk, at_ out 0 = Some x0 -> at_ out k = Some xk ->
                     String.leb (title xk) (title x0) = true).
Proof.
  intros Hne Hheap.
  assert (Hnz : vsize bids <> 0).
  { destruct bids; [contradiction|]. unfold vsize. simpl. lia. }
  assert (Hmod : 2 * vsize bids < SIZE_MOD) by (unfold HEAP_MAX, SIZE_MOD in *; lia).
  set (n := vsize bids) in *.
  assert (Hw : n = 1 /\ wsub (n / 2) 1 = SIZE_MOD - 1 \/
               2 <= n /\ wsub (n / 2) 1 = n / 2 - 1).
  { destruct (N.eq_dec n 1) as [->|]; [left; split; reflexivity|].
    right. split; [lia|]. apply wsub_small; lia. }
  assert (Hstart : Z.to_N (to_int (wsub (n / 2) 1) + 1) = n / 2).
  { destruct Hw as [[-> ->]|[Hn ->]]; [vm_compute; reflexivity|].
    rewrite to_int_small; unfold HEAP_MAX, INT_HALF in *; lia. }
  destruct (build_heap_spec n Hmod (S (length bids)) bids
              (to_int (wsub (n / 2) 1))) as (out & Hout & Hex & Hh).
  - unfold n. lia.
  - destruct Hw as [[-> ->]|[Hn ->]]; [vm_compute; reflexivity|].
    pose proof (to_int_le (n / 2 - 1)). lia.
  - destruct Hw as [[H1 ->]|[Hn ->]]; [vm_compute; lia|].
    pose proof (to_int_le (n / 2 - 1)). unfold n, vsize in *. lia.
  - exists out. split; [exact Hout|]. split; [eapply exch_perm; exact Hex|].
    assert (Hok : heap_ok out n 0).
    { apply Hh. intros p c xp xc Hp Hc Hpc _ _. rewrite Hstart in Hp. lia. }
    split; [exact Hok|].
    intros x0 k xk Hx0 Hxk. apply tle_title_le.
    pose proof (exch_vsize _ _ _ _ Hex) as Hsz.
    assert (Hk : k < n) by (apply at_lt in Hxk; unfold n in *; lia).
    assert (Hm : n <= vsize out) by (unfold n in *; lia).
    exact (heap_root_max out n x0 Hok Hm Hx0 k xk Hk Hxk).
Qed.

Lemma first_loop_builds_a_heap_witness :
  sample <> [] /\ vsize sample <= HEAP_MAX /\
  exists out,
    BidSorter.build_heap (S (length sample)) sample (vsize sample)
      (to_int (wsub (vsize sample / 2) 1)) = Some out /\
    out ≡ₚ sample /\ heap_ok out (vsize sample) 0 /\
    (forall x0 k xk, at_ out 0 = Some x0 -> at_ out k = Some xk ->
                     String.leb (title xk) (title x0) = true).
Proof.
  split; [discriminate|]. split; [vm_compute; discriminate|].
  apply (first_loop_builds_a_heap sample); [discriminate|vm_compute; discriminate].
Defined.
